(** * sjtu::map — a red-black tree with parent links and a sentinel header

    Shallow embedding of [src/map/map.hpp].  Nodes live in a heap
    ([gmap] from addresses to node records); every member function of the
    C++ class is a function in a state-and-error monad over that heap.
    Loops and recursive calls carry a fuel argument. *)

From stdpp Require Import gmap list sorting.

(** ** Enumerations of the source *)

Inductive Color := RED | BLACK.
Inductive Direction := LEFT | RIGHT | ROOT.

Global Instance Color_eq_dec : EqDecision Color.
Proof. solve_decision. Defined.
Global Instance Direction_eq_dec : EqDecision Direction.
Proof. solve_decision. Defined.

(** Exceptions of [exceptions.hpp] that the map throws. *)
Inductive exn := invalid_iterator | index_out_of_bound.

(** Addresses; a pointer is an optional address ([None] is [nullptr]). *)
Abbreviation loc := nat (only parsing).
Abbreviation pointer := (option nat) (only parsing).

(** ** Outcomes and the monad

    [Val a s]: normal return.  [Throw e s]: a C++ exception leaves the
    function, with the state reached when it was thrown.  [Undef]: undefined
    behaviour (null or dangling dereference, double free) or a failed
    [assert].  [Timeout]: the fuel of a loop or recursion ran out. *)

Inductive result (St A : Type) : Type :=
| Val (a : A) (s : St)
| Throw (e : exn) (s : St)
| Undef
| Timeout.
Arguments Val {St A} a s.
Arguments Throw {St A} e s.
Arguments Undef {St A}.
Arguments Timeout {St A}.

Definition M (St A : Type) : Type := St → result St A.

Definition ret {St A} (a : A) : M St A := λ s, Val a s.

Definition bind {St A B} (m : M St A) (k : A → M St B) : M St B :=
  λ s, match m s with
       | Val a s' => k a s'
       | Throw e s' => Throw e s'
       | Undef => Undef
       | Timeout => Timeout
       end.

Definition throw {St A} (e : exn) : M St A := λ s, Throw e s.
Definition undef {St A} : M St A := λ _, Undef.
Definition timeout {St A} : M St A := λ _, Timeout.

(** [assert(c)] of <cassert>: a failed assertion aborts. *)
Definition assert {St} (c : bool) : M St unit :=
  if c then ret tt else undef.

Declare Scope cpp_scope.
Delimit Scope cpp_scope with cpp.
Notation "'let*' x := m 'in' k" := (bind m (λ x, k))
  (at level 10, x pattern, m at level 100, k at level 200,
   format "'[v' 'let*'  x  :=  m  'in' '/' k ']'") : cpp_scope.
Notation "m ;; k" := (bind m (λ _, k))
  (at level 100, k at level 200, right associativity,
   format "'[v' m  ;; '/' k ']'") : cpp_scope.
Open Scope cpp_scope.

Definition when {St} (c : bool) (m : M St unit) : M St unit :=
  if c then m else ret tt.

Definition ptr_eqb (p q : pointer) : bool := bool_decide (p = q).
Definition is_null (p : pointer) : bool := bool_decide (p = None).
Definition Color_eqb (c d : Color) : bool := bool_decide (c = d).
Definition Direction_eqb (c d : Direction) : bool := bool_decide (c = d).

(** ** The node record and the heap *)

Section map.

Context {Key T : Type}.
(** [Compare()(x, y)] and the default constructor [T()]. *)
Variable Compare : Key → Key → bool.
Variable T_default : T.

(** [typedef pair<const Key, T> value_type] *)
Definition value_type : Type := Key * T.

(** [struct RBTNode]; [data] is the pointer to the malloc'ed pair together
    with the pair it points to, [None] for the null data pointer of the
    sentinel. *)
Record RBTNode := mkNode {
  color : Color;
  data : option value_type;
  left : pointer;
  right : pointer;
  parent : pointer
}.

Definition set_color (c : Color) (n : RBTNode) : RBTNode :=
  mkNode c (data n) (left n) (right n) (parent n).
Definition set_left (p : pointer) (n : RBTNode) : RBTNode :=
  mkNode (color n) (data n) p (right n) (parent n).
Definition set_right (p : pointer) (n : RBTNode) : RBTNode :=
  mkNode (color n) (data n) (left n) p (parent n).
Definition set_parent (p : pointer) (n : RBTNode) : RBTNode :=
  mkNode (color n) (data n) (left n) (right n) p.

Abbreviation heap := (gmap nat RBTNode).

(** Reading through a pointer: null and dangling pointers are undefined. *)
Definition load (p : pointer) : M heap RBTNode :=
  λ h, match p with
       | None => Undef
       | Some a => match h !! a with
                   | Some n => Val n h
                   | None => Undef
                   end
       end.

(** Writing one field through a pointer. *)
Definition store (p : pointer) (f : RBTNode → RBTNode) : M heap unit :=
  λ h, match p with
       | None => Undef
       | Some a => match h !! a with
                   | Some n => Val tt (<[a := f n]> h)
                   | None => Undef
                   end
       end.

(** [new RBTNode(...)]: a fresh address. *)
Definition new_node (n : RBTNode) : M heap pointer :=
  λ h, let a := fresh (dom h) in Val (Some a) (<[a := n]> h).

(** [delete node] on a non-null pointer: the node must be live. *)
Definition delete_node (p : pointer) : M heap unit :=
  λ h, match p with
       | None => Undef
       | Some a => match h !! a with
                   | Some _ => Val tt (delete a h)
                   | None => Undef
                   end
       end.

(** [RBTNode()] and [RBTNode(x, parent, left, right, color)]. *)
Definition RBTNode_default : RBTNode := mkNode RED None None None None.
Definition RBTNode_of (x : value_type) (_parent _left _right : pointer) (_color : Color)
  : RBTNode := mkNode _color (Some x) _left _right _parent.

(** *** Member functions of RBTNode *)

Definition isLeaf (this : pointer) : M heap bool :=
  let* n := load this in
  ret (is_null (left n) && is_null (right n)).

(** [this->parent && this->parent->parent == nullptr] *)
Definition isRoot (this : pointer) : M heap bool :=
  let* n := load this in
  if is_null (parent n) then ret false
  else let* p := load (parent n) in ret (is_null (parent p)).

Definition isRed (this : pointer) : M heap bool :=
  let* n := load this in ret (Color_eqb (color n) RED).

Definition isBlack (this : pointer) : M heap bool :=
  let* n := load this in ret (Color_eqb (color n) BLACK).

Definition direction (this : pointer) : M heap Direction :=
  let* r := isRoot this in
  if negb r then
    let* n := load this in
    let* p := load (parent n) in
    if ptr_eqb this (left p) then ret LEFT else ret RIGHT
  else ret ROOT.

Definition sibling (this : pointer) : M heap pointer :=
  let* r := isRoot this in
  assert (negb r);;
  let* d := direction this in
  let* n := load this in
  let* p := load (parent n) in
  if Direction_eqb d LEFT then ret (right p) else ret (left p).

Definition hasSibling (this : pointer) : M heap bool :=
  let* r := isRoot this in
  if negb r then let* s := sibling this in ret (negb (is_null s))
  else ret false.

Definition uncle (this : pointer) : M heap pointer :=
  let* r := isRoot this in
  assert (negb r);;
  let* n := load this in
  sibling (parent n).

Definition hasUncle (this : pointer) : M heap bool :=
  let* r := isRoot this in
  if negb r then let* n := load this in hasSibling (parent n)
  else ret false.

Definition grandParent (this : pointer) : M heap pointer :=
  let* n := load this in
  let* r := isRoot (parent n) in
  assert (negb r);;
  let* p := load (parent n) in
  ret (parent p).

Definition equal_key (x y : Key) : bool := negb (Compare x y || Compare y x).

(** A [RBTNode*&] parameter: a reference to the child slot of a node. *)
Inductive slot := SlotLeft (owner : pointer) | SlotRight (owner : pointer).

Definition read_slot (r : slot) : M heap pointer :=
  match r with
  | SlotLeft o => let* n := load o in ret (left n)
  | SlotRight o => let* n := load o in ret (right n)
  end.

Definition write_slot (r : slot) (p : pointer) : M heap unit :=
  match r with
  | SlotLeft o => store o (set_left p)
  | SlotRight o => store o (set_right p)
  end.

(** [*(node->data)]: the stored pair, undefined on a null data pointer. *)
Definition load_data (p : pointer) : M heap value_type :=
  let* n := load p in
  match data n with
  | Some x => ret x
  | None => undef
  end.

(** *** Private member functions of map *)

(** [void clear(RBTNode* node)] *)
Fixpoint clear_priv (fuel : nat) (node : pointer) : M heap unit :=
  match fuel with
  | 0 => timeout
  | S fuel =>
    if is_null node then ret tt else
    store node (set_parent None);;
    let* n := load node in
    when (negb (is_null (left n))) (clear_priv fuel (left n));;
    let* n := load node in
    when (negb (is_null (right n))) (clear_priv fuel (right n));;
    delete_node node
  end.

(** [void copy(RBTNode*& node, RBTNode* ori)] *)
Fixpoint copy (fuel : nat) (node : slot) (ori : pointer) : M heap unit :=
  match fuel with
  | 0 => timeout
  | S fuel =>
    if is_null ori then ret tt else
    let* x := load_data ori in
    let* o := load ori in
    let* fresh_node := new_node (RBTNode_of x None None None (color o)) in
    write_slot node fresh_node;;
    let* cur := read_slot node in
    let* o := load ori in
    copy fuel (SlotLeft cur) (left o);;
    let* c := load cur in
    when (negb (is_null (left c))) (store (left c) (set_parent cur));;
    let* o := load ori in
    copy fuel (SlotRight cur) (right o);;
    let* c := load cur in
    when (negb (is_null (right c))) (store (right c) (set_parent cur))
  end.

(** [void maintainRelationship(RBTNode* node)] *)
Definition maintainRelationship (node : pointer) : M heap unit :=
  let* n := load node in
  when (negb (is_null (left n))) (store (left n) (set_parent node));;
  let* n := load node in
  when (negb (is_null (right n))) (store (right n) (set_parent node)).

(** [void rotateLeft(RBTNode* node)]; [sentinel] is the member
    [this->sentinel]. *)
Definition rotateLeft (sentinel node : pointer) : M heap unit :=
  assert (negb (is_null node));;
  let* n := load node in
  assert (negb (is_null (right n)));;
  let parent_ := parent n in
  let* direction_ := direction node in
  let successor := right n in
  let* s := load successor in
  store node (set_right (left s));;
  store successor (set_left node);;
  maintainRelationship node;;
  maintainRelationship successor;;
  match direction_ with
  | ROOT => store sentinel (set_left successor)
  | LEFT => store parent_ (set_left successor)
  | RIGHT => store parent_ (set_right successor)
  end;;
  store successor (set_parent parent_).

(** [void rotateRight(RBTNode* node)] *)
Definition rotateRight (sentinel node : pointer) : M heap unit :=
  assert (negb (is_null node));;
  let* n := load node in
  assert (negb (is_null (left n)));;
  let parent_ := parent n in
  let* direction_ := direction node in
  let successor := left n in
  let* s := load successor in
  store node (set_left (right s));;
  store successor (set_right node);;
  maintainRelationship node;;
  maintainRelationship successor;;
  match direction_ with
  | ROOT => store sentinel (set_left successor)
  | LEFT => store parent_ (set_left successor)
  | RIGHT => store parent_ (set_right successor)
  end;;
  store successor (set_parent parent_).

Definition rotateSameDirection (sentinel node : pointer) (d : Direction) : M heap unit :=
  match d with
  | LEFT => rotateLeft sentinel node
  | _ => rotateRight sentinel node
  end.

Definition rotateOppositeDirection (sentinel node : pointer) (d : Direction) : M heap unit :=
  match d with
  | LEFT => rotateRight sentinel node
  | _ => rotateLeft sentinel node
  end.

(** The block of Cases 5 and 6 of [maintainAfterInsert]: parent RED, uncle
    BLACK or absent. *)
Definition maintainAfterInsert_rotate (sentinel node : pointer) : M heap unit :=
  let* r := isRoot node in
  assert (negb r);;
  let* d := direction node in
  let* n := load node in
  let* dp := direction (parent n) in
  let* node :=
    (if negb (Direction_eqb d dp) then
       (* Case 5: opposite direction as parent *)
       let* n := load node in
       let parent_ := parent n in
       let* d := direction node in
       (if Direction_eqb d LEFT
        then let* n := load node in rotateRight sentinel (parent n)
        else let* n := load node in rotateLeft sentinel (parent n));;
       ret parent_
     else ret node) in
  (* Case 6: same direction as parent *)
  let* g := grandParent node in
  assert (negb (is_null g));;
  let* n := load node in
  let* dp := direction (parent n) in
  (if Direction_eqb dp LEFT
   then let* g := grandParent node in rotateRight sentinel g
   else let* g := grandParent node in rotateLeft sentinel g);;
  let* n := load node in
  store (parent n) (set_color BLACK);;
  let* sb := sibling node in
  store sb (set_color RED).

(** [void maintainAfterInsert(RBTNode* node)] *)
Fixpoint maintainAfterInsert (fuel : nat) (sentinel node : pointer) : M heap unit :=
  match fuel with
  | 0 => timeout
  | S fuel =>
    assert (negb (is_null node));;
    let* r := isRoot node in
    if r then
      (* Case 1: current node is root *)
      store node (set_color BLACK)
    else
    let* n := load node in
    let* pb := isBlack (parent n) in
    if pb then
      (* Case 2: parent is BLACK *)
      ret tt
    else
    let* hu := hasUncle node in
    let* ur := (if hu then let* u := uncle node in isRed u else ret false) in
    if ur then
      (* Case 4: both parent and uncle are RED *)
      let* n := load node in
      let* pr := isRed (parent n) in
      assert pr;;
      store (parent n) (set_color BLACK);;
      let* u := uncle node in
      store u (set_color BLACK);;
      let* g := grandParent node in
      store g (set_color RED);;
      let* g := grandParent node in
      maintainAfterInsert fuel sentinel g
    else
    let* hu := hasUncle node in
    let* ub := (if negb hu then ret true else let* u := uncle node in isBlack u) in
    if ub then
      (* Case 5 & 6: parent is RED and uncle is BLACK *)
      maintainAfterInsert_rotate sentinel node
    else ret tt
  end.

(** [pair<RBTNode*, bool> insert(const value_type& value, RBTNode*& node,
    RBTNode* p)], the private recursive insertion. *)
Fixpoint insert_priv (fuel : nat) (value : value_type) (node : slot) (p : pointer)
  : M heap (pointer * bool) :=
  match fuel with
  | 0 => timeout
  | S fuel =>
    let* cur := read_slot node in
    if is_null cur then
      let* fresh_node := new_node (RBTNode_of value p None None RED) in
      write_slot node fresh_node;;
      let* cur := read_slot node in
      ret (cur, true)
    else
    let* x := load_data cur in
    if equal_key (fst x) (fst value) then ret (cur, false)
    else if Compare (fst value) (fst x)
    then insert_priv fuel value (SlotLeft cur) cur
    else insert_priv fuel value (SlotRight cur) cur
  end.

(** [RBTNode* find(Key key, RBTNode* node) const] *)
Fixpoint find_priv (fuel : nat) (key : Key) (node : pointer) : M heap pointer :=
  match fuel with
  | 0 => timeout
  | S fuel =>
    if is_null node then ret node else
    let* x := load_data node in
    if equal_key key (fst x) then ret node
    else if Compare key (fst x)
    then let* n := load node in find_priv fuel key (left n)
    else let* n := load node in find_priv fuel key (right n)
  end.

(** [static void swapNode(RBTNode* lhs, RBTNode* rhs)] *)
Definition swapNode (lhs rhs : pointer) : M heap unit :=
  if ptr_eqb lhs rhs then ret tt else
  (* std::swap(lhs->left, rhs->left) *)
  let* l := load lhs in
  let* r := load rhs in
  store lhs (set_left (left r));;
  store rhs (set_left (left l));;
  (* std::swap(lhs->right, rhs->right) *)
  let* l := load lhs in
  let* r := load rhs in
  store lhs (set_right (right r));;
  store rhs (set_right (right l));;
  let* l := load lhs in
  when (negb (is_null (left l))) (store (left l) (set_parent lhs));;
  let* l := load lhs in
  when (negb (is_null (right l))) (store (right l) (set_parent lhs));;
  let* r := load rhs in
  when (negb (is_null (left r))) (store (left r) (set_parent rhs));;
  let* r := load rhs in
  when (negb (is_null (right r))) (store (right r) (set_parent rhs));;
  (* std::swap(lhs->parent, rhs->parent) *)
  let* l := load lhs in
  let* r := load rhs in
  store lhs (set_parent (parent r));;
  store rhs (set_parent (parent l));;
  let* l := load lhs in
  when (negb (is_null (parent l)))
    (let* p := load (parent l) in
     if ptr_eqb (left p) rhs then store (parent l) (set_left lhs)
     else let* p := load (parent l) in
          if ptr_eqb (right p) rhs then store (parent l) (set_right lhs)
          else ret tt);;
  let* r := load rhs in
  when (negb (is_null (parent r)))
    (let* p := load (parent r) in
     if ptr_eqb (left p) lhs then store (parent r) (set_left rhs)
     else let* p := load (parent r) in
          if ptr_eqb (right p) lhs then store (parent r) (set_right rhs)
          else ret tt);;
  (* std::swap(lhs->color, rhs->color) *)
  let* l := load lhs in
  let* r := load rhs in
  store lhs (set_color (color r));;
  store rhs (set_color (color l)).

(** The part of [maintainAfterRemove] below Case 1, where the sibling is
    BLACK (Cases 2 to 5); [recur] is the recursive call of Case 3. *)
Definition maintainAfterRemove_black (recur : pointer → M heap unit)
    (sentinel node : pointer) (direction_ : Direction) (sibling1 : pointer)
  : M heap unit :=
  let* s := load sibling1 in
  let closeNephew := if Direction_eqb direction_ LEFT then left s else right s in
  let distantNephew := if Direction_eqb direction_ LEFT then right s else left s in
  let* closeNephewIsBlack :=
    (if is_null closeNephew then ret true else isBlack closeNephew) in
  let* distantNephewIsBlack :=
    (if is_null distantNephew then ret true else isBlack distantNephew) in
  let* sb := isBlack sibling1 in
  assert sb;;
  if closeNephewIsBlack && distantNephewIsBlack then
    let* n := load node in
    let* pr := isRed (parent n) in
    if pr then
      (* Case 2: sibling and nephews are BLACK, parent is RED *)
      store sibling1 (set_color RED);;
      let* n := load node in
      store (parent n) (set_color BLACK)
    else
      (* Case 3: sibling, parent and nephews are all BLACK *)
      store sibling1 (set_color RED);;
      let* n := load node in
      recur (parent n)
  else
    let* cr := (if negb (is_null closeNephew) then isRed closeNephew else ret false) in
    let* sd :=
      (if cr then
         (* Case 4: sibling is BLACK, close nephew is RED *)
         rotateOppositeDirection sentinel sibling1 direction_;;
         store closeNephew (set_color BLACK);;
         store sibling1 (set_color RED);;
         let* sibling2 := sibling node in
         let* s := load sibling2 in
         ret (sibling2,
              if Direction_eqb direction_ LEFT then right s else left s)
       else ret (sibling1, distantNephew)) in
    let sibling3 := fst sd in
    let distantNephew := snd sd in
    (* Case 5: sibling is BLACK, distant nephew is RED *)
    let* dr := isRed distantNephew in
    assert dr;;
    let* n := load node in
    rotateSameDirection sentinel (parent n) direction_;;
    let* n := load node in
    let* p := load (parent n) in
    store sibling3 (set_color (color p));;
    let* n := load node in
    store (parent n) (set_color BLACK);;
    when (negb (is_null distantNephew)) (store distantNephew (set_color BLACK)).

(** [void maintainAfterRemove(RBTNode* node)] *)
Fixpoint maintainAfterRemove (fuel : nat) (sentinel node : pointer) : M heap unit :=
  match fuel with
  | 0 => timeout
  | S fuel =>
    let* r := isRoot node in
    if r then ret tt else
    let* nb := isBlack node in
    let* hs := (if nb then hasSibling node else ret false) in
    assert hs;;
    let* direction_ := direction node in
    let* sibling0 := sibling node in
    let* sr := isRed sibling0 in
    let* sibling1 :=
      (if sr then
         (* Case 1: sibling is RED *)
         let* n := load node in
         let parent_ := parent n in
         let* pb := (if negb (is_null parent_) then isBlack parent_ else ret false) in
         assert pb;;
         let* s := load sibling0 in
         let* lb := (if negb (is_null (left s)) then isBlack (left s) else ret false) in
         assert lb;;
         let* s := load sibling0 in
         let* rb := (if negb (is_null (right s)) then isBlack (right s) else ret false) in
         assert rb;;
         let* n := load node in
         rotateSameDirection sentinel (parent n) direction_;;
         store sibling0 (set_color BLACK);;
         store parent_ (set_color RED);;
         sibling node
       else ret sibling0) in
    maintainAfterRemove_black (maintainAfterRemove fuel sentinel)
      sentinel node direction_ sibling1
  end.

(** The loop of [remove] that walks to the leftmost node of the right
    subtree: [while (successor->left != nullptr) { parent = successor;
    successor = parent->left; }] *)
Fixpoint successor_loop (fuel : nat) (parent_ successor : pointer)
  : M heap (pointer * pointer) :=
  match fuel with
  | 0 => timeout
  | S fuel =>
    let* s := load successor in
    if negb (is_null (left s)) then successor_loop fuel successor (left s)
    else ret (parent_, successor)
  end.

(** Case 1 of [remove], for a node with two children: the walk to the
    successor, then [swapNode(node, successor); maintainRelationship(parent);
    maintainRelationship(p)]. *)
Definition remove_swap (fuel : nat) (node : pointer) : M heap unit :=
  let* n := load node in
  let p := parent n in
  let* ps := successor_loop fuel node (right n) in
  swapNode node (snd ps);;
  maintainRelationship (fst ps);;
  maintainRelationship p.

(** Case 2 of [remove]: the node is a leaf. *)
Definition remove_leaf (fuel : nat) (sentinel node : pointer) : M heap unit :=
  (* Current node must not be the root *)
  let* r := isRoot node in
  assert (negb r);;
  let* b := isBlack node in
  when b (maintainAfterRemove fuel sentinel node);;
  let* d := direction node in
  if Direction_eqb d LEFT
  then let* n := load node in store (parent n) (set_left None)
  else let* n := load node in store (parent n) (set_right None).

(** Case 3 of [remove]: the node has a single left or right child. *)
Definition remove_single (fuel : nat) (sentinel node : pointer) : M heap unit :=
  let* n := load node in
  assert (is_null (left n) || is_null (right n));;
  let parent_ := parent n in
  let replacement := if negb (is_null (left n)) then left n else right n in
  let* d := direction node in
  match d with
  | ROOT => store sentinel (set_left replacement)
  | LEFT => store parent_ (set_left replacement)
  | RIGHT => store parent_ (set_right replacement)
  end;;
  store replacement (set_parent parent_);;
  let* b := isBlack node in
  when b
    (let* rr := isRed replacement in
     if rr then store replacement (set_color BLACK)
     else maintainAfterRemove fuel sentinel replacement).

(** [void remove(RBTNode* node)]; [size] is [this->size()]. *)
Definition remove_priv (fuel : nat) (sentinel : pointer) (size : nat) (node : pointer)
  : M heap unit :=
  assert (negb (is_null node));;
  if Nat.eqb size 1 then
    (* Current node is the only node of the tree *)
    store sentinel (set_left None);;
    delete_node node
  else
  let* n := load node in
  when (negb (is_null (left n)) && negb (is_null (right n)))
    (remove_swap fuel node);;
  let* lf := isLeaf node in
  (if lf then remove_leaf fuel sentinel node
   else remove_single fuel sentinel node);;
  delete_node node.

(** ** Map objects and iterators *)

(** The data members of [class map]: [RBTNode* sentinel; size_t len].
    [len] counts live nodes; like the allocator, which never runs out of
    addresses here, it is left unbounded. *)
Record map_rec := mkMap {
  sentinel : pointer;
  len : nat
}.

(** The whole store: the nodes and the map objects, each at its address. *)
Record world := mkWorld {
  nodes : gmap nat RBTNode;
  objs : gmap nat map_rec
}.

(** [class iterator]: [map* map_ptr; RBTNode* ptr]. *)
Record iterator := mkIter {
  map_ptr : pointer;
  ptr : pointer
}.

Global Instance iterator_eq_dec : EqDecision iterator.
Proof. solve_decision. Defined.

(** Running a node-level computation inside the world. *)
Definition lift {A} (m : M heap A) : M world A :=
  λ w, match m (nodes w) with
       | Val a h => Val a (mkWorld h (objs w))
       | Throw e h => Throw e (mkWorld h (objs w))
       | Undef => Undef
       | Timeout => Timeout
       end.

(** Reading and writing the members of [*this]. *)
Definition load_map (this : pointer) : M world map_rec :=
  λ w, match this with
       | None => Undef
       | Some a => match objs w !! a with
                   | Some m => Val m w
                   | None => Undef
                   end
       end.

Definition store_map (this : pointer) (f : map_rec → map_rec) : M world unit :=
  λ w, match this with
       | None => Undef
       | Some a => match objs w !! a with
                   | Some m => Val tt (mkWorld (nodes w) (<[a := f m]> (objs w)))
                   | None => Undef
                   end
       end.

Definition set_len (n : nat) (m : map_rec) : map_rec := mkMap (sentinel m) n.

(** The fuel handed to loops and recursions: one more than the number of
    live nodes, which bounds every path of a well-formed tree. *)
Definition fuel_of : M world nat := λ w, Val (S (size (nodes w))) w.

(** *** Loops of the iterators *)

(** [while (ptr->left) ptr = ptr->left;] *)
Fixpoint while_left (fuel : nat) (p : pointer) : M heap pointer :=
  match fuel with
  | 0 => timeout
  | S fuel =>
    let* n := load p in
    if negb (is_null (left n)) then while_left fuel (left n) else ret p
  end.

(** [while (ptr->right) ptr = ptr->right;] *)
Fixpoint while_right (fuel : nat) (p : pointer) : M heap pointer :=
  match fuel with
  | 0 => timeout
  | S fuel =>
    let* n := load p in
    if negb (is_null (right n)) then while_right fuel (right n) else ret p
  end.

(** [while (1) { if (ptr->direction() == Direction::RIGHT) ptr = ptr->parent;
    else { ptr = ptr->parent; break; } }] *)
Fixpoint climb_from_right (fuel : nat) (p : pointer) : M heap pointer :=
  match fuel with
  | 0 => timeout
  | S fuel =>
    let* d := direction p in
    if Direction_eqb d RIGHT
    then let* n := load p in climb_from_right fuel (parent n)
    else let* n := load p in ret (parent n)
  end.

(** [while (ptr->direction() == Direction::LEFT) ptr = ptr->parent;] *)
Fixpoint climb_from_left (fuel : nat) (p : pointer) : M heap pointer :=
  match fuel with
  | 0 => timeout
  | S fuel =>
    let* d := direction p in
    if Direction_eqb d LEFT
    then let* n := load p in climb_from_left fuel (parent n)
    else ret p
  end.

(** [iterator& operator++()] *)
Definition iterator_incr (it : iterator) : M world iterator :=
  let* fuel := fuel_of in
  let* m := load_map (map_ptr it) in
  if ptr_eqb (ptr it) (sentinel m) then throw invalid_iterator else
  let* n := lift (load (ptr it)) in
  if negb (is_null (right n)) then
    let* p := lift (while_left fuel (right n)) in
    ret (mkIter (map_ptr it) p)
  else
    let* p := lift (climb_from_right fuel (ptr it)) in
    ret (mkIter (map_ptr it) p).

(** [iterator& operator--()] *)
Definition iterator_decr (it : iterator) : M world iterator :=
  let* fuel := fuel_of in
  let* m := load_map (map_ptr it) in
  let* begin_ptr := lift (while_left fuel (sentinel m)) in
  if ptr_eqb (ptr it) begin_ptr then throw invalid_iterator else
  let* n := lift (load (ptr it)) in
  if negb (is_null (left n)) then
    let* p := lift (while_right fuel (left n)) in
    ret (mkIter (map_ptr it) p)
  else
    let* p := lift (climb_from_left fuel (ptr it)) in
    let* n := lift (load p) in
    ret (mkIter (map_ptr it) (parent n)).

(** [value_type& operator*() const] *)
Definition iterator_deref (it : iterator) : M world value_type :=
  let* m := load_map (map_ptr it) in
  if ptr_eqb (ptr it) (sentinel m) then throw invalid_iterator else
  lift (load_data (ptr it)).

(** [value_type* operator->() const noexcept]: the data pointer of the node,
    [None] when it is null. *)
Definition iterator_arrow (it : iterator) : M world (option value_type) :=
  let* n := lift (load (ptr it)) in
  ret (data n).

(** [bool operator==(const iterator& rhs) const] *)
Definition iterator_eqb (it rhs : iterator) : bool :=
  ptr_eqb (map_ptr it) (map_ptr rhs) && ptr_eqb (ptr it) (ptr rhs).

(** *** Public member functions of map *)

(** [map()], constructing the object at address [this]. *)
Definition map_ctor (this : nat) : M world unit :=
  let* s := lift (new_node RBTNode_default) in
  λ w, Val tt (mkWorld (nodes w) (<[this := mkMap s 0]> (objs w))).

(** [map(const map& other)] *)
Definition map_copy_ctor (this : nat) (other : pointer) : M world unit :=
  let* fuel := fuel_of in
  let* o := load_map other in
  let* s := lift (new_node RBTNode_default) in
  (λ w, Val tt (mkWorld (nodes w) (<[this := mkMap s (len o)]> (objs w))));;
  let* os := lift (load (sentinel o)) in
  lift (copy fuel (SlotLeft s) (left os));;
  let* sn := lift (load s) in
  when (negb (is_null (left sn))) (lift (store (left sn) (set_parent s))).

(** [map& operator=(const map& other)] *)
Definition map_assign (this other : pointer) : M world unit :=
  let* fuel := fuel_of in
  if ptr_eqb this other then ret tt else
  let* m := load_map this in
  let* sn := lift (load (sentinel m)) in
  lift (clear_priv fuel (left sn));;
  let* o := load_map other in
  let* os := lift (load (sentinel o)) in
  lift (copy fuel (SlotLeft (sentinel m)) (left os));;
  let* sn := lift (load (sentinel m)) in
  when (negb (is_null (left sn))) (lift (store (left sn) (set_parent (sentinel m))));;
  let* o := load_map other in
  store_map this (set_len (len o)).

(** [T& at(const Key& key)]; the reference is the node that holds the
    mapped value. *)
Definition map_at (this : pointer) (key : Key) : M world pointer :=
  let* fuel := fuel_of in
  let* m := load_map this in
  let* sn := lift (load (sentinel m)) in
  let* p := lift (find_priv fuel key (left sn)) in
  if negb (is_null p) then ret p else throw index_out_of_bound.

(** Reading [p->data->second] through the reference returned by [at] or
    [operator[]]. *)
Definition load_second (p : pointer) : M world T :=
  let* x := lift (load_data p) in ret (snd x).

(** [iterator begin()] *)
Definition map_begin (this : pointer) : M world iterator :=
  let* fuel := fuel_of in
  let* m := load_map this in
  let* node := lift (while_left fuel (sentinel m)) in
  ret (mkIter this node).

(** [iterator end()] *)
Definition map_end (this : pointer) : M world iterator :=
  let* m := load_map this in
  ret (mkIter this (sentinel m)).

(** [bool empty() const] and [size_t size() const] *)
Definition map_empty (this : pointer) : M world bool :=
  let* m := load_map this in ret (Nat.eqb (len m) 0).

Definition map_size (this : pointer) : M world nat :=
  let* m := load_map this in ret (len m).

(** [void clear()] *)
Definition map_clear (this : pointer) : M world unit :=
  let* fuel := fuel_of in
  let* m := load_map this in
  let* sn := lift (load (sentinel m)) in
  lift (clear_priv fuel (left sn));;
  lift (store (sentinel m) (set_left None));;
  store_map this (set_len 0).

(** [pair<iterator, bool> insert(const value_type& value)] *)
Definition map_insert (this : pointer) (value : value_type) : M world (iterator * bool) :=
  let* fuel := fuel_of in
  let* m := load_map this in
  let* p := lift (insert_priv fuel value (SlotLeft (sentinel m)) (sentinel m)) in
  when (snd p)
    (lift (maintainAfterInsert fuel (sentinel m) (fst p));;
     let* m := load_map this in
     store_map this (set_len (S (len m))));;
  ret (mkIter this (fst p), snd p).

(** [T& operator[](const Key& key)] *)
Definition map_index (this : pointer) (key : Key) : M world pointer :=
  let* tmp := map_insert this (key, T_default) in
  ret (ptr (fst tmp)).

(** [const T& operator[](const Key& key) const] *)
Definition map_index_const (this : pointer) (key : Key) : M world pointer :=
  let* fuel := fuel_of in
  let* m := load_map this in
  let* sn := lift (load (sentinel m)) in
  let* p := lift (find_priv fuel key (left sn)) in
  if negb (is_null p) then ret p else throw index_out_of_bound.

(** [void erase(iterator pos)] *)
Definition map_erase (this : pointer) (pos : iterator) : M world unit :=
  let* fuel := fuel_of in
  let* e := map_end this in
  if iterator_eqb pos e || negb (ptr_eqb (map_ptr pos) this)
  then throw invalid_iterator else
  let* m := load_map this in
  lift (remove_priv fuel (sentinel m) (len m) (ptr pos));;
  let* m := load_map this in
  store_map this (set_len (Nat.pred (len m))).

(** [size_t count(const Key& key) const] *)
Definition map_count (this : pointer) (key : Key) : M world nat :=
  let* fuel := fuel_of in
  let* m := load_map this in
  let* sn := lift (load (sentinel m)) in
  let* node := lift (find_priv fuel key (left sn)) in
  if negb (is_null node) then ret 1 else ret 0.

(** [iterator find(const Key& key)] *)
Definition map_find (this : pointer) (key : Key) : M world iterator :=
  let* fuel := fuel_of in
  let* m := load_map this in
  let* sn := lift (load (sentinel m)) in
  let* node := lift (find_priv fuel key (left sn)) in
  if negb (is_null node) then ret (mkIter this node) else map_end this.

(** [~map()] *)
Definition map_dtor (this : pointer) : M world unit :=
  let* fuel := fuel_of in
  let* m := load_map this in
  let* sn := lift (load (sentinel m)) in
  lift (clear_priv fuel (left sn));;
  lift (delete_node (sentinel m));;
  store_map this (λ m, mkMap None (len m)).

(** *** The postfix operators of the iterators *)

(** [while (ptr->parent->left != ptr) ptr = ptr->parent;] *)
Fixpoint climb_until_left (fuel : nat) (p : pointer) : M heap pointer :=
  match fuel with
  | 0 => timeout
  | S fuel =>
    let* n := load p in
    let* pn := load (parent n) in
    if negb (ptr_eqb (left pn) p) then climb_until_left fuel (parent n)
    else ret p
  end.

(** [iterator operator++(int)]: the iterator it returns and the iterator
    itself after the call. *)
Definition iterator_post_incr (it : iterator) : M world (iterator * iterator) :=
  let* fuel := fuel_of in
  let* m := load_map (map_ptr it) in
  if ptr_eqb (ptr it) (sentinel m) then throw invalid_iterator else
  let cur := ptr it in
  let* n := lift (load (ptr it)) in
  if negb (is_null (right n)) then
    let* p := lift (while_left fuel (right n)) in
    ret (mkIter (map_ptr it) cur, mkIter (map_ptr it) p)
  else
    let* p := lift (climb_until_left fuel (ptr it)) in
    let* n := lift (load p) in
    ret (mkIter (map_ptr it) cur, mkIter (map_ptr it) (parent n)).

(** [const_iterator operator++(int)], which climbs as the prefix form
    does. *)
Definition const_iterator_post_incr (it : iterator) : M world (iterator * iterator) :=
  let* fuel := fuel_of in
  let* m := load_map (map_ptr it) in
  if ptr_eqb (ptr it) (sentinel m) then throw invalid_iterator else
  let cur := ptr it in
  let* n := lift (load (ptr it)) in
  if negb (is_null (right n)) then
    let* p := lift (while_left fuel (right n)) in
    ret (mkIter (map_ptr it) cur, mkIter (map_ptr it) p)
  else
    let* p := lift (climb_from_right fuel (ptr it)) in
    ret (mkIter (map_ptr it) cur, mkIter (map_ptr it) p).

(** [iterator operator--(int)], the same in [const_iterator]. *)
Definition iterator_post_decr (it : iterator) : M world (iterator * iterator) :=
  let* fuel := fuel_of in
  let* m := load_map (map_ptr it) in
  let* begin_ptr := lift (while_left fuel (sentinel m)) in
  if ptr_eqb (ptr it) begin_ptr then throw invalid_iterator else
  let cur := ptr it in
  let* n := lift (load (ptr it)) in
  if negb (is_null (left n)) then
    let* p := lift (while_right fuel (left n)) in
    ret (mkIter (map_ptr it) cur, mkIter (map_ptr it) p)
  else
    let* p := lift (climb_from_left fuel (ptr it)) in
    let* n := lift (load p) in
    ret (mkIter (map_ptr it) cur, mkIter (map_ptr it) (parent n)).

(** ** The tree a heap represents

    The abstraction used by the proofs: a binary tree whose nodes carry
    their address, colour and stored pair.  A position in the tree is a
    zipper: the subtree in focus and the list of frames above it, innermost
    first. *)

Inductive tree :=
| E
| N (c : Color) (a : nat) (l : tree) (x : value_type) (r : tree).

Definition root (t : tree) : pointer :=
  match t with E => None | N _ a _ _ _ => Some a end.

Definition col (t : tree) : Color :=
  match t with E => BLACK | N c _ _ _ _ => c end.

(** Addresses and stored pairs in symmetric order. *)
Fixpoint addrs (t : tree) : list nat :=
  match t with E => [] | N _ a l _ r => addrs l ++ a :: addrs r end.

Fixpoint elems (t : tree) : list value_type :=
  match t with E => [] | N _ _ l x r => elems l ++ x :: elems r end.

Fixpoint cells (t : tree) : list (nat * value_type) :=
  match t with E => [] | N _ a l x r => cells l ++ (a, x) :: cells r end.

Fixpoint tsize (t : tree) : nat :=
  match t with E => 0 | N _ _ l _ r => S (tsize l + tsize r) end.

(** A frame: a node seen from one of its child slots ([fleft] tells whether
    it is the left one), with the subtree of the other slot. *)
Record frame := Frame {
  fleft : bool;
  fcol : Color;
  faddr : nat;
  fval : value_type;
  fsib : tree
}.

Definition fill (f : frame) (t : tree) : tree :=
  if fleft f
  then N (fcol f) (faddr f) t (fval f) (fsib f)
  else N (fcol f) (faddr f) (fsib f) (fval f) t.

Fixpoint plug (cx : list frame) (t : tree) : tree :=
  match cx with [] => t | f :: cx' => plug cx' (fill f t) end.

(** The direction of the node in the hole, as [direction()] computes it. *)
Definition cdir (cx : list frame) : Direction :=
  match cx with
  | [] => ROOT
  | f :: _ => if fleft f then LEFT else RIGHT
  end.

Definition cparent (s : nat) (cx : list frame) : nat :=
  match cx with [] => s | f :: _ => faddr f end.

Fixpoint caddrs (cx : list frame) : list nat :=
  match cx with [] => [] | f :: cx' => faddr f :: addrs (fsib f) ++ caddrs cx' end.

(** [rep h par t]: the nodes of [t] are in the heap [h] as [t] describes
    them, the root of [t] having parent pointer [par]. *)
Fixpoint rep (h : gmap nat RBTNode) (par : pointer) (t : tree) : Prop :=
  match t with
  | E => True
  | N c a l x r =>
      h !! a = Some (mkNode c (Some x) (root l) (root r) par)
      ∧ rep h (Some a) l ∧ rep h (Some a) r
  end.

(** [crep h s cx hole]: the frames of [cx] are in the heap, the innermost
    pointing to [hole], the outermost hanging off the left slot of the
    sentinel [s]. *)
Fixpoint crep (h : gmap nat RBTNode) (s : nat) (cx : list frame) (hole : pointer) : Prop :=
  match cx with
  | [] => h !! s = Some (mkNode RED None hole None None)
  | f :: cx' =>
      h !! faddr f =
        Some (mkNode (fcol f) (Some (fval f))
                (if fleft f then hole else root (fsib f))
                (if fleft f then root (fsib f) else hole)
                (Some (cparent s cx')))
      ∧ rep h (Some (faddr f)) (fsib f)
      ∧ crep h s cx' (Some (faddr f))
  end.

(** The heap holds the tree [plug cx t] under the sentinel [s], each node at
    an address of its own. *)
Definition Rep (h : gmap nat RBTNode) (s : nat) (cx : list frame) (t : tree) : Prop :=
  NoDup (s :: caddrs cx ++ addrs t)
  ∧ crep h s cx (root t)
  ∧ rep h (Some (cparent s cx)) t.

(** A map object at address [this] that holds the tree [t]. *)
Definition map_wf (w : world) (this : nat) (s : nat) (t : tree) : Prop :=
  objs w !! this = Some (mkMap (Some s) (tsize t)) ∧ Rep (nodes w) s [] t.

(** ** Tree-level reading of the algorithms *)

Definition paint (c : Color) (t : tree) : tree :=
  match t with E => E | N _ a l x r => N c a l x r end.

(** The shapes [rotateLeft] and [rotateRight] produce at the rotated node. *)
Definition rotL (t : tree) : tree :=
  match t with
  | N c a l x (N c' b m y r) => N c' b (N c a l x m) y r
  | _ => t
  end.

Definition rotR (t : tree) : tree :=
  match t with
  | N c a (N c' b l y m) x r => N c' b l y (N c a m x r)
  | _ => t
  end.

(** Cases 5 and 6 of [maintainAfterInsert]: the subtree that replaces the
    grandparent [g] of the node in focus [t], whose parent is [f]. *)
Definition insert_case56 (f g : frame) (t : tree) : tree :=
  if fleft g then
    let p := if fleft f then fill f t else rotL (fill f t) in
    match rotR (N (fcol g) (faddr g) p (fval g) (fsib g)) with
    | N _ a l x r => N BLACK a l x (paint RED r)
    | E => E
    end
  else
    let p := if fleft f then rotR (fill f t) else fill f t in
    match rotL (N (fcol g) (faddr g) (fsib g) (fval g) p) with
    | N _ a l x r => N BLACK a (paint RED l) x r
    | E => E
    end.

(** [maintainAfterInsert] on the zipper: the whole tree after the repair,
    [None] where the code runs into a failed assertion (a RED root above
    the node). *)
Fixpoint fixI (cx : list frame) (t : tree) {struct cx} : option tree :=
  match cx with
  | [] => Some (paint BLACK t)
  | f :: cx' =>
      match fcol f with
      | BLACK => Some (plug cx t)
      | RED =>
          match cx' with
          | [] => None
          | g :: cx'' =>
              match col (fsib g) with
              | RED =>
                  fixI cx''
                    (N RED (faddr g)
                       (if fleft g
                        then fill (Frame (fleft f) BLACK (faddr f) (fval f) (fsib f)) t
                        else paint BLACK (fsib g))
                       (fval g)
                       (if fleft g
                        then paint BLACK (fsib g)
                        else fill (Frame (fleft f) BLACK (faddr f) (fval f) (fsib f)) t))
              | BLACK => Some (plug cx'' (insert_case56 f g t))
              end
          end
      end
  end.

(** A node seen from one side: [near] is the child on the side [fl] says,
    [far] the other one. *)
Definition node (fl : bool) (c : Color) (a : nat) (x : value_type)
    (near far : tree) : tree :=
  if fl then N c a near x far else N c a far x near.

(** Cases 2 to 5 of [maintainAfterRemove] on the frame [f] above the node:
    the frames that replace [f], and whether the repair goes on at the
    parent (Case 3). [None] where an assertion of the code fails. *)
Definition fixD_black (f : frame) : option (list frame * bool) :=
  match fsib f with
  | N BLACK sa sl sx sr =>
      let close := if fleft f then sl else sr in
      let distant := if fleft f then sr else sl in
      match col close, col distant with
      | BLACK, BLACK =>
          Some ([Frame (fleft f) BLACK (faddr f) (fval f) (N RED sa sl sx sr)],
                bool_decide (fcol f = BLACK))
      | RED, _ =>
          match close with
          | N _ ca cl cv cr =>
              Some ([Frame (fleft f) BLACK (faddr f) (fval f)
                       (if fleft f then cl else cr);
                     Frame (fleft f) (fcol f) ca cv
                       (node (fleft f) BLACK sa sx (if fleft f then cr else cl)
                          distant)],
                    false)
          | E => None
          end
      | BLACK, RED =>
          Some ([Frame (fleft f) BLACK (faddr f) (fval f) close;
                 Frame (fleft f) (fcol f) sa sx (paint BLACK distant)],
                false)
      end
  | _ => None
  end.

(** [maintainAfterRemove] on the zipper: the context of the node in focus
    (of colour [c]) after the repair. *)
Fixpoint fixD (c : Color) (cx : list frame) : option (list frame) :=
  match cx with
  | [] => Some []
  | f :: cx' =>
      match c, fsib f with
      | RED, _ => None
      | _, E => None
      | _, N RED sa sl sx sr =>
          (* Case 1, with its assertions *)
          match fcol f, col sl, col sr, sl, sr with
          | BLACK, BLACK, BLACK, N _ _ _ _ _, N _ _ _ _ _ =>
              match fixD_black
                      (Frame (fleft f) RED (faddr f) (fval f)
                         (if fleft f then sl else sr)) with
              | Some (fs, false) =>
                  Some (fs ++ Frame (fleft f) BLACK sa sx
                                (if fleft f then sr else sl) :: cx')
              | _ => None
              end
          | _, _, _, _, _ => None
          end
      | _, N BLACK _ _ _ _ =>
          match fixD_black f with
          | Some (fs, false) => Some (fs ++ cx')
          | Some (fs, true) =>
              match fixD BLACK cx' with
              | Some cx'' => Some (fs ++ cx'')
              | None => None
              end
          | None => None
          end
      end
  end.

(** The walk of [remove] to the leftmost node of a subtree. *)
Fixpoint lspine (cx : list frame) (t : tree) : list frame * tree :=
  match t with
  | E => (cx, E)
  | N c a l x r =>
      match l with
      | E => (cx, t)
      | _ => lspine (Frame true c a x r :: cx) l
      end
  end.

(** The descent of [insert] and [find]: the position where the search for
    [k] stops, an empty slot or the node with an equivalent key. *)
Fixpoint locate (k : Key) (cx : list frame) (t : tree) : list frame * tree :=
  match t with
  | E => (cx, E)
  | N c a l x r =>
      if equal_key k (fst x) then (cx, t)
      else if Compare k (fst x)
      then locate k (Frame true c a x r :: cx) l
      else locate k (Frame false c a x l :: cx) r
  end.

(** The child slot of the context that holds the subtree in focus. *)
Definition cslot (s : nat) (cx : list frame) : slot :=
  match cx with
  | [] => SlotLeft (Some s)
  | f :: _ => if fleft f then SlotLeft (Some (faddr f)) else SlotRight (Some (faddr f))
  end.

(** *** Iteration order *)

(** The positions an iterator of the map can take, in the order of
    iteration: the nodes in symmetric order, then the sentinel ([end()]). *)
Definition order (s : nat) (t : tree) : list nat := addrs t ++ [s].

(** The leftmost (rightmost) node of [t], or [d] when [t] is empty. *)
Fixpoint leftmost_or (d : nat) (t : tree) : nat :=
  match t with E => d | N _ a l _ _ => leftmost_or a l end.

Fixpoint rightmost_or (d : nat) (t : tree) : nat :=
  match t with E => d | N _ a _ _ r => rightmost_or a r end.

(** The first ancestor reached by a left-child step (right-child step), the
    sentinel if there is none. *)
Fixpoint left_ancestor (s : nat) (cx : list frame) : nat :=
  match cx with
  | [] => s
  | f :: cx' => if fleft f then faddr f else left_ancestor s cx'
  end.

Fixpoint right_ancestor (s : nat) (cx : list frame) : nat :=
  match cx with
  | [] => s
  | f :: cx' => if fleft f then right_ancestor s cx' else faddr f
  end.

(** The successor rule of section 4.4 for the node in focus whose right
    subtree is [r]. *)
Definition successor (s : nat) (cx : list frame) (r : tree) : nat :=
  leftmost_or (left_ancestor s cx) r.

Definition predecessor (s : nat) (cx : list frame) (l : tree) : nat :=
  rightmost_or (right_ancestor s cx) l.

(** ** The invariants of section 3 of the specification *)

(** 1. The key sequence in symmetric order is strictly increasing. *)
Definition key_lt (x y : value_type) : Prop := Compare (fst x) (fst y) = true.
Definition ordered (t : tree) : Prop := StronglySorted key_lt (elems t).
Definition cell_lt (p q : nat * value_type) : Prop := key_lt (snd p) (snd q).

(** A key equivalent to [k] is stored in the tree. *)
Definition present (k : Key) (t : tree) : Prop :=
  ∃ x, x ∈ elems t ∧ equal_key k (fst x) = true.

(** 3. A RED node has no RED child. *)
Fixpoint no_red_red (t : tree) : Prop :=
  match t with
  | E => True
  | N c _ l _ r =>
      (c = RED → col l = BLACK ∧ col r = BLACK) ∧ no_red_red l ∧ no_red_red r
  end.

(** 4. Every path to a missing child passes the same number of BLACK
    nodes: [bheight] counts them along the left spine, [balanced] says both
    subtrees of every node agree. *)
Fixpoint bheight (t : tree) : nat :=
  match t with
  | E => 0
  | N c _ l _ _ => (match c with BLACK => 1 | RED => 0 end) + bheight l
  end.

Fixpoint balanced (t : tree) : Prop :=
  match t with
  | E => True
  | N _ _ l _ r => bheight l = bheight r ∧ balanced l ∧ balanced r
  end.

(** Invariants 1 to 4 on the tree under the sentinel. *)
Definition rb_tree (t : tree) : Prop :=
  ordered t ∧ col t = BLACK ∧ no_red_red t ∧ balanced t.

(** 5. Parent and child links agree, read off the heap: every child slot of
    a node reachable from the sentinel points to a live node whose parent
    pointer points back. *)
Definition links_consistent (h : gmap nat RBTNode) (a : nat) : Prop :=
  ∀ n c, h !! a = Some n → (left n = Some c ∨ right n = Some c) →
         ∃ nc, h !! c = Some nc ∧ parent nc = Some a.

(** The colour of the parent of the hole; the sentinel is RED. *)
Definition pcol (cx : list frame) : Color :=
  match cx with [] => RED | f :: _ => fcol f end.

(** Invariants 3 and 4 for a context whose hole takes a subtree of black
    height [n]. *)
Fixpoint ctx_rb (cx : list frame) (n : nat) : Prop :=
  match cx with
  | [] => True
  | f :: cx' =>
      no_red_red (fsib f) ∧ balanced (fsib f) ∧ bheight (fsib f) = n
      ∧ (fcol f = RED → col (fsib f) = BLACK ∧ pcol cx' = BLACK)
      ∧ ctx_rb cx' ((match fcol f with BLACK => 1 | RED => 0 end) + n)
  end.

(** Addresses with their stored pairs before and after the hole, in
    symmetric order. *)
Fixpoint cbefore (cx : list frame) : list (nat * value_type) :=
  match cx with
  | [] => []
  | f :: cx' =>
      cbefore cx' ++ (if fleft f then [] else cells (fsib f) ++ [(faddr f, fval f)])
  end.

Fixpoint cafter (cx : list frame) : list (nat * value_type) :=
  match cx with
  | [] => []
  | f :: cx' =>
      (if fleft f then (faddr f, fval f) :: cells (fsib f) else []) ++ cafter cx'
  end.

(** Everything before the hole is below [k], everything after it above. *)
Definition bounds (k : Key) (cx : list frame) : Prop :=
  Forall (λ p, Compare (fst (snd p)) k = true) (cbefore cx)
  ∧ Forall (λ p, Compare k (fst (snd p)) = true) (cafter cx).

(** The comparator is a strict weak ordering. *)
Record StrictWeakOrder : Prop := {
  swo_irrefl : ∀ x, Compare x x = false;
  swo_trans : ∀ x y z, Compare x y = true → Compare y z = true → Compare x z = true;
  swo_equiv_trans : ∀ x y z, equal_key x y = true → equal_key y z = true → equal_key x z = true
}.

(** Invariants 2 to 4 of the tree [plug cx t], split between the subtree in
    focus and the context around it. *)
Definition zip_rb (cx : list frame) (t : tree) : Prop :=
  no_red_red t ∧ balanced t ∧ ctx_rb cx (bheight t)
  ∧ (pcol cx = RED → col t = BLACK).

(** ** States reachable through the public interface *)

(** An iterator of the map at [this] that points to one of its elements. *)
Definition valid_pos (w : world) (this : nat) (pos : iterator) : Prop :=
  ∃ s t a, map_wf w this s t ∧ pos = mkIter (Some this) (Some a) ∧ a ∈ addrs t.

(** The worlds in which the map at [this] has been constructed empty and
    then taken through [insert] and [erase] calls, the latter at iterators
    that point to an element. *)
Inductive reachable (this : nat) : world → Prop :=
  | reach_ctor w0 w :
      map_ctor this w0 = Val tt w → reachable this w
  | reach_insert w value res w' :
      reachable this w →
      map_insert (Some this) value w = Val res w' →
      reachable this w'
  | reach_erase w pos w' :
      reachable this w →
      valid_pos w this pos →
      map_erase (Some this) pos w = Val tt w' →
      reachable this w'.

(** ** Copies and the set of live nodes *)

(** [t'] has the shape, the colours and the stored pairs of [t], at
    addresses of its own. *)
Fixpoint clone_of (t t' : tree) : Prop :=
  match t, t' with
  | E, E => True
  | N c _ l x r, N c' _ l' x' r' =>
      c = c' ∧ x = x' ∧ clone_of l l' ∧ clone_of r r'
  | _, _ => False
  end.

(** A computation on the heap that neither allocates nor frees a node when
    it returns. *)
Definition dom_stable {A} (m : M heap A) : Prop :=
  ∀ h v h', m h = Val v h' → dom h' = dom h.

End map.

(** ** A concrete map

    Keys and values are natural numbers, compared by [<].  The world holds
    the map built by [insert] of (5,50), (3,30) and (8,80) at address 0, and
    an empty map at address 1. *)

Definition ex_tree : @tree nat nat :=
  N BLACK 2 (N RED 3 E (3, 30) E) (5, 50) (N RED 4 E (8, 80) E).

Definition ex_nodes : gmap nat (@RBTNode nat nat) :=
  <[0 := mkNode RED None (Some 2) None None]>
  (<[1 := mkNode RED None None None None]>
  (<[2 := mkNode BLACK (Some (5, 50)) (Some 3) (Some 4) (Some 0)]>
  (<[3 := mkNode RED (Some (3, 30)) None None (Some 2)]>
  (<[4 := mkNode RED (Some (8, 80)) None None (Some 2)]> ∅)))).

Definition ex_world : @world nat nat :=
  mkWorld ex_nodes (<[0 := mkMap (Some 0) 3]> (<[1 := mkMap (Some 1) 0]> ∅)).

(** The world reached from the empty store by [map()] at address 0, the
    [insert] of (5,50), (3,30) and (8,80), and [erase] at the iterator to
    (5,50), which was the root. *)
Definition ex_erased : @world nat nat :=
  mkWorld
    (<[0 := mkNode RED None (Some 3) None None]>
     (<[2 := mkNode RED (Some (3, 30)) None None (Some 3)]>
     (<[3 := mkNode BLACK (Some (8, 80)) (Some 2) None (Some 0)]> ∅)))
    (<[0 := mkMap (Some 0) 2]> ∅).

(** ** Normal form of address lists, for reasoning about distinctness *)

Inductive lexp :=
| LNil
| LAtom (x : nat)
| LSym (l : list nat)
| LApp (e1 e2 : lexp).

Fixpoint ldenote (e : lexp) : list nat :=
  match e with
  | LNil => []
  | LAtom x => [x]
  | LSym l => l
  | LApp e1 e2 => ldenote e1 ++ ldenote e2
  end.

Fixpoint lnames (e : lexp) : list nat :=
  match e with
  | LAtom x => [x]
  | LApp e1 e2 => lnames e1 ++ lnames e2
  | _ => []
  end.

Fixpoint lsyms (e : lexp) : list (list nat) :=
  match e with
  | LSym l => [l]
  | LApp e1 e2 => lsyms e1 ++ lsyms e2
  | _ => []
  end.

Definition lflat (e : lexp) : list nat := lnames e ++ concat (lsyms e).

Definition ldisj (l k : list nat) : Prop := ∀ x, x ∈ l → x ∉ k.


(** * Proofs *)

(** ** Distinct addresses *)

Lemma lflat_perm e : ldenote e ≡ₚ lflat e.
Proof.
  unfold lflat. induction e as [| | |e1 IH1 e2 IH2]; simpl.
  - done.
  - done.
  - by rewrite app_nil_r.
  - rewrite IH1, IH2, concat_app.
    rewrite <- !app_assoc. f_equiv. rewrite !app_assoc. f_equiv.
    apply Permutation_app_comm.
Qed.

Lemma lflat_NoDup e : NoDup (ldenote e) ↔ NoDup (lflat e).
Proof. by rewrite lflat_perm. Qed.

Lemma not_elem_of_cons_1 {A} (x y : A) l : x ∉ (y :: l) → x ≠ y ∧ x ∉ l.
Proof. by rewrite not_elem_of_cons. Qed.
Lemma not_elem_of_app_1 {A} (x : A) l1 l2 : x ∉ (l1 ++ l2) → (x ∉ l1) ∧ (x ∉ l2).
Proof. by rewrite not_elem_of_app. Qed.
Lemma NoDup_cons_inv {A} (x : A) l : NoDup (x :: l) → (x ∉ l) ∧ NoDup l.
Proof. by rewrite NoDup_cons. Qed.

Lemma NoDup_app_inv (l k : list nat) : NoDup (l ++ k) → NoDup l ∧ ldisj l k ∧ NoDup k.
Proof. by rewrite NoDup_app. Qed.
Lemma NoDup_app_intro (l k : list nat) : NoDup l → ldisj l k → NoDup k → NoDup (l ++ k).
Proof. by rewrite NoDup_app. Qed.
Lemma ldisj_app_inv (l k1 k2 : list nat) : ldisj l (k1 ++ k2) → ldisj l k1 ∧ ldisj l k2.
Proof.
  intros H; split; intros x Hx; specialize (H x Hx);
    apply not_elem_of_app in H; tauto.
Qed.
Lemma ldisj_app_intro (l k1 k2 : list nat) : ldisj l k1 → ldisj l k2 → ldisj l (k1 ++ k2).
Proof.
  intros H1 H2 x Hx. apply not_elem_of_app. split; [by apply H1 | by apply H2].
Qed.
Lemma ldisj_nil_r (l : list nat) : ldisj l [].
Proof. intros x _. apply not_elem_of_nil. Qed.
Lemma ldisj_sym (l k : list nat) : ldisj l k → ldisj k l.
Proof. intros H x Hx Hx'. by apply (H x). Qed.

Ltac lreify l :=
  lazymatch l with
  | ?a ++ ?b => let ea := lreify a in let eb := lreify b in constr:(LApp ea eb)
  | ?x :: ?b => let eb := lreify b in constr:(LApp (LAtom x) eb)
  | @nil _ => constr:(LNil)
  | ?s => constr:(LSym s)
  end.

Lemma not_elem_of_cons_2 {A} (x y : A) l : x ≠ y → x ∉ l → x ∉ (y :: l).
Proof. rewrite not_elem_of_cons. done. Qed.
Lemma not_elem_of_app_2 {A} (x : A) l1 l2 : x ∉ l1 → x ∉ l2 → x ∉ (l1 ++ l2).
Proof. rewrite not_elem_of_app. done. Qed.

Ltac nd_split_notin H :=
  lazymatch type of H with
  | _ ∉ _ :: _ =>
      let H1 := fresh "Hne" in
      apply not_elem_of_cons_1 in H as [H1 H]; nd_split_notin H
  | _ ∉ _ ++ _ =>
      let H1 := fresh "Hni" in
      apply not_elem_of_app_1 in H as [H1 H]; nd_split_notin H
  | _ ∉ [] => clear H
  | _ => idtac
  end.

Ltac nd_split_disj H :=
  lazymatch type of H with
  | ldisj _ (_ ++ _) =>
      let H1 := fresh "Hdj" in
      apply ldisj_app_inv in H as [H1 H]; nd_split_disj H
  | ldisj _ [] => clear H
  | _ => idtac
  end.

Ltac nd_split H :=
  lazymatch type of H with
  | NoDup (_ :: _) =>
      let H1 := fresh "Hni" in
      apply NoDup_cons_inv in H as [H1 H]; nd_split_notin H1; nd_split H
  | NoDup (_ ++ _) =>
      let H1 := fresh "Hnd" in
      let H2 := fresh "Hdj" in
      apply NoDup_app_inv in H as (H1 & H2 & H); nd_split_disj H2; nd_split H
  | NoDup [] => clear H
  | _ => idtac
  end.

(** Split [H : NoDup l] into the facts [x ≠ y] and [x ∉ l'] for the named
    addresses [x], [y] and the unknown sublists [l'] of [l]. *)
Ltac nd_norm H :=
  simpl in H;
  lazymatch type of H with
  | NoDup ?l =>
      let e := lreify l in
      apply (proj1 (lflat_NoDup e)) in H;
      cbn [lflat lnames lsyms concat app] in H;
      nd_split H
  end.

Ltac nd_atom :=
  solve [ assumption | apply not_eq_sym; assumption | apply not_elem_of_nil ].

Ltac nd_disj :=
  solve [ assumption | apply ldisj_sym; assumption ].

Ltac nd_notin :=
  repeat first
    [ apply not_elem_of_nil
    | apply not_elem_of_cons_2; [nd_atom|]
    | apply not_elem_of_app_2; [nd_atom|]
    | nd_atom ].

(** Prove [NoDup l] from such facts. *)
Ltac nd_goal :=
  simpl;
  lazymatch goal with
  | |- NoDup ?l =>
      let e := lreify l in
      apply (proj2 (lflat_NoDup e));
      cbn [lflat lnames lsyms concat app];
      repeat (apply NoDup_cons_2; [ nd_notin | ]);
      repeat (apply NoDup_app_intro;
              [ assumption
              | repeat (apply ldisj_app_intro; [nd_disj|]); apply ldisj_nil_r
              | ]);
      try apply NoDup_nil_2
  end.

Ltac neq := solve [assumption | apply not_eq_sym; assumption].

(** Evaluation of heap reads and writes in a goal. *)
Ltac hsimpl :=
  repeat first
    [ progress simpl
    | match goal with
      | H : ?h !! ?a = Some _ |- context [?h !! ?a] => rewrite H
      | |- context [<[?a := _]> _ !! ?a] => rewrite lookup_insert_eq
      | |- context [<[?a := _]> _ !! ?b] => rewrite (lookup_insert_ne _ a b) by neq
      | |- context [delete ?a _ !! ?b] => rewrite (lookup_delete_ne _ a b) by neq
      end ].

Section heap_lemmas.
Context {Key T : Type}.
Abbreviation heap := (gmap nat (@RBTNode Key T)).
Abbreviation tree := (@tree Key T).
Abbreviation frame := (@frame Key T).
Implicit Types (h : heap) (t l r m : tree) (cx : list frame) (f : frame).

(** ** The monad *)

Lemma bind_val {St A B} (m : M St A) (k : A → M St B) s a s' :
  m s = Val a s' → bind m k s = k a s'.
Proof. unfold bind. by intros ->. Qed.

Lemma bind_ret {St A B} (a : A) (k : A → M St B) s : bind (ret a) k s = k a s.
Proof. done. Qed.

Lemma bind_bind {St A B C} (m : M St A) (k1 : A → M St B) (k2 : B → M St C) s :
  bind (bind m k1) k2 s = bind m (λ x, bind (k1 x) k2) s.
Proof. unfold bind. by destruct (m s). Qed.

Lemma bind_load {B} h a n (k : _ → M heap B) :
  h !! a = Some n → bind (load (Some a)) k h = k n h.
Proof. intros H. unfold bind, load. by rewrite H. Qed.

Lemma bind_store {B} h a n g (k : _ → M heap B) :
  h !! a = Some n → bind (store (Some a) g) k h = k tt (<[a := g n]> h).
Proof. intros H. unfold bind, store. by rewrite H. Qed.

Lemma store_val h a n g :
  h !! a = Some n → store (Some a) g h = Val tt (<[a := g n]> h).
Proof. intros H. unfold store. by rewrite H. Qed.

Lemma is_null_Some a : is_null (Some a) = false.
Proof. done. Qed.
Lemma is_null_None : is_null None = true.
Proof. done. Qed.
Lemma ptr_eqb_refl p : ptr_eqb p p = true.
Proof. unfold ptr_eqb. by rewrite bool_decide_eq_true_2. Qed.
Lemma ptr_eqb_ne p q : p ≠ q → ptr_eqb p q = false.
Proof. unfold ptr_eqb. intros. by rewrite bool_decide_eq_false_2. Qed.
Lemma ptr_eqb_Some_ne a b : a ≠ b → ptr_eqb (Some a) (Some b) = false.
Proof. intros. apply ptr_eqb_ne. congruence. Qed.

(** ** Frame lemmas *)

Lemma root_addrs t a : root t = Some a → a ∈ addrs t.
Proof. destruct t; simpl; [done|]. intros [= ->]. set_solver. Qed.

Lemma root_not_addrs t a : a ∉ addrs t → root t ≠ Some a.
Proof. intros H1 H2. by apply root_addrs in H2. Qed.

Lemma rep_frame h h' par t :
  (∀ a, a ∈ addrs t → h' !! a = h !! a) → rep h par t → rep h' par t.
Proof.
  revert par. induction t as [|c a l IHl x r IHr]; simpl; [done|].
  intros par Hf (Ha & Hl & Hr). split_and!.
  - rewrite Hf; [done|]. set_solver.
  - apply IHl; [|done]. intros; apply Hf. set_solver.
  - apply IHr; [|done]. intros; apply Hf. set_solver.
Qed.

Lemma rep_insert h par t a n :
  a ∉ addrs t → rep h par t → rep (<[a := n]> h) par t.
Proof.
  intros Ha. apply rep_frame. intros b Hb. apply lookup_insert_ne. set_solver.
Qed.

Lemma rep_delete h par t a :
  a ∉ addrs t → rep h par t → rep (delete a h) par t.
Proof.
  intros Ha. apply rep_frame. intros b Hb. apply lookup_delete_ne. set_solver.
Qed.

Lemma crep_frame h h' s cx hole :
  (∀ a, a ∈ s :: caddrs cx → h' !! a = h !! a) → crep h s cx hole → crep h' s cx hole.
Proof.
  revert hole. induction cx as [|f cx IH]; simpl; intros hole Hf.
  - intros <-. apply Hf. set_solver.
  - intros (Ha & Hs & Hc). split_and!.
    + rewrite Hf; [done|]. set_solver.
    + eapply rep_frame; [|done]. intros; apply Hf. set_solver.
    + apply IH; [|done]. intros; apply Hf. set_solver.
Qed.

Lemma crep_insert h s cx hole a n :
  a ∉ s :: caddrs cx → crep h s cx hole → crep (<[a := n]> h) s cx hole.
Proof.
  intros Ha. apply crep_frame. intros b Hb. apply lookup_insert_ne. set_solver.
Qed.

Lemma crep_delete h s cx hole a :
  a ∉ s :: caddrs cx → crep h s cx hole → crep (delete a h) s cx hole.
Proof.
  intros Ha. apply crep_frame. intros b Hb. apply lookup_delete_ne. set_solver.
Qed.

End heap_lemmas.

Ltac rep_frame_tac :=
  repeat first
    [ assumption
    | apply rep_insert; [nd_atom|]
    | apply rep_delete; [nd_atom|]
    | apply crep_insert; [ nd_notin |]
    | apply crep_delete; [ nd_notin |] ].

Section focus.
Context {Key T : Type}.
Implicit Types (h : gmap nat (@RBTNode Key T)) (t l r m : @tree Key T)
  (cx : list (@frame Key T)) (f : @frame Key T).

(** ** Moving the focus *)

Lemma Rep_up h s f cx t : Rep h s (f :: cx) t → Rep h s cx (fill f t).
Proof.
  intros (Hnd & (Hf & Hs & Hc) & Ht). unfold Rep, fill.
  destruct f as [[] c a x sib]; simpl in *.
  - split_and!; try done. nd_norm Hnd. nd_goal.
  - split_and!; try done. nd_norm Hnd. nd_goal.
Qed.

Lemma Rep_down h s f cx t : Rep h s cx (fill f t) → Rep h s (f :: cx) t.
Proof.
  unfold Rep, fill. destruct f as [[] c a x sib]; simpl.
  - intros (Hnd & Hc & Ha & Hl & Hr). split_and!; try done. nd_norm Hnd. nd_goal.
  - intros (Hnd & Hc & Ha & Hl & Hr). split_and!; try done. nd_norm Hnd. nd_goal.
Qed.

Lemma Rep_plug h s cx t : Rep h s cx t ↔ Rep h s [] (plug cx t).
Proof.
  revert t. induction cx as [|f cx IH]; intros t; simpl; [done|].
  rewrite <- IH. split; [apply Rep_up | apply Rep_down].
Qed.

(** Focus on the left or right child of the node in focus. *)
Lemma Rep_left h s cx c a l x r :
  Rep h s cx (N c a l x r) → Rep h s (Frame true c a x r :: cx) l.
Proof. intros. by apply Rep_down. Qed.

Lemma Rep_right h s cx c a l x r :
  Rep h s cx (N c a l x r) → Rep h s (Frame false c a x l :: cx) r.
Proof. intros. by apply Rep_down. Qed.

(** ** Reading *)

Lemma Rep_lookup h s cx c a l x r :
  Rep h s cx (N c a l x r) →
  h !! a = Some (mkNode c (Some x) (root l) (root r) (Some (cparent s cx))).
Proof. by intros (_ & _ & Ha & _). Qed.

Lemma Rep_lookup_sentinel h s cx t :
  Rep h s cx t → h !! s = Some (mkNode RED None (root (plug cx t)) None None).
Proof. rewrite Rep_plug. by intros (_ & Ha & _). Qed.

Lemma load_focus h s cx c a l x r :
  Rep h s cx (N c a l x r) →
  load (Some a) h = Val (mkNode c (Some x) (root l) (root r) (Some (cparent s cx))) h.
Proof. intros HR. unfold load. by rewrite (Rep_lookup _ _ _ _ _ _ _ _ HR). Qed.

Lemma isRoot_spec h s cx c a l x r :
  Rep h s cx (N c a l x r) →
  isRoot (Some a) h = Val (bool_decide (cx = [])) h.
Proof.
  intros (Hnd & Hc & Ha & _). unfold isRoot.
  rewrite (bind_load _ _ _ _ Ha). simpl.
  destruct cx as [|f cx]; simpl in *.
  - by rewrite (bind_load _ _ _ _ Hc).
  - destruct Hc as (Hf & _). by rewrite (bind_load _ _ _ _ Hf).
Qed.

Lemma direction_spec h s cx c a l x r :
  Rep h s cx (N c a l x r) →
  direction (Some a) h = Val (cdir cx) h.
Proof.
  intros HR. unfold direction.
  rewrite (bind_val _ _ _ _ _ (isRoot_spec _ _ _ _ _ _ _ _ HR)).
  destruct HR as (Hnd & Hc & Ha & _).
  destruct cx as [|f cx]; simpl in *; [done|].
  rewrite (bind_load _ _ _ _ Ha). simpl.
  destruct Hc as (Hf & _). rewrite (bind_load _ _ _ _ Hf). simpl.
  destruct (fleft f); simpl.
  - by rewrite ptr_eqb_refl.
  - rewrite ptr_eqb_ne; [done|].
    intros Heq. symmetry in Heq. apply root_addrs in Heq.
    nd_norm Hnd. done.
Qed.

Lemma isRed_spec h s cx c a l x r :
  Rep h s cx (N c a l x r) → isRed (Some a) h = Val (Color_eqb c RED) h.
Proof. intros HR. unfold isRed. by rewrite (bind_val _ _ _ _ _ (load_focus _ _ _ _ _ _ _ _ HR)). Qed.

Lemma isBlack_spec h s cx c a l x r :
  Rep h s cx (N c a l x r) → isBlack (Some a) h = Val (Color_eqb c BLACK) h.
Proof. intros HR. unfold isBlack. by rewrite (bind_val _ _ _ _ _ (load_focus _ _ _ _ _ _ _ _ HR)). Qed.

(** ** Recolouring the node in focus *)

Lemma store_color_spec h s cx c a l x r c' :
  Rep h s cx (N c a l x r) →
  ∃ h', store (Some a) (set_color c') h = Val tt h'
        ∧ Rep h' s cx (N c' a l x r).
Proof.
  intros (Hnd & Hc & Ha & Hl & Hr).
  rewrite (store_val _ _ _ _ Ha). eexists; split; [done|].
  nd_norm Hnd.
  split; [nd_goal|]. simpl; split_and?; hsimpl; try done; rep_frame_tac.
Qed.

End focus.


Section rotations.
Context {Key T : Type}.
Implicit Types (h : gmap nat (@RBTNode Key T)) (t l r m : @tree Key T)
  (cx : list (@frame Key T)) (f : @frame Key T).

(** ** Rotations *)

Lemma rotateLeft_spec h s cx c a l x c' b m y r :
  Rep h s cx (N c a l x (N c' b m y r)) →
  ∃ h', rotateLeft (Some s) (Some a) h = Val tt h'
        ∧ Rep h' s cx (N c' b (N c a l x m) y r).
Proof.
  intros HR. unfold rotateLeft.
  pose proof HR as (Hnd & Hc & Ha & Hl & Hb & Hm & Hr).
  rewrite is_null_Some. simpl. rewrite bind_ret.
  rewrite (bind_load _ _ _ _ Ha). simpl. rewrite bind_ret.
  rewrite (bind_val _ _ _ _ _ (direction_spec _ _ _ _ _ _ _ _ HR)).
  unfold maintainRelationship, bind, load, store, when, ret; simpl.
  clear HR.
  destruct l as [|cl al ll xl rl], m as [|cm am lm xm rm], r as [|cr ar lr xr rr],
    cx as [|[[] cf af xf sf] cx]; simpl in *.
  all: destruct_and?.
  all: nd_norm Hnd.
  all: hsimpl.
  all: eexists; split; [reflexivity|].
  all: split; [nd_goal|]; simpl.
  all: split_and?; hsimpl; try done.
  all: rep_frame_tac.
Qed.

Lemma rotateRight_spec h s cx c a l x c' b m y r :
  Rep h s cx (N c a (N c' b l y m) x r) →
  ∃ h', rotateRight (Some s) (Some a) h = Val tt h'
        ∧ Rep h' s cx (N c' b l y (N c a m x r)).
Proof.
  intros HR. unfold rotateRight.
  pose proof HR as (Hnd & Hc & Ha & (Hb & Hl & Hm) & Hr).
  rewrite is_null_Some. simpl. rewrite bind_ret.
  rewrite (bind_load _ _ _ _ Ha). simpl. rewrite bind_ret.
  rewrite (bind_val _ _ _ _ _ (direction_spec _ _ _ _ _ _ _ _ HR)).
  unfold maintainRelationship, bind, load, store, when, ret; simpl.
  clear HR.
  destruct l as [|cl al ll xl rl], m as [|cm am lm xm rm], r as [|cr ar lr xr rr],
    cx as [|[[] cf af xf sf] cx]; simpl in *.
  all: destruct_and?.
  all: nd_norm Hnd.
  all: hsimpl.
  all: eexists; split; [reflexivity|].
  all: split; [nd_goal|]; simpl.
  all: split_and?; hsimpl; try done.
  all: rep_frame_tac.
Qed.

End rotations.


Section insert_fixup.
Context {Key T : Type}.
Implicit Types (h : gmap nat (@RBTNode Key T)) (t l r m : @tree Key T)
  (cx : list (@frame Key T)) (f g : @frame Key T).

Lemma fill_eq f t :
  fill f t = N (fcol f) (faddr f) (if fleft f then t else fsib f) (fval f)
               (if fleft f then fsib f else t).
Proof. unfold fill. by destruct (fleft f). Qed.

(** The sibling subtree, seen from the same parent. *)
Lemma Rep_sibling h s f cx t :
  Rep h s (f :: cx) t →
  Rep h s (Frame (negb (fleft f)) (fcol f) (faddr f) (fval f) t :: cx) (fsib f).
Proof.
  intros HR%Rep_up. apply Rep_down.
  destruct f as [[] c a x sib]; exact HR.
Qed.

Lemma Rep_parent h s f cx t :
  Rep h s (f :: cx) t →
  Rep h s cx (N (fcol f) (faddr f) (if fleft f then t else fsib f) (fval f)
                (if fleft f then fsib f else t)).
Proof. intros HR%Rep_up. by rewrite fill_eq in HR. Qed.

Lemma Rep_child h s (fl : bool) c a x (sib : @tree Key T) cx t :
  Rep h s cx (N c a (if fl then t else sib) x (if fl then sib else t)) →
  Rep h s (Frame fl c a x sib :: cx) t.
Proof. intros HR. apply Rep_down. by rewrite fill_eq. Qed.

Lemma isRoot_cons h s f cx c a l x r :
  Rep h s (f :: cx) (N c a l x r) → isRoot (Some a) h = Val false h.
Proof. intros HR. by rewrite (isRoot_spec _ _ _ _ _ _ _ _ HR). Qed.

Lemma isRoot_nil h s c a l x r :
  Rep h s [] (N c a l x r) → isRoot (Some a) h = Val true h.
Proof. intros HR. by rewrite (isRoot_spec _ _ _ _ _ _ _ _ HR). Qed.

Lemma sibling_spec h s f cx c a l x r :
  Rep h s (f :: cx) (N c a l x r) →
  sibling (Some a) h = Val (root (fsib f)) h.
Proof.
  intros HR. unfold sibling.
  rewrite (bind_val _ _ _ _ _ (isRoot_cons _ _ _ _ _ _ _ _ _ HR)). simpl.
  rewrite bind_ret.
  rewrite (bind_val _ _ _ _ _ (direction_spec _ _ _ _ _ _ _ _ HR)).
  rewrite (bind_val _ _ _ _ _ (load_focus _ _ _ _ _ _ _ _ HR)). simpl.
  rewrite (bind_val _ _ _ _ _ (load_focus _ _ _ _ _ _ _ _ (Rep_parent _ _ _ _ _ HR))).
  simpl. by destruct (fleft f).
Qed.

Lemma hasSibling_spec h s cx c a l x r :
  Rep h s cx (N c a l x r) →
  hasSibling (Some a) h =
    Val (match cx with [] => false | f :: _ => negb (is_null (root (fsib f))) end) h.
Proof.
  intros HR. unfold hasSibling. destruct cx as [|f cx].
  - by rewrite (bind_val _ _ _ _ _ (isRoot_nil _ _ _ _ _ _ _ HR)).
  - rewrite (bind_val _ _ _ _ _ (isRoot_cons _ _ _ _ _ _ _ _ _ HR)). simpl.
    by rewrite (bind_val _ _ _ _ _ (sibling_spec _ _ _ _ _ _ _ _ _ HR)).
Qed.

Lemma uncle_spec h s f g cx c a l x r :
  Rep h s (f :: g :: cx) (N c a l x r) →
  uncle (Some a) h = Val (root (fsib g)) h.
Proof.
  intros HR. unfold uncle.
  rewrite (bind_val _ _ _ _ _ (isRoot_cons _ _ _ _ _ _ _ _ _ HR)). simpl.
  rewrite bind_ret.
  rewrite (bind_val _ _ _ _ _ (load_focus _ _ _ _ _ _ _ _ HR)). simpl.
  exact (sibling_spec _ _ _ _ _ _ _ _ _ (Rep_parent _ _ _ _ _ HR)).
Qed.

Lemma hasUncle_spec h s cx c a l x r :
  Rep h s cx (N c a l x r) →
  hasUncle (Some a) h =
    Val (match cx with
         | _ :: g :: _ => negb (is_null (root (fsib g)))
         | _ => false
         end) h.
Proof.
  intros HR. unfold hasUncle. destruct cx as [|f cx].
  - by rewrite (bind_val _ _ _ _ _ (isRoot_nil _ _ _ _ _ _ _ HR)).
  - rewrite (bind_val _ _ _ _ _ (isRoot_cons _ _ _ _ _ _ _ _ _ HR)). simpl.
    rewrite (bind_val _ _ _ _ _ (load_focus _ _ _ _ _ _ _ _ HR)). simpl.
    rewrite (hasSibling_spec _ _ _ _ _ _ _ _ (Rep_parent _ _ _ _ _ HR)).
    by destruct cx.
Qed.

Lemma grandParent_spec h s f g cx c a l x r :
  Rep h s (f :: g :: cx) (N c a l x r) →
  grandParent (Some a) h = Val (Some (faddr g)) h.
Proof.
  intros HR. unfold grandParent.
  rewrite (bind_val _ _ _ _ _ (load_focus _ _ _ _ _ _ _ _ HR)). simpl.
  pose proof (Rep_parent _ _ _ _ _ HR) as HRp.
  rewrite (bind_val _ _ _ _ _ (isRoot_cons _ _ _ _ _ _ _ _ _ HRp)). simpl.
  rewrite bind_ret.
  by rewrite (bind_val _ _ _ _ _ (load_focus _ _ _ _ _ _ _ _ HRp)).
Qed.

Local Arguments bind : simpl never.
Local Arguments load : simpl never.
Local Arguments store : simpl never.
Local Arguments isRoot : simpl never.
Local Arguments direction : simpl never.
Local Arguments sibling : simpl never.
Local Arguments uncle : simpl never.
Local Arguments grandParent : simpl never.
Local Arguments hasUncle : simpl never.
Local Arguments isRed : simpl never.
Local Arguments isBlack : simpl never.
Local Arguments rotateLeft : simpl never.
Local Arguments rotateRight : simpl never.
Local Arguments fill : simpl never.

Ltac msimpl := repeat (progress simpl || rewrite bind_ret || rewrite bind_bind).
Ltac mrun E :=
  let H := fresh in
  pose proof E as H; rewrite (bind_val _ _ _ _ _ H); clear H; msimpl.

Lemma maintainAfterInsert_rotate_spec h s f g cx c a l x r :
  Rep h s (f :: g :: cx) (N c a l x r) →
  ∃ h', maintainAfterInsert_rotate (Some s) (Some a) h = Val tt h'
        ∧ Rep h' s cx (insert_case56 f g (N c a l x r)).
Proof.
  intros HR. unfold maintainAfterInsert_rotate.
  mrun (isRoot_cons _ _ _ _ _ _ _ _ _ HR).
  mrun (direction_spec _ _ _ _ _ _ _ _ HR).
  mrun (load_focus _ _ _ _ _ _ _ _ HR).
  pose proof (Rep_parent _ _ _ _ _ HR) as HRp.
  mrun (direction_spec _ _ _ _ _ _ _ _ HRp).
  pose proof (Rep_parent _ _ _ _ _ HRp) as HRg.
  destruct f as [[] cf pf xf sf], g as [[] cg ag xg u]; simpl in *.
  - (* node LEFT, parent LEFT *)
    msimpl.
    mrun (grandParent_spec _ _ _ _ _ _ _ _ _ _ HR).
    mrun (load_focus _ _ _ _ _ _ _ _ HR).
    mrun (direction_spec _ _ _ _ _ _ _ _ HRp).
    mrun (grandParent_spec _ _ _ _ _ _ _ _ _ _ HR).
    destruct (rotateRight_spec _ _ _ _ _ _ _ _ _ _ _ _ HRg) as (h1 & E1 & R1).
    mrun E1.
    pose proof (Rep_left _ _ _ _ _ _ _ _ R1) as R1n.
    mrun (load_focus _ _ _ _ _ _ _ _ R1n).
    destruct (store_color_spec _ _ _ _ _ _ _ _ BLACK R1) as (h2 & E2 & R2).
    mrun E2.
    pose proof (Rep_left _ _ _ _ _ _ _ _ R2) as R2n.
    mrun (sibling_spec _ _ _ _ _ _ _ _ _ R2n).
    pose proof (Rep_right _ _ _ _ _ _ _ _ R2) as R2g.
    destruct (store_color_spec _ _ _ _ _ _ _ _ RED R2g) as (h3 & E3 & R3).
    rewrite E3. eexists; split; [done|].
    apply Rep_up in R3. exact R3.
  - (* node LEFT, parent RIGHT: rotate the parent right first *)
    msimpl.
    mrun (load_focus _ _ _ _ _ _ _ _ HR).
    mrun (direction_spec _ _ _ _ _ _ _ _ HR).
    mrun (load_focus _ _ _ _ _ _ _ _ HR).
    destruct (rotateRight_spec _ _ _ _ _ _ _ _ _ _ _ _ HRp) as (h1 & E1 & R1).
    mrun E1.
    pose proof (Rep_right _ _ _ _ _ _ _ _ R1) as R1p.
    pose proof (Rep_parent _ _ _ _ _ R1) as R1g. simpl in R1g.
    mrun (grandParent_spec _ _ _ _ _ _ _ _ _ _ R1p).
    mrun (load_focus _ _ _ _ _ _ _ _ R1p).
    mrun (direction_spec _ _ _ _ _ _ _ _ R1).
    mrun (grandParent_spec _ _ _ _ _ _ _ _ _ _ R1p).
    destruct (rotateLeft_spec _ _ _ _ _ _ _ _ _ _ _ _ R1g) as (h2 & E2 & R2).
    mrun E2.
    pose proof (Rep_right _ _ _ _ _ _ _ _ R2) as R2p.
    mrun (load_focus _ _ _ _ _ _ _ _ R2p).
    destruct (store_color_spec _ _ _ _ _ _ _ _ BLACK R2) as (h3 & E3 & R3).
    mrun E3.
    pose proof (Rep_right _ _ _ _ _ _ _ _ R3) as R3p.
    mrun (sibling_spec _ _ _ _ _ _ _ _ _ R3p).
    pose proof (Rep_left _ _ _ _ _ _ _ _ R3) as R3g.
    destruct (store_color_spec _ _ _ _ _ _ _ _ RED R3g) as (h4 & E4 & R4).
    rewrite E4. eexists; split; [done|].
    apply Rep_up in R4. exact R4.
  - (* node RIGHT, parent LEFT: rotate the parent left first *)
    msimpl.
    mrun (load_focus _ _ _ _ _ _ _ _ HR).
    mrun (direction_spec _ _ _ _ _ _ _ _ HR).
    mrun (load_focus _ _ _ _ _ _ _ _ HR).
    destruct (rotateLeft_spec _ _ _ _ _ _ _ _ _ _ _ _ HRp) as (h1 & E1 & R1).
    mrun E1.
    pose proof (Rep_left _ _ _ _ _ _ _ _ R1) as R1p.
    pose proof (Rep_parent _ _ _ _ _ R1) as R1g. simpl in R1g.
    mrun (grandParent_spec _ _ _ _ _ _ _ _ _ _ R1p).
    mrun (load_focus _ _ _ _ _ _ _ _ R1p).
    mrun (direction_spec _ _ _ _ _ _ _ _ R1).
    mrun (grandParent_spec _ _ _ _ _ _ _ _ _ _ R1p).
    destruct (rotateRight_spec _ _ _ _ _ _ _ _ _ _ _ _ R1g) as (h2 & E2 & R2).
    mrun E2.
    pose proof (Rep_left _ _ _ _ _ _ _ _ R2) as R2p.
    mrun (load_focus _ _ _ _ _ _ _ _ R2p).
    destruct (store_color_spec _ _ _ _ _ _ _ _ BLACK R2) as (h3 & E3 & R3).
    mrun E3.
    pose proof (Rep_left _ _ _ _ _ _ _ _ R3) as R3p.
    mrun (sibling_spec _ _ _ _ _ _ _ _ _ R3p).
    pose proof (Rep_right _ _ _ _ _ _ _ _ R3) as R3g.
    destruct (store_color_spec _ _ _ _ _ _ _ _ RED R3g) as (h4 & E4 & R4).
    rewrite E4. eexists; split; [done|].
    apply Rep_up in R4. exact R4.
  - (* node RIGHT, parent RIGHT *)
    msimpl.
    mrun (grandParent_spec _ _ _ _ _ _ _ _ _ _ HR).
    mrun (load_focus _ _ _ _ _ _ _ _ HR).
    mrun (direction_spec _ _ _ _ _ _ _ _ HRp).
    mrun (grandParent_spec _ _ _ _ _ _ _ _ _ _ HR).
    destruct (rotateLeft_spec _ _ _ _ _ _ _ _ _ _ _ _ HRg) as (h1 & E1 & R1).
    mrun E1.
    pose proof (Rep_right _ _ _ _ _ _ _ _ R1) as R1n.
    mrun (load_focus _ _ _ _ _ _ _ _ R1n).
    destruct (store_color_spec _ _ _ _ _ _ _ _ BLACK R1) as (h2 & E2 & R2).
    mrun E2.
    pose proof (Rep_right _ _ _ _ _ _ _ _ R2) as R2n.
    mrun (sibling_spec _ _ _ _ _ _ _ _ _ R2n).
    pose proof (Rep_left _ _ _ _ _ _ _ _ R2) as R2g.
    destruct (store_color_spec _ _ _ _ _ _ _ _ RED R2g) as (h3 & E3 & R3).
    rewrite E3. eexists; split; [done|].
    apply Rep_up in R3. exact R3.
Qed.

Local Arguments maintainAfterInsert_rotate : simpl never.
Local Arguments fixI : simpl nomatch.

(** [maintainAfterInsert] computes [fixI]. *)
Lemma maintainAfterInsert_spec s n :
  ∀ cx c a l x r fuel h T',
    length cx ≤ n → length cx < fuel →
    fixI cx (N c a l x r) = Some T' →
    Rep h s cx (N c a l x r) →
    ∃ h', maintainAfterInsert fuel (Some s) (Some a) h = Val tt h'
          ∧ Rep h' s [] T'.
Proof.
  induction n as [|n IH]; intros cx c a l x r fuel h T' Hn Hfuel Hfix HR.
  { destruct cx; [|simpl in Hn; lia].
    destruct fuel; [simpl in Hfuel; lia|]. simpl in *. msimpl.
    mrun (isRoot_nil _ _ _ _ _ _ _ HR).
    injection Hfix as <-. apply (store_color_spec _ _ _ _ _ _ _ _ _ HR). }
  destruct fuel; [lia|]. simpl maintainAfterInsert. msimpl.
  destruct cx as [|f cx].
  { simpl in *. mrun (isRoot_nil _ _ _ _ _ _ _ HR).
    injection Hfix as <-. apply (store_color_spec _ _ _ _ _ _ _ _ _ HR). }
  mrun (isRoot_cons _ _ _ _ _ _ _ _ _ HR).
  mrun (load_focus _ _ _ _ _ _ _ _ HR).
  pose proof (Rep_parent _ _ _ _ _ HR) as HRp.
  mrun (isBlack_spec _ _ _ _ _ _ _ _ HRp).
  destruct f as [fl [] pf xf sf]; simpl in Hfix, HRp |- *.
  2:{ (* Case 2 *)
      injection Hfix as <-. eexists; split; [done|].
      by apply (Rep_plug _ _ (_ :: cx)). }
  mrun (hasUncle_spec _ _ _ _ _ _ _ _ HR).
  destruct cx as [|g cx]; [done|].
  pose proof (Rep_sibling _ _ _ _ _ HRp) as HRu.
  destruct g as [gl cg ag xg [|cu u ul ux ur]]; simpl in Hfix, HRu; msimpl.
  { (* no uncle *)
    mrun (hasUncle_spec _ _ _ _ _ _ _ _ HR).
    injection Hfix as <-.
    destruct (maintainAfterInsert_rotate_spec _ _ _ _ _ _ _ _ _ _ HR) as (h' & E' & R').
    exists h'. split; [done|]. exact (proj1 (Rep_plug _ _ _ _) R'). }
  mrun (uncle_spec _ _ _ _ _ _ _ _ _ _ HR).
  mrun (isRed_spec _ _ _ _ _ _ _ _ HRu).
  destruct cu; simpl.
  2:{ (* uncle BLACK *)
    mrun (hasUncle_spec _ _ _ _ _ _ _ _ HR).
    mrun (uncle_spec _ _ _ _ _ _ _ _ _ _ HR).
    mrun (isBlack_spec _ _ _ _ _ _ _ _ HRu).
    injection Hfix as <-.
    destruct (maintainAfterInsert_rotate_spec _ _ _ _ _ _ _ _ _ _ HR) as (h' & E' & R').
    exists h'. split; [done|]. exact (proj1 (Rep_plug _ _ _ _) R'). }
  (* Case 4: uncle RED *)
  mrun (load_focus _ _ _ _ _ _ _ _ HR).
  mrun (isRed_spec _ _ _ _ _ _ _ _ HRp).
  destruct (store_color_spec _ _ _ _ _ _ _ _ BLACK HRp) as (h1 & E1 & R1).
  mrun E1.
  pose proof (Rep_child _ _ _ _ _ _ _ _ _ R1) as R1n.
  mrun (uncle_spec _ _ _ _ _ _ _ _ _ _ R1n).
  pose proof (Rep_sibling _ _ _ _ _ R1) as R1u. simpl in R1u.
  destruct (store_color_spec _ _ _ _ _ _ _ _ BLACK R1u) as (h2 & E2 & R2u).
  mrun E2.
  pose proof (Rep_sibling _ _ _ _ _ R2u) as R2. simpl in R2.
  rewrite negb_involutive in R2.
  pose proof (Rep_child _ _ _ _ _ _ _ _ _ R2) as R2n.
  mrun (grandParent_spec _ _ _ _ _ _ _ _ _ _ R2n).
  pose proof (Rep_parent _ _ _ _ _ R2) as R2g. simpl in R2g.
  destruct (store_color_spec _ _ _ _ _ _ _ _ RED R2g) as (h3 & E3 & R3g).
  mrun E3.
  pose proof (Rep_child _ _ _ _ _ _ _ _ _ (Rep_child _ _ _ _ _ _ _ _ _ R3g)) as R3n.
  mrun (grandParent_spec _ _ _ _ _ _ _ _ _ _ R3n).
  eapply (IH cx _ _ _ _ _ fuel h3 T'); [simpl in Hn; lia | simpl in Hfuel; lia | | exact R3g].
  rewrite <- Hfix. unfold fill. by destruct fl, gl.
Qed.

End insert_fixup.


Section descent.
Context {Key T : Type}.
Variable Compare : Key → Key → bool.
Implicit Types (h : gmap nat (@RBTNode Key T)) (t l r m : @tree Key T)
  (cx : list (@frame Key T)) (f g : @frame Key T).

Local Arguments bind : simpl never.
Local Arguments load : simpl never.
Local Arguments store : simpl never.

Ltac msimpl := repeat (progress simpl || rewrite bind_ret || rewrite bind_bind).
Ltac mrun E :=
  let H := fresh in
  pose proof E as H; rewrite (bind_val _ _ _ _ _ H); clear H; msimpl.

(** ** Live addresses *)

Lemma rep_live h par t b : rep h par t → b ∈ addrs t → is_Some (h !! b).
Proof.
  revert par. induction t as [|c a l IHl x r IHr]; simpl; intros par.
  - intros _ Hb. by apply elem_of_nil in Hb.
  - intros (Ha & Hl & Hr). rewrite elem_of_app, elem_of_cons.
    intros [Hb|[->|Hb]]; eauto.
Qed.

Lemma crep_live h s cx hole b :
  crep h s cx hole → b ∈ s :: caddrs cx → is_Some (h !! b).
Proof.
  revert hole. induction cx as [|f cx IH]; simpl; intros hole.
  - intros Hs. rewrite elem_of_cons. intros [->|Hb]; [eauto|].
    by apply elem_of_nil in Hb.
  - intros (Hf & Hs & Hc). rewrite !elem_of_cons, elem_of_app.
    intros [->|[->|[Hb|Hb]]]; eauto.
    + eapply IH; [done|]. apply list_elem_of_here.
    + eapply rep_live; done.
    + eapply IH; [done|]. by apply list_elem_of_further.
Qed.

Lemma Rep_live h s cx t b :
  Rep h s cx t → b ∈ s :: caddrs cx ++ addrs t → is_Some (h !! b).
Proof.
  intros (_ & Hc & Ht). rewrite app_comm_cons, elem_of_app. intros [Hb|Hb].
  - eapply crep_live; done.
  - eapply rep_live; done.
Qed.

Lemma Rep_fresh h s cx t :
  Rep h s cx t → fresh (dom h) ∉ s :: caddrs cx ++ addrs t.
Proof.
  intros HR Hin. apply (Rep_live _ _ _ _ _ HR) in Hin.
  apply elem_of_dom in Hin. by apply is_fresh in Hin.
Qed.

Lemma read_slot_spec h s cx t :
  Rep h s cx t → read_slot (cslot s cx) h = Val (root t) h.
Proof.
  intros (_ & Hc & _). destruct cx as [|[[] c a x sib] cx]; simpl in *.
  - unfold read_slot. by rewrite (bind_load _ _ _ _ Hc).
  - destruct Hc as (Hc & _). unfold read_slot. by rewrite (bind_load _ _ _ _ Hc).
  - destruct Hc as (Hc & _). unfold read_slot. by rewrite (bind_load _ _ _ _ Hc).
Qed.

(** Allocation of the new leaf in an empty slot. *)
Lemma new_leaf_spec h s cx kv :
  Rep h s cx E →
  ∃ h', (∀ B (k : option nat → M _ B),
          (let* p := new_node (RBTNode_of kv (Some (cparent s cx)) None None RED) in
           write_slot (cslot s cx) p;;
           let* cur := read_slot (cslot s cx) in k cur) h
          = k (Some (fresh (dom h))) h')
        ∧ Rep h' s cx (N RED (fresh (dom h)) E kv E).
Proof.
  intros HR. pose proof (Rep_fresh _ _ _ _ HR) as Hfr.
  destruct HR as (Hnd & Hc & _).
  unfold new_node, write_slot, read_slot, bind at 1. cbv beta zeta.
  remember (fresh (dom h)) as a eqn:Ea. clear Ea.
  simpl in Hfr. rewrite app_nil_r in Hfr.
  destruct cx as [|[[] cf af xf sf] cx]; simpl in *; destruct_and?;
    nd_split_notin Hfr; nd_norm Hnd;
    unfold bind, load, store, ret; hsimpl;
    (eexists; split; [intros B k; hsimpl; reflexivity|]);
    (split; [nd_goal|]); simpl; split_and?; hsimpl; try done; rep_frame_tac.
Qed.

Lemma equal_key_comm (x y : Key) : equal_key Compare x y = equal_key Compare y x.
Proof. unfold equal_key. by rewrite orb_comm. Qed.

Lemma load_data_focus h s cx c a l x r :
  Rep h s cx (N c a l x r) → load_data (Some a) h = Val x h.
Proof.
  intros HR. unfold load_data.
  by rewrite (bind_val _ _ _ _ _ (load_focus _ _ _ _ _ _ _ _ HR)).
Qed.

(** The private [insert] stops where [locate] stops: it returns the node
    with an equivalent key and changes nothing, or puts a RED leaf at a
    fresh address into the empty slot. *)
Lemma insert_priv_spec s kv :
  ∀ t cx fuel h,
    tsize t < fuel →
    Rep h s cx t →
    match locate Compare (fst kv) cx t with
    | (cx', E) =>
        ∃ h', insert_priv Compare fuel kv (cslot s cx) (Some (cparent s cx)) h
              = Val (Some (fresh (dom h)), true) h'
              ∧ Rep h' s cx' (N RED (fresh (dom h)) E kv E)
    | (cx', N c a l x r) =>
        insert_priv Compare fuel kv (cslot s cx) (Some (cparent s cx)) h
        = Val (Some a, false) h
    end.
Proof.
  induction t as [|c a l IHl x r IHr]; intros cx fuel h Hfuel HR;
    (destruct fuel; [lia|]); simpl in Hfuel; simpl locate; simpl insert_priv.
  - mrun (read_slot_spec _ _ _ _ HR).
    destruct (new_leaf_spec _ _ _ kv HR) as (h' & E' & R').
    exists h'. split; [|done]. by rewrite E'.
  - mrun (read_slot_spec _ _ _ _ HR).
    mrun (load_data_focus _ _ _ _ _ _ _ _ HR).
    rewrite (equal_key_comm (fst x)).
    destruct (equal_key Compare (fst kv) (fst x)); [done|].
    destruct (Compare (fst kv) (fst x)).
    + apply (IHl (Frame true c a x r :: cx)); [lia|]. by apply Rep_left.
    + apply (IHr (Frame false c a x l :: cx)); [lia|]. by apply Rep_right.
Qed.

(** The private [find] returns the node where [locate] stops. *)
Lemma find_priv_spec s key :
  ∀ t cx fuel h,
    tsize t < fuel →
    Rep h s cx t →
    find_priv Compare fuel key (root t) h
    = Val (root (snd (locate Compare key cx t))) h.
Proof.
  induction t as [|c a l IHl x r IHr]; intros cx fuel h Hfuel HR;
    (destruct fuel; [lia|]); simpl in Hfuel; simpl locate; simpl find_priv.
  - done.
  - msimpl. mrun (load_data_focus _ _ _ _ _ _ _ _ HR).
    destruct (equal_key Compare key (fst x)); [done|].
    destruct (Compare key (fst x)).
    + mrun (load_focus _ _ _ _ _ _ _ _ HR).
      apply (IHl (Frame true c a x r :: cx)); [lia|]. by apply Rep_left.
    + mrun (load_focus _ _ _ _ _ _ _ _ HR).
      apply (IHr (Frame false c a x l :: cx)); [lia|]. by apply Rep_right.
Qed.


End descent.


Section pure.
Context {Key T : Type}.
Implicit Types (t l r m : @tree Key T)
  (cx : list (@frame Key T)) (f g : @frame Key T).

(** ** Symmetric order of a zipper *)

Lemma elems_cells t : elems t = (cells t).*2.
Proof.
  induction t as [|c a l IHl x r IHr]; simpl; [done|].
  by rewrite fmap_app, fmap_cons, IHl, IHr.
Qed.

Lemma addrs_cells t : addrs t = (cells t).*1.
Proof.
  induction t as [|c a l IHl x r IHr]; simpl; [done|].
  by rewrite fmap_app, fmap_cons, IHl, IHr.
Qed.

Lemma tsize_cells t : tsize t = length (cells t).
Proof.
  induction t as [|c a l IHl x r IHr]; simpl; [done|].
  rewrite length_app. simpl. lia.
Qed.

Lemma cells_fill f t :
  cells (fill f t) =
    (if fleft f then [] else cells (fsib f) ++ [(faddr f, fval f)])
    ++ cells t
    ++ (if fleft f then (faddr f, fval f) :: cells (fsib f) else []).
Proof.
  unfold fill. destruct (fleft f); simpl; [done|].
  by rewrite app_nil_r, <- app_assoc.
Qed.

Lemma cells_plug cx t : cells (plug cx t) = cbefore cx ++ cells t ++ cafter cx.
Proof.
  revert t. induction cx as [|f cx IH]; intros t; simpl.
  - by rewrite app_nil_r.
  - rewrite IH, cells_fill. by rewrite <- !app_assoc.
Qed.

Lemma cells_paint c t : cells (paint c t) = cells t.
Proof. by destruct t. Qed.

Lemma cells_rotL t : cells (rotL t) = cells t.
Proof.
  destruct t as [|c a l x [|c' b m y r]]; simpl; try done.
  by rewrite <- app_assoc.
Qed.

Lemma cells_rotR t : cells (rotR t) = cells t.
Proof.
  destruct t as [|c a [|c' b l y m] x r]; simpl; try done.
  by rewrite <- app_assoc.
Qed.

Lemma cells_insert_case56 f g t :
  cells (insert_case56 f g t) = cells (fill g (fill f t)).
Proof.
  unfold insert_case56. rewrite (fill_eq g).
  destruct (fleft g).
  - match goal with
    | |- cells (match rotR ?u with _ => _ end) = _ =>
        transitivity (cells (rotR u)); [|rewrite cells_rotR]
    end.
    + destruct (rotR _); simpl; [done|]. by rewrite cells_paint.
    + simpl. destruct (fleft f); by rewrite ?cells_rotL.
  - match goal with
    | |- cells (match rotL ?u with _ => _ end) = _ =>
        transitivity (cells (rotL u)); [|rewrite cells_rotL]
    end.
    + destruct (rotL _); simpl; [done|]. by rewrite cells_paint.
    + simpl. destruct (fleft f); by rewrite ?cells_rotR.
Qed.

(** The repair after an insertion moves no stored pair and no address. *)
Lemma fixI_cells n :
  ∀ cx t T', length cx ≤ n → fixI cx t = Some T' → cells T' = cells (plug cx t).
Proof.
  induction n as [|n IH]; intros cx t T' Hn.
  { destruct cx; [|simpl in Hn; lia]. simpl. intros [= <-]. apply cells_paint. }
  destruct cx as [|[fl [] pf xf sf] cx]; simpl.
  - intros [= <-]. apply cells_paint.
  - destruct cx as [|[gl cg ag xg u] cx]; [done|]. simpl.
    destruct (col u) eqn:Hu.
    + intros Hfix. apply IH in Hfix; [|simpl in Hn; lia].
      rewrite Hfix, !cells_plug. f_equal. f_equal.
      unfold fill. destruct gl, fl; simpl; by rewrite ?cells_paint.
    + intros [= <-]. rewrite !cells_plug, cells_insert_case56. done.
  - by intros [= <-].
Qed.

(** ** Colours and black heights of a zipper *)

Lemma bheight_paint_black t :
  col t = RED → bheight (paint BLACK t) = S (bheight t).
Proof. by destruct t as [|[] ?]. Qed.

Lemma no_red_red_paint_black t : no_red_red t → no_red_red (paint BLACK t).
Proof. destruct t; simpl; [done|]. naive_solver. Qed.

Lemma balanced_paint c t : balanced t → balanced (paint c t).
Proof. by destruct t. Qed.

Lemma plug_rb cx :
  ∀ t, (col (plug cx t) = BLACK ∧ no_red_red (plug cx t) ∧ balanced (plug cx t))
       ↔ (no_red_red t ∧ balanced t ∧ ctx_rb cx (bheight t)
          ∧ (pcol cx = RED → col t = BLACK)).
Proof.
  induction cx as [|[fl cf af xf sf] cx IH]; intros t; simpl.
  - naive_solver.
  - rewrite IH. unfold fill; simpl.
    destruct fl, cf; simpl; destruct (pcol cx); intuition (try congruence).
Qed.

(** The repair after an insertion restores invariants 2 to 4. *)
Lemma fixI_rb n :
  ∀ cx a l x r,
    length cx ≤ n →
    no_red_red (N RED a l x r) → balanced (N RED a l x r) →
    ctx_rb cx (bheight (N RED a l x r)) →
    ∃ T', fixI cx (N RED a l x r) = Some T'
          ∧ col T' = BLACK ∧ no_red_red T' ∧ balanced T'.
Proof.
  induction n as [|n IH]; intros cx a l x r Hn Hnrr Hbal Hcx.
  { destruct cx; [|simpl in Hn; lia]. eexists; split; [done|].
    simpl in *. naive_solver. }
  destruct cx as [|[fl [] pf xf sf] cx].
  - eexists; split; [done|]. simpl in *. naive_solver.
  - destruct cx as [|[gl cg ag xg u] cx]; [simpl in Hcx; naive_solver|].
    assert (cg = BLACK) as -> by (simpl in Hcx; naive_solver).
    simpl fixI. destruct u as [|[] au lu xu ru]; simpl col; cbv iota.
    + eexists; split; [done|]. apply plug_rb.
      destruct gl, fl; simpl in *; destruct (pcol cx);
        intuition (try congruence).
    + apply IH; [simpl in Hn; lia|..];
        destruct gl, fl; simpl in *; intuition (try congruence).
    + eexists; split; [done|]. apply plug_rb.
      destruct gl, fl; simpl in *; destruct (pcol cx);
        intuition (try congruence).
  - eexists; split; [done|]. apply (plug_rb (_ :: _)).
    simpl in *. intuition (try congruence).
Qed.

End pure.


Section order.
Context {Key T : Type}.
Variable Compare : Key → Key → bool.
Hypothesis Hswo : StrictWeakOrder Compare.
Implicit Types (t l r m : @tree Key T)
  (cx : list (@frame Key T)) (f g : @frame Key T) (k : Key)
  (x y : @value_type Key T) (p q : nat * @value_type Key T).

Abbreviation lt := (λ a b : Key, Compare a b = true).
Abbreviation eqv := (λ a b : Key, equal_key Compare a b = true).

(** ** The strict weak order *)

Lemma eqv_iff a b : eqv a b ↔ Compare a b = false ∧ Compare b a = false.
Proof.
  unfold equal_key. rewrite negb_true_iff, orb_false_iff. done.
Qed.

Lemma eqv_refl a : eqv a a.
Proof. apply eqv_iff. by rewrite (swo_irrefl _ Hswo). Qed.

Lemma eqv_sym a b : eqv a b → eqv b a.
Proof. rewrite !eqv_iff. tauto. Qed.

Lemma lt_not_eqv a b : lt a b → equal_key Compare a b = false.
Proof. intros H. unfold equal_key. by rewrite H. Qed.

Lemma lt_not_eqv' a b : lt a b → equal_key Compare b a = false.
Proof. intros H. unfold equal_key. rewrite H. by rewrite orb_true_r. Qed.

Lemma lt_asym a b : lt a b → Compare b a = false.
Proof.
  intros H. destruct (Compare b a) eqn:E; [|done].
  pose proof (swo_trans _ Hswo _ _ _ H E) as H'.
  by rewrite (swo_irrefl _ Hswo) in H'.
Qed.

Lemma not_eqv_not_lt a b :
  equal_key Compare a b = false → Compare a b = false → lt b a.
Proof.
  unfold equal_key. rewrite negb_false_iff, orb_true_iff. intros [H|H] H'; congruence.
Qed.

Lemma lt_eqv_l a b c : eqv a b → lt b c → lt a c.
Proof.
  intros Hab Hbc. destruct (Compare a c) eqn:E; [done|].
  destruct (Compare c a) eqn:E'.
  - (* c < a and b < c give b < a, against a ~ b *)
    pose proof (swo_trans _ Hswo _ _ _ Hbc E') as H.
    apply eqv_iff in Hab. destruct Hab; congruence.
  - (* a ~ c and a ~ b give b ~ c *)
    assert (eqv c a) as Hca by (apply eqv_iff; done).
    pose proof (swo_equiv_trans _ Hswo _ _ _ Hca Hab) as H.
    apply eqv_iff in H. destruct H; congruence.
Qed.

Lemma lt_eqv_r a b c : lt a b → eqv b c → lt a c.
Proof.
  intros Hab Hbc. destruct (Compare a c) eqn:E; [done|].
  destruct (Compare c a) eqn:E'.
  - pose proof (swo_trans _ Hswo _ _ _ E' Hab) as H.
    apply eqv_iff in Hbc. destruct Hbc; congruence.
  - assert (eqv a c) as Hac by (apply eqv_iff; done).
    pose proof (swo_equiv_trans _ Hswo _ _ _ Hac (eqv_sym _ _ Hbc)) as H.
    apply eqv_iff in H. destruct H; congruence.
Qed.

(** ** What [locate] finds *)

Lemma locate_plug k :
  ∀ t cx, plug (locate Compare k cx t).1 (locate Compare k cx t).2 = plug cx t.
Proof.
  induction t as [|c a l IHl x r IHr]; intros cx; simpl; [done|].
  destruct (equal_key Compare k (fst x)); [done|].
  destruct (Compare k (fst x)); [apply IHl | apply IHr].
Qed.

Lemma locate_found k t cx :
  match (locate Compare k cx t).2 with
  | E => True
  | N _ _ _ x _ => eqv k (fst x)
  end.
Proof.
  revert cx. induction t as [|c a l IHl x r IHr]; intros cx; simpl; [done|].
  destruct (equal_key Compare k (fst x)) eqn:E; [done|].
  destruct (Compare k (fst x)); [apply IHl | apply IHr].
Qed.

Lemma StronglySorted_fmap_snd (L : list (nat * @value_type Key T)) :
  StronglySorted (key_lt Compare) L.*2 ↔ StronglySorted (cell_lt Compare) L.
Proof.
  induction L as [|p L IH]; simpl.
  - split; constructor.
  - rewrite !StronglySorted_cons, IH, Forall_fmap. done.
Qed.

Lemma ordered_cells t : ordered Compare t ↔ StronglySorted (cell_lt Compare) (cells t).
Proof. unfold ordered. by rewrite elems_cells, StronglySorted_fmap_snd. Qed.

Lemma locate_bounds k :
  ∀ t cx,
    StronglySorted (cell_lt Compare) (cells (plug cx t)) →
    bounds Compare k cx →
    bounds Compare k (locate Compare k cx t).1.
Proof.
  induction t as [|c a l IHl x r IHr]; intros cx Hs Hb; simpl; [done|].
  destruct (equal_key Compare k (fst x)) eqn:Heq; [done|].
  pose proof Hs as Hs'. rewrite cells_plug in Hs'. simpl in Hs'.
  apply StronglySorted_app_1_r, StronglySorted_app_1_l in Hs'.
  apply StronglySorted_app in Hs' as (Hlx & _ & Hxr).
  apply StronglySorted_cons in Hxr as [Hxr _].
  destruct Hb as [Hb1 Hb2].
  destruct (Compare k (fst x)) eqn:Hlt.
  - apply IHl; [done|]. split; simpl.
    + by rewrite app_nil_r.
    + constructor; [done|]. apply Forall_app. split; [|done].
      eapply Forall_impl; [exact Hxr|]. intros q Hq.
      eapply (swo_trans _ Hswo); [exact Hlt|exact Hq].
  - apply not_eqv_not_lt in Hlt; [|done].
    apply IHr; [done|]. split; simpl; [|done].
    apply Forall_app. split; [done|]. apply Forall_app. split.
    + apply Forall_forall. intros q Hq.
      eapply (swo_trans _ Hswo); [|exact Hlt].
      apply (Hlx q (a, x) Hq). apply list_elem_of_here.
    + by constructor.
Qed.

(** A tree in order stores at most one key of each equivalence class. *)
Lemma sorted_cells_unique (L : list (nat * @value_type Key T)) p q :
  StronglySorted (cell_lt Compare) L →
  p ∈ L → q ∈ L → eqv (fst p.2) (fst q.2) → p = q.
Proof.
  induction 1 as [|z L HL IH Hz]; intros Hp Hq He.
  - by apply elem_of_nil in Hp.
  - apply elem_of_cons in Hp as [->|Hp], Hq as [->|Hq]; auto.
    + rewrite Forall_forall in Hz. apply Hz in Hq.
      apply lt_not_eqv in Hq. congruence.
    + rewrite Forall_forall in Hz. apply Hz in Hp.
      apply lt_not_eqv' in Hp. congruence.
Qed.

Lemma bounds_absent k cx :
  bounds Compare k cx → ¬ present Compare k (plug cx E).
Proof.
  intros [Hb Ha] (x & Hx & He). rewrite elems_cells, cells_plug in Hx.
  simpl in Hx. apply list_elem_of_fmap in Hx as (p & -> & Hp).
  rewrite Forall_forall in Hb, Ha.
  apply elem_of_app in Hp as [Hp|Hp].
  - apply Hb in Hp. simpl in Hp. apply lt_not_eqv' in Hp.
    unfold value_type in *. congruence.
  - apply Ha in Hp. simpl in Hp. apply lt_not_eqv in Hp.
    unfold value_type in *. congruence.
Qed.

(** [locate] from the root stops at a node exactly when an equivalent key
    is stored. *)
Lemma locate_present k t :
  ordered Compare t →
  match (locate Compare k [] t).2 with
  | E => ¬ present Compare k t
  | N _ a _ x _ => (a, x) ∈ cells t ∧ eqv k (fst x)
  end.
Proof.
  intros Ho%ordered_cells.
  pose proof (locate_plug k t []) as Hp. simpl in Hp.
  pose proof (locate_found k t []) as Hf.
  pose proof (locate_bounds k t [] Ho) as Hb.
  destruct (locate Compare k [] t) as [cx [|c a l x r]]; simpl in *.
  - rewrite <- Hp. apply bounds_absent, Hb. split; constructor.
  - split; [|done]. rewrite <- Hp, cells_plug. simpl.
    rewrite !elem_of_app, elem_of_cons. auto.
Qed.

Lemma StronglySorted_insert_mid {A} (R : relation A) (L1 L2 : list A) z :
  StronglySorted R (L1 ++ L2) →
  Forall (λ u, R u z) L1 → Forall (R z) L2 →
  StronglySorted R (L1 ++ z :: L2).
Proof.
  rewrite !StronglySorted_app, StronglySorted_cons. intros (H1 & H2 & H3) Hl Hr.
  split_and!; try done.
  intros u1 u2 Hx1 Hx2. apply elem_of_cons in Hx2 as [->|Hx2]; [|by apply H1].
  rewrite Forall_forall in Hl. by apply Hl.
Qed.

(** Putting a pair with key [k] into the empty slot [locate] found keeps
    the order. *)
Lemma bounds_insert k v a cx :
  StronglySorted (cell_lt Compare) (cells (plug cx E)) →
  bounds Compare k cx →
  StronglySorted (cell_lt Compare) (cbefore cx ++ (a, (k, v)) :: cafter cx).
Proof.
  rewrite cells_plug. simpl. intros Hs [Hb Ha].
  by apply StronglySorted_insert_mid.
Qed.

End order.


Section world.
Context {Key T : Type}.
Implicit Types (h : gmap nat (@RBTNode Key T)) (t l r m : @tree Key T)
  (cx : list (@frame Key T)) (f g : @frame Key T) (w : @world Key T).

(** ** Running node code inside the world *)

Lemma lift_val {A} (c : M _ A) w a h' :
  c (nodes w) = Val a h' → lift c w = Val a (mkWorld h' (objs w)).
Proof. unfold lift. by intros ->. Qed.

Lemma lift_mk {A} (c : M _ A) h o a h' :
  c h = Val a h' → lift c (@mkWorld Key T h o) = Val a (mkWorld h' o).
Proof. unfold lift. simpl. by intros ->. Qed.

Lemma lift_val_same {A} (c : M _ A) w a :
  c (nodes w) = Val a (nodes w) → lift c w = Val a w.
Proof. unfold lift. intros ->. by destruct w. Qed.

Lemma load_map_val w this mo :
  objs w !! this = Some mo → load_map (Some this) w = Val mo w.
Proof. unfold load_map. by intros ->. Qed.

Lemma store_map_val w this mo fn :
  objs w !! this = Some mo →
  store_map (Some this) fn w = Val tt (mkWorld (nodes w) (<[this := fn mo]> (objs w))).
Proof. unfold store_map. by intros ->. Qed.

(** ** Fuel *)

Lemma bind_fuel_of {B} (k : nat → M (@world Key T) B) w :
  bind fuel_of k w = k (S (size (nodes w))) w.
Proof. done. Qed.

Lemma NoDup_live_size h (L : list nat) :
  NoDup L → (∀ b, b ∈ L → is_Some (h !! b)) → length L ≤ size h.
Proof.
  intros Hnd Hl. rewrite <- size_dom. unfold size, set_size. simpl.
  apply submseteq_length, NoDup_submseteq; [done|].
  intros b Hb. apply elem_of_elements, elem_of_dom. by apply Hl.
Qed.

Lemma Rep_size h s cx t :
  Rep h s cx t → S (length (caddrs cx) + length (addrs t)) ≤ size h.
Proof.
  intros HR. pose proof HR as (Hnd & _).
  apply (NoDup_live_size h) in Hnd.
  - simpl in Hnd. by rewrite length_app in Hnd.
  - intros b. apply (Rep_live _ _ _ _ _ HR).
Qed.

Lemma tsize_addrs t : tsize t = length (addrs t).
Proof. by rewrite tsize_cells, addrs_cells, length_fmap. Qed.

Lemma length_caddrs cx : length cx ≤ length (caddrs cx).
Proof.
  induction cx as [|f cx IH]; simpl; [done|]. rewrite length_app. lia.
Qed.

End world.

Section insert.
Context {Key T : Type}.
Variable Compare : Key → Key → bool.
Hypothesis Hswo : StrictWeakOrder Compare.
Implicit Types (h : gmap nat (@RBTNode Key T)) (t l r m : @tree Key T)
  (cx : list (@frame Key T)) (f g : @frame Key T) (w : @world Key T)
  (k : Key) (v : T).

Local Arguments bind : simpl never.
Ltac msimpl := repeat (progress simpl || rewrite bind_ret || rewrite bind_bind).
Ltac mrun E :=
  let H := fresh in
  pose proof E as H; rewrite (bind_val _ _ _ _ _ H); clear H; msimpl.

(** Invariants 2 to 4 of the tree under the sentinel. *)
Lemma rb_shape t :
  rb_tree Compare t → col t = BLACK ∧ no_red_red t ∧ balanced t.
Proof. by intros (_ & ? & ? & ?). Qed.

(** Public [insert] of a key that is stored already: nothing changes. *)
Lemma map_insert_present w this s t k v a x :
  map_wf w this s t → ordered Compare t →
  (a, x) ∈ cells t → equal_key Compare k (fst x) = true →
  map_insert Compare (Some this) (k, v) w
  = Val (mkIter (Some this) (Some a), false) w.
Proof.
  intros (Hobj & HR) Ho Hin Heq. unfold map_insert.
  rewrite bind_fuel_of. remember (S (size (nodes w))) as fuel eqn:Hfuel.
  mrun (load_map_val _ _ _ Hobj).
  pose proof (insert_priv_spec Compare s (k, v) t [] fuel (nodes w)) as Hins.
  pose proof (locate_present Compare Hswo k t Ho) as Hloc.
  pose proof (Rep_size _ _ _ _ HR) as Hsz. rewrite <- tsize_addrs in Hsz.
  simpl in Hins, Hsz.
  destruct (locate Compare k [] t) as [cx' [|c' a' l' x' r']]; simpl in Hloc.
  - exfalso. apply Hloc. exists x. split; [|done].
    rewrite elems_cells. apply list_elem_of_fmap. by exists (a, x).
  - destruct Hloc as [Hin' Heq'].
    assert ((a, x) = (a', x')) as [= <- <-].
    { apply (sorted_cells_unique Compare (cells t)); try done.
      - by apply ordered_cells.
      - simpl. eapply (swo_equiv_trans _ Hswo); [|exact Heq'].
        by apply eqv_sym. }
    mrun (lift_val_same _ _ _ (Hins ltac:(lia) HR)).
    done.
Qed.

(** Public [insert] of a key that is not stored: one RED leaf at a fresh
    address, then the repair. *)
Lemma map_insert_absent w this s t k v :
  map_wf w this s t → rb_tree Compare t →
  ¬ present Compare k t →
  ∃ w' T' L1 L2,
    let a := fresh (dom (nodes w)) in
    map_insert Compare (Some this) (k, v) w
    = Val (mkIter (Some this) (Some a), true) w'
    ∧ map_wf w' this s T' ∧ rb_tree Compare T'
    ∧ cells t = L1 ++ L2 ∧ cells T' = L1 ++ (a, (k, v)) :: L2
    ∧ objs w' = <[this := mkMap (Some s) (S (tsize t))]> (objs w).
Proof.
  intros (Hobj & HR) (Ho & Hrb) Habs. unfold map_insert.
  rewrite bind_fuel_of. remember (S (size (nodes w))) as fuel eqn:Hfuel.
  mrun (load_map_val _ _ _ Hobj).
  pose proof (insert_priv_spec Compare s (k, v) t [] fuel (nodes w)) as Hins.
  pose proof (locate_present Compare Hswo k t Ho) as Hloc.
  pose proof (locate_plug Compare k t []) as Hplug.
  pose proof (locate_bounds Compare Hswo k t []) as Hb.
  pose proof (Rep_size _ _ _ _ HR) as Hsz. rewrite <- tsize_addrs in Hsz.
  simpl in Hins, Hsz, Hplug, Hb.
  destruct (locate Compare k [] t) as [cx' [|c' a' l' x' r']]; simpl in *.
  2:{ exfalso. apply Habs. destruct Hloc as [Hin' Heq']. exists x'. split; [|done].
      rewrite elems_cells. apply list_elem_of_fmap. by exists (a', x'). }
  destruct (Hins ltac:(lia) HR) as (h1 & E1 & R1).
  mrun (lift_val _ _ _ _ E1).
  set (a := fresh (dom (nodes w))) in *.
  (* the repair *)
  assert (Hcx : ctx_rb cx' 0).
  { rewrite <- Hplug in Hrb. apply plug_rb in Hrb. tauto. }
  destruct (fixI_rb (length cx') cx' a E (k, v) E) as (T' & Hfix & Hc' & Hn' & Hb');
    [done|simpl; tauto|simpl; tauto|exact Hcx|].
  assert (Hlen : length cx' < fuel).
  { rewrite <- Hplug in HR. apply Rep_plug, Rep_size in HR.
    pose proof (length_caddrs cx'). lia. }
  destruct (maintainAfterInsert_spec s _ cx' _ _ _ _ _ _ h1 T' (le_n _) Hlen Hfix R1)
    as (h2 & E2 & R2).
  mrun (lift_mk _ _ (objs w) _ _ E2).
  mrun (load_map_val (mkWorld h2 (objs w)) _ _ Hobj).
  rewrite (bind_val _ _ _ _ _ (store_map_val (mkWorld h2 (objs w)) _ _ _ Hobj)).
  msimpl.
  pose proof (fixI_cells _ _ _ _ (le_n _) Hfix) as Hcells.
  rewrite cells_plug in Hcells. simpl in Hcells.
  eexists _, T', (cbefore cx'), (cafter cx'). split; [reflexivity|].
  split_and!.
  - split; simpl; [|done]. rewrite lookup_insert_eq. unfold set_len. simpl.
    do 2 f_equal.
    rewrite !tsize_cells, Hcells, <- Hplug, cells_plug. simpl.
    rewrite !length_app. simpl. lia.
  - split; [|done]. apply ordered_cells. rewrite Hcells.
    apply (bounds_insert Compare).
    + rewrite Hplug. by apply ordered_cells.
    + apply Hb; [by apply ordered_cells|]. split; constructor.
  - rewrite <- Hplug, cells_plug. done.
  - done.
  - done.
Qed.

End insert.


Section iterators.
Context {Key T : Type}.
Implicit Types (h : gmap nat (@RBTNode Key T)) (t l r m : @tree Key T)
  (cx : list (@frame Key T)) (f g : @frame Key T) (w : @world Key T).

Local Arguments bind : simpl never.
Local Arguments load : simpl never.
Local Arguments direction : simpl never.
Ltac msimpl := repeat (progress simpl || rewrite bind_ret || rewrite bind_bind).
Ltac mrun E :=
  let H := fresh in
  pose proof E as H; rewrite (bind_val _ _ _ _ _ H); clear H; msimpl.

(** ** The loops of the iterators *)

Lemma is_null_root_N c a l (x : @value_type Key T) r : is_null (root (N c a l x r)) = false.
Proof. done. Qed.

Lemma while_left_spec h s :
  ∀ l cx c a x r fuel,
    tsize l < fuel →
    Rep h s cx (N c a l x r) →
    while_left fuel (Some a) h = Val (Some (leftmost_or a l)) h.
Proof.
  induction l as [|cl al ll IH xl rl _]; intros cx c a x r fuel Hf HR;
    (destruct fuel; [lia|]); simpl in *.
  - mrun (load_focus _ _ _ _ _ _ _ _ HR). done.
  - mrun (load_focus _ _ _ _ _ _ _ _ HR).
    eapply IH; [|apply (Rep_left _ _ _ _ _ _ _ _ HR)]. lia.
Qed.

Lemma while_right_spec h s :
  ∀ r cx c a l x fuel,
    tsize r < fuel →
    Rep h s cx (N c a l x r) →
    while_right fuel (Some a) h = Val (Some (rightmost_or a r)) h.
Proof.
  induction r as [|cr ar lr _ xr rr IH]; intros cx c a l x fuel Hf HR;
    (destruct fuel; [lia|]); simpl in *.
  - mrun (load_focus _ _ _ _ _ _ _ _ HR). done.
  - mrun (load_focus _ _ _ _ _ _ _ _ HR).
    eapply IH; [|apply (Rep_right _ _ _ _ _ _ _ _ HR)]. lia.
Qed.

(** From the sentinel, whose left slot holds the root. *)
Lemma while_left_sentinel h s t fuel :
  tsize t < fuel → Rep h s [] t →
  while_left fuel (Some s) h = Val (Some (leftmost_or s t)) h.
Proof.
  intros Hf HR. destruct fuel; [lia|]. simpl.
  pose proof (Rep_lookup_sentinel _ _ _ _ HR) as Hs. simpl in Hs.
  rewrite (bind_load _ _ _ _ Hs). simpl.
  destruct t as [|c a l x r]; [done|]. simpl.
  eapply while_left_spec; [|done]. simpl in Hf. lia.
Qed.

Lemma while_right_root h s c a l x r fuel :
  tsize (N c a l x r) < fuel → Rep h s [] (N c a l x r) →
  while_right fuel (Some a) h = Val (Some (rightmost_or a r)) h.
Proof.
  intros Hf HR. eapply while_right_spec; [|done]. simpl in Hf. lia.
Qed.

Lemma climb_from_right_spec h s :
  ∀ cx c a l x r fuel,
    length cx < fuel →
    Rep h s cx (N c a l x r) →
    climb_from_right fuel (Some a) h = Val (Some (left_ancestor s cx)) h.
Proof.
  induction cx as [|f cx IH]; intros c a l x r fuel Hf HR;
    (destruct fuel; [simpl in Hf; lia|]); simpl in *.
  - mrun (direction_spec _ _ _ _ _ _ _ _ HR).
    mrun (load_focus _ _ _ _ _ _ _ _ HR). done.
  - mrun (direction_spec _ _ _ _ _ _ _ _ HR).
    destruct (fleft f) eqn:Hfl; msimpl.
    + mrun (load_focus _ _ _ _ _ _ _ _ HR). done.
    + mrun (load_focus _ _ _ _ _ _ _ _ HR).
      eapply IH; [|apply (Rep_parent _ _ _ _ _ HR)]. lia.
Qed.

Lemma climb_from_left_spec h s :
  ∀ cx c a l x r fuel,
    length cx < fuel →
    Rep h s cx (N c a l x r) →
    (let* p := climb_from_left fuel (Some a) in
     let* n := load p in ret (parent n)) h
    = Val (Some (right_ancestor s cx)) h.
Proof.
  induction cx as [|f cx IH]; intros c a l x r fuel Hf HR;
    (destruct fuel; [simpl in Hf; lia|]); simpl in *; msimpl.
  - mrun (direction_spec _ _ _ _ _ _ _ _ HR).
    mrun (load_focus _ _ _ _ _ _ _ _ HR). done.
  - mrun (direction_spec _ _ _ _ _ _ _ _ HR).
    destruct (fleft f) eqn:Hfl; msimpl.
    + mrun (load_focus _ _ _ _ _ _ _ _ HR).
      eapply IH; [|apply (Rep_parent _ _ _ _ _ HR)]. lia.
    + mrun (load_focus _ _ _ _ _ _ _ _ HR). done.
Qed.

(** ** Increment and decrement *)

Lemma leftmost_or_in d t : leftmost_or d t = d ∨ leftmost_or d t ∈ addrs t.
Proof.
  revert d. induction t as [|c a l IH x r _]; intros d; simpl; [by left|].
  right. rewrite elem_of_app, elem_of_cons. destruct (IH a) as [->|?]; auto.
Qed.

Lemma rightmost_or_in d t : rightmost_or d t = d ∨ rightmost_or d t ∈ addrs t.
Proof.
  revert d. induction t as [|c a l _ x r IH]; intros d; simpl; [by left|].
  right. rewrite elem_of_app, elem_of_cons. destruct (IH a) as [->|?]; auto.
Qed.

Lemma Rep_sentinel_ne h s cx c a l x r : Rep h s cx (N c a l x r) → a ≠ s.
Proof. intros (Hnd & _). nd_norm Hnd. done. Qed.

Lemma map_wf_focus w this s cx t :
  map_wf w this s (plug cx t) → Rep (nodes w) s cx t.
Proof. intros (_ & HR). by apply Rep_plug. Qed.

Lemma fuel_focus h s cx c a l x r :
  Rep h s cx (N c a l x r) →
  tsize l < S (size h) ∧ tsize r < S (size h) ∧ length cx < S (size h).
Proof.
  intros HR%Rep_size. simpl in HR. rewrite length_app in HR. simpl in HR.
  rewrite !tsize_addrs. pose proof (length_caddrs cx). lia.
Qed.

(** [operator++] on an iterator to a node follows the successor rule. *)
Lemma iterator_incr_spec w this s cx c a l x r :
  map_wf w this s (plug cx (N c a l x r)) →
  iterator_incr (mkIter (Some this) (Some a)) w
  = Val (mkIter (Some this) (Some (successor s cx r))) w.
Proof.
  intros Hwf. pose proof (map_wf_focus _ _ _ _ _ Hwf) as HR.
  destruct Hwf as (Hobj & _).
  pose proof (fuel_focus _ _ _ _ _ _ _ _ HR) as (Hfl & Hfr & Hfc).
  unfold iterator_incr. rewrite bind_fuel_of.
  remember (S (size (nodes w))) as fuel eqn:Hfuel. simpl.
  mrun (load_map_val _ _ _ Hobj).
  rewrite ptr_eqb_Some_ne by apply (Rep_sentinel_ne _ _ _ _ _ _ _ _ HR).
  mrun (lift_val_same _ _ _ (load_focus _ _ _ _ _ _ _ _ HR)).
  unfold successor. destruct r as [|cr ar lr xr rr]; simpl.
  - by mrun (lift_val_same _ _ _ (climb_from_right_spec _ _ _ _ _ _ _ _ _ Hfc HR)).
  - pose proof (Rep_right _ _ _ _ _ _ _ _ HR) as HRr.
    simpl in Hfr. assert (Hf' : tsize lr < fuel) by lia.
    by mrun (lift_val_same _ _ _
               (while_left_spec _ _ _ _ _ _ _ _ _ Hf' HRr)).
Qed.

(** [begin()] is the leftmost node, or the sentinel of an empty map. *)
Lemma map_begin_spec w this s t :
  map_wf w this s t →
  map_begin (Some this) w = Val (mkIter (Some this) (Some (leftmost_or s t))) w.
Proof.
  intros (Hobj & HR). unfold map_begin. rewrite bind_fuel_of.
  mrun (load_map_val _ _ _ Hobj).
  pose proof (Rep_size _ _ _ _ HR) as Hsz. rewrite <- tsize_addrs in Hsz.
  simpl in Hsz. assert (Hf : tsize t < S (size (nodes w))) by lia.
  by rewrite (bind_val _ _ _ _ _
    (lift_val_same _ _ _ (while_left_sentinel _ _ _ _ Hf HR))).
Qed.

Lemma map_end_spec w this s t :
  map_wf w this s t →
  map_end (Some this) w = Val (mkIter (Some this) (Some s)) w.
Proof.
  intros (Hobj & HR). unfold map_end. by mrun (load_map_val _ _ _ Hobj).
Qed.

(** [operator--] throws at [begin()]. *)
Lemma iterator_decr_begin w this s t :
  map_wf w this s t →
  iterator_decr (mkIter (Some this) (Some (leftmost_or s t))) w
  = Throw invalid_iterator w.
Proof.
  intros (Hobj & HR). unfold iterator_decr. rewrite bind_fuel_of.
  mrun (load_map_val _ _ _ Hobj).
  pose proof (Rep_size _ _ _ _ HR) as Hsz. rewrite <- tsize_addrs in Hsz.
  simpl in Hsz. assert (Hf : tsize t < S (size (nodes w))) by lia.
  rewrite (bind_val _ _ _ _ _
    (lift_val_same _ _ _ (while_left_sentinel _ _ _ _ Hf HR))).
  by rewrite ptr_eqb_refl.
Qed.

(** [operator--] on an iterator to a node other than [begin()] follows the
    predecessor rule. *)
Lemma iterator_decr_spec w this s cx c a l x r :
  map_wf w this s (plug cx (N c a l x r)) →
  a ≠ leftmost_or s (plug cx (N c a l x r)) →
  iterator_decr (mkIter (Some this) (Some a)) w
  = Val (mkIter (Some this) (Some (predecessor s cx l))) w.
Proof.
  intros Hwf Hne. pose proof (map_wf_focus _ _ _ _ _ Hwf) as HR.
  destruct Hwf as (Hobj & HR0).
  pose proof (fuel_focus _ _ _ _ _ _ _ _ HR) as (Hfl & Hfr & Hfc).
  pose proof (Rep_size _ _ _ _ HR0) as Hsz. rewrite <- tsize_addrs in Hsz.
  simpl in Hsz.
  unfold iterator_decr. rewrite bind_fuel_of.
  remember (S (size (nodes w))) as fuel eqn:Hfuel. simpl.
  mrun (load_map_val _ _ _ Hobj).
  assert (Hf : tsize (plug cx (N c a l x r)) < fuel) by lia.
  mrun (lift_val_same _ _ _ (while_left_sentinel _ _ _ _ Hf HR0)).
  rewrite ptr_eqb_Some_ne by done.
  mrun (lift_val_same _ _ _ (load_focus _ _ _ _ _ _ _ _ HR)).
  unfold predecessor. destruct l as [|cl al ll xl rl]; simpl.
  - pose proof (climb_from_left_spec _ _ _ _ _ _ _ _ _ Hfc HR) as Hcl.
    unfold lift, bind. unfold bind in Hcl.
    destruct (climb_from_left fuel (Some a) (nodes w)) as [p h'| | |]; try done.
    simpl. destruct (load p h') as [n h''| | |]; try done.
    simpl in *. injection Hcl as -> ->. by destruct w.
  - pose proof (Rep_left _ _ _ _ _ _ _ _ HR) as HRl.
    simpl in Hfl. assert (Hf' : tsize rl < fuel) by lia.
    by mrun (lift_val_same _ _ _
               (while_right_spec _ _ _ _ _ _ _ _ _ Hf' HRl)).
Qed.

(** [operator--] on [end()] of a non-empty map gives the rightmost node. *)
Lemma iterator_decr_end w this s c a l x r :
  map_wf w this s (N c a l x r) →
  iterator_decr (mkIter (Some this) (Some s)) w
  = Val (mkIter (Some this) (Some (rightmost_or s (N c a l x r)))) w.
Proof.
  intros (Hobj & HR).
  pose proof (Rep_size _ _ _ _ HR) as Hsz. rewrite <- tsize_addrs in Hsz.
  simpl in Hsz.
  unfold iterator_decr. rewrite bind_fuel_of.
  remember (S (size (nodes w))) as fuel eqn:Hfuel. simpl.
  mrun (load_map_val _ _ _ Hobj).
  assert (Hf : tsize (N c a l x r) < fuel) by (simpl; lia).
  mrun (lift_val_same _ _ _ (while_left_sentinel _ _ _ _ Hf HR)).
  rewrite ptr_eqb_Some_ne.
  2:{ intros Heq. destruct HR as (Hnd & _).
      apply NoDup_cons_1_1 in Hnd. simpl in Hnd.
      simpl in Heq. apply Hnd.
      rewrite elem_of_app, elem_of_cons.
      destruct (leftmost_or_in a l) as [Hl|Hl]; rewrite <- Heq in Hl; auto. }
  pose proof (Rep_lookup_sentinel _ _ _ _ HR) as Hs. simpl in Hs.
  assert (Hld : load (Some s) (nodes w)
                = Val (mkNode RED None (Some a) None None) (nodes w)).
  { unfold load. rewrite Hs. reflexivity. }
  mrun (lift_val_same _ _ _ Hld).
  by mrun (lift_val_same _ _ _ (while_right_root _ _ _ _ _ _ _ _ Hf HR)).
Qed.

End iterators.


Section order_of_iteration.
Context {Key T : Type}.
Implicit Types (h : gmap nat (@RBTNode Key T)) (t l r m : @tree Key T)
  (cx : list (@frame Key T)) (f g : @frame Key T) (w : @world Key T).

(** ** Successor and predecessor in the order of iteration *)

Lemma leftmost_or_head d t : leftmost_or d t = default d (head (addrs t)).
Proof.
  revert d. induction t as [|c a l IH x r _]; intros d; simpl; [done|].
  rewrite IH. by destruct (addrs l).
Qed.

Lemma rightmost_or_last d t : rightmost_or d t = default d (last (addrs t)).
Proof.
  revert d. induction t as [|c a l _ x r IH]; intros d; simpl; [done|].
  rewrite IH, last_app. simpl. by destruct (addrs r) using rev_ind;
    [|rewrite last_cons, last_snoc].
Qed.

Lemma left_ancestor_head s cx :
  left_ancestor s cx = default s (head (cafter cx).*1).
Proof.
  induction cx as [|f cx IH]; simpl; [done|]. by destruct (fleft f).
Qed.

Lemma right_ancestor_last s cx :
  right_ancestor s cx = default s (last (cbefore cx).*1).
Proof.
  induction cx as [|f cx IH]; simpl; [done|].
  destruct (fleft f); simpl.
  - by rewrite app_nil_r.
  - rewrite app_assoc, fmap_app. simpl. by rewrite last_snoc.
Qed.

Lemma addrs_plug cx t :
  addrs (plug cx t) = (cbefore cx).*1 ++ addrs t ++ (cafter cx).*1.
Proof. by rewrite !addrs_cells, cells_plug, !fmap_app. Qed.

Lemma order_plug s cx c a l x r :
  order s (plug cx (N c a l x r))
  = ((cbefore cx).*1 ++ addrs l) ++ a :: (addrs r ++ (cafter cx).*1 ++ [s]).
Proof.
  unfold order. rewrite addrs_plug. simpl. by rewrite <- !app_assoc.
Qed.

Lemma successor_head s cx r :
  head (addrs r ++ (cafter cx).*1 ++ [s]) = Some (successor s cx r).
Proof.
  unfold successor. rewrite leftmost_or_head, left_ancestor_head.
  destruct (addrs r); [|done]. simpl. by destruct ((cafter cx).*1).
Qed.

Lemma predecessor_last s cx l :
  (cbefore cx).*1 ++ addrs l ≠ [] →
  last ((cbefore cx).*1 ++ addrs l) = Some (predecessor s cx l).
Proof.
  unfold predecessor. rewrite rightmost_or_last, right_ancestor_last.
  rewrite last_app. destruct (last (addrs l)) eqn:Hl; [done|]. simpl.
  apply last_None in Hl. rewrite Hl, app_nil_r.
  destruct (last (cbefore cx).*1) eqn:Hb; [done|].
  apply last_None in Hb. by rewrite Hb.
Qed.

(** Every node of the tree can be put in focus. *)
Lemma focus_exists a :
  ∀ t cx0, a ∈ addrs t →
    ∃ cx c l x r, plug cx0 t = plug cx (N c a l x r).
Proof.
  induction t as [|c b l IHl x r IHr]; intros cx0; simpl.
  - intros Hin. by apply elem_of_nil in Hin.
  - rewrite elem_of_app, elem_of_cons. intros [Hin|[->|Hin]].
    + apply (IHl (Frame true c b x r :: cx0) Hin).
    + by exists cx0, c, l, x, r.
    + apply (IHr (Frame false c b x l :: cx0) Hin).
Qed.

Lemma NoDup_split_unique (a : nat) (L1 L2 K1 K2 : list nat) :
  NoDup (L1 ++ a :: L2) → L1 ++ a :: L2 = K1 ++ a :: K2 → L1 = K1 ∧ L2 = K2.
Proof.
  revert K1. induction L1 as [|b L1 IH]; intros K1 Hnd Heq.
  - destruct K1 as [|b K1]; simpl in *.
    + by injection Heq as ->.
    + injection Heq as <- ->. apply NoDup_cons_1_1 in Hnd.
      exfalso. apply Hnd. set_solver.
  - destruct K1 as [|b' K1]; simpl in *.
    + injection Heq as -> <-. apply NoDup_cons_1_1 in Hnd.
      exfalso. apply Hnd. set_solver.
    + injection Heq as <- Heq. apply NoDup_cons_1_2 in Hnd.
      destruct (IH K1 Hnd Heq) as [-> ->]. done.
Qed.

Lemma snoc_cases (L1 : list nat) a (L2 L : list nat) s :
  L ++ [s] = L1 ++ a :: L2 → L2 ≠ [] → ∃ K, L = L1 ++ a :: K.
Proof.
  intros Heq Hne. destruct L2 as [|z L2 _] using rev_ind; [done|].
  exists L2. change (a :: L2 ++ [z]) with ((a :: L2) ++ [z]) in Heq.
  rewrite app_assoc in Heq. by apply app_inj_tail in Heq as [-> _].
Qed.

Lemma map_wf_NoDup_order w this s t : map_wf w this s t → NoDup (order s t).
Proof.
  intros (_ & Hnd & _). simpl in Hnd. unfold order.
  rewrite <- Permutation_cons_append. exact Hnd.
Qed.

(** [operator++] moves to the next position of the order. *)
Lemma iterator_incr_order w this s t (L1 L2 : list nat) a q :
  map_wf w this s t →
  order s t = L1 ++ a :: q :: L2 →
  iterator_incr (mkIter (Some this) (Some a)) w
  = Val (mkIter (Some this) (Some q)) w.
Proof.
  intros Hwf Ho. pose proof (map_wf_NoDup_order _ _ _ _ Hwf) as Hnd.
  assert (a ∈ addrs t) as Hin.
  { unfold order in Ho.
    destruct (snoc_cases L1 a (q :: L2) (addrs t) s) as (K & ->); [done|done|].
    set_solver. }
  destruct (focus_exists a t [] Hin) as (cx & c & l & x & r & Hpl).
  simpl in Hpl. subst t.
  rewrite (iterator_incr_spec _ _ _ _ _ _ _ _ _ Hwf).
  rewrite order_plug in Ho, Hnd.
  apply NoDup_split_unique in Ho as [_ Ho]; [|done].
  pose proof (successor_head s cx r) as Hh. rewrite Ho in Hh. simpl in Hh.
  by injection Hh as <-.
Qed.

Lemma order_head s t : head (order s t) = Some (leftmost_or s t).
Proof. unfold order. rewrite leftmost_or_head. by destruct (addrs t). Qed.

(** [operator--] moves to the previous position of the order. *)
Lemma iterator_decr_order w this s t (L1 L2 : list nat) a q :
  map_wf w this s t →
  order s t = L1 ++ q :: a :: L2 →
  iterator_decr (mkIter (Some this) (Some a)) w
  = Val (mkIter (Some this) (Some q)) w.
Proof.
  intros Hwf Ho. pose proof (map_wf_NoDup_order _ _ _ _ Hwf) as Hnd.
  assert (a ≠ leftmost_or s t) as Hbegin.
  { intros ->. pose proof (order_head s t) as Hh. rewrite Ho in Hh, Hnd.
    destruct L1 as [|z L1]; simpl in Hh; injection Hh as Hh.
    - rewrite <- Hh in Hnd. apply NoDup_cons_1_1 in Hnd. set_solver.
    - rewrite <- Hh in Hnd. apply NoDup_cons_1_1 in Hnd. set_solver. }
  destruct L2 as [|z L2 _] using rev_ind.
  - (* a is the last position: the sentinel *)
    unfold order in Ho. change (q :: [a]) with ([q] ++ [a]) in Ho.
    rewrite app_assoc in Ho. apply app_inj_tail in Ho as [Ht ->].
    destruct t as [|c b l x r]; [by destruct L1|].
    rewrite (iterator_decr_end _ _ _ _ _ _ _ _ Hwf).
    rewrite rightmost_or_last, Ht, last_snoc. done.
  - assert (a ∈ addrs t) as Hin.
    { unfold order in Ho.
      change (q :: a :: L2 ++ [z]) with ((q :: a :: L2) ++ [z]) in Ho.
      rewrite app_assoc in Ho. apply app_inj_tail in Ho as [-> _]. set_solver. }
    destruct (focus_exists a t [] Hin) as (cx & c & l & x & r & Hpl).
    simpl in Hpl. subst t.
    rewrite (iterator_decr_spec _ _ _ _ _ _ _ _ _ Hwf Hbegin).
    rewrite order_plug in Ho, Hnd.
    change (L1 ++ q :: a :: L2 ++ [z]) with (L1 ++ [q] ++ a :: L2 ++ [z]) in Ho.
    rewrite (app_assoc L1) in Ho.
    apply NoDup_split_unique in Ho as [Ho _]; [|done].
    rewrite <- (predecessor_last s) by (rewrite Ho; by destruct L1).
    by rewrite Ho, last_snoc.
Qed.

End order_of_iteration.


(** * The claims about lookup, insertion and iteration *)

Section claims.
Context {Key T : Type}.
Variable Compare : Key → Key → bool.
Variable T_default : T.
Hypothesis Hswo : StrictWeakOrder Compare.
Implicit Types (h : gmap nat (@RBTNode Key T)) (t l r m : @tree Key T)
  (cx : list (@frame Key T)) (f g : @frame Key T) (w : @world Key T)
  (k : Key) (v : T).

Local Arguments bind : simpl never.
Ltac msimpl := repeat (progress simpl || rewrite bind_ret || rewrite bind_bind).
Ltac mrun E :=
  let H := fresh in
  pose proof E as H; rewrite (bind_val _ _ _ _ _ H); clear H; msimpl.

(** A stored cell can be put in focus. *)
Lemma focus_cell a x :
  ∀ t cx0, (a, x) ∈ cells t →
    ∃ cx c l r, plug cx0 t = plug cx (N c a l x r).
Proof.
  induction t as [|c b l IHl y r IHr]; intros cx0; simpl.
  - intros Hin. by apply elem_of_nil in Hin.
  - rewrite elem_of_app, elem_of_cons. intros [Hin|[[= -> ->]|Hin]].
    + apply (IHl (Frame true c b y r :: cx0) Hin).
    + by exists cx0, c, l, r.
    + apply (IHr (Frame false c b y l :: cx0) Hin).
Qed.

Lemma load_data_cell w this s t a x :
  map_wf w this s t → (a, x) ∈ cells t →
  lift (load_data (Some a)) w = Val x w.
Proof.
  intros Hwf Hin. destruct (focus_cell a x t [] Hin) as (cx & c & l & r & Hpl).
  simpl in Hpl. subst t. apply map_wf_focus in Hwf.
  apply lift_val_same. by eapply load_data_focus.
Qed.

(** [find] from the root, on the world, followed by any continuation. *)
Lemma find_root_spec {B} (K : option nat → M (@world Key T) B) w this s t k :
  map_wf w this s t →
  (let* fuel := fuel_of in
   let* mo := load_map (Some this) in
   let* sn := lift (load (sentinel mo)) in
   let* p := lift (find_priv Compare fuel k (left sn)) in
   K p) w
  = K (root (locate Compare k [] t).2) w.
Proof.
  intros (Hobj & HR). rewrite bind_fuel_of.
  remember (S (size (nodes w))) as fuel eqn:Hfuel.
  mrun (load_map_val _ _ _ Hobj).
  pose proof (Rep_lookup_sentinel _ _ _ _ HR) as Hs. simpl in Hs.
  assert (Hld : load (Some s) (nodes w)
                = Val (mkNode RED None (root t) None None) (nodes w)).
  { unfold load. by rewrite Hs. }
  mrun (lift_val_same _ _ _ Hld).
  pose proof (Rep_size _ _ _ _ HR) as Hsz. rewrite <- tsize_addrs in Hsz.
  simpl in Hsz. assert (Hf : tsize t < fuel) by lia.
  by rewrite (bind_val _ _ _ _ _
    (lift_val_same _ _ _ (find_priv_spec Compare s k t [] fuel _ Hf HR))).
Qed.

Lemma present_cell k t :
  present Compare k t ↔ ∃ a x, (a, x) ∈ cells t ∧ equal_key Compare k (fst x) = true.
Proof.
  unfold present. rewrite elems_cells. split.
  - intros (x & Hx & He). apply list_elem_of_fmap in Hx as ([a x'] & -> & Hin).
    by exists a, x'.
  - intros (a & x & Hin & He). exists x. split; [|done].
    apply list_elem_of_fmap. by exists (a, x).
Qed.

(** What [find] returns: the one node with an equivalent key, or null. *)
Lemma locate_root k t :
  ordered Compare t →
  (∀ a x, (a, x) ∈ cells t → equal_key Compare k (fst x) = true →
          root (locate Compare k [] t).2 = Some a)
  ∧ (¬ present Compare k t → root (locate Compare k [] t).2 = None).
Proof.
  intros Ho. pose proof (locate_present Compare Hswo k t Ho) as Hloc.
  destruct (locate Compare k [] t) as [cx' [|c' a' l' x' r']]; simpl in *.
  - split; [|done]. intros a x Hin He. exfalso. apply Hloc, present_cell. eauto.
  - destruct Hloc as [Hin' He']. split.
    + intros a x Hin He.
      assert ((a, x) = (a', x')) as [= <- <-]; [|done].
      apply (sorted_cells_unique Compare (cells t)); try done.
      * by apply ordered_cells.
      * simpl. eapply (swo_equiv_trans _ Hswo); [|exact He'].
        by apply (eqv_sym Compare).
    + intros Habs. exfalso. apply Habs, present_cell. eauto.
Qed.

(** C5: [at(k)] returns a reference to the value mapped to the stored key
    equivalent to [k], and throws [index_out_of_bound], leaving the world as
    it is, when there is none. *)
Theorem C5_at_bounds_checked w this s t k :
  map_wf w this s t → ordered Compare t →
  (∀ a x, (a, x) ∈ cells t → equal_key Compare k (fst x) = true →
     map_at Compare (Some this) k w = Val (Some a) w
     ∧ load_second (Some a) w = Val (snd x) w)
  ∧ (¬ present Compare k t →
     map_at Compare (Some this) k w = Throw index_out_of_bound w).
Proof.
  intros Hwf Ho. destruct (locate_root k t Ho) as [Hp Ha].
  unfold map_at. rewrite (find_root_spec _ _ _ _ _ _ Hwf).
  split.
  - intros a x Hin He. rewrite (Hp a x Hin He). split; [done|].
    unfold load_second. by mrun (load_data_cell _ _ _ _ _ _ Hwf Hin).
  - intros Habs. by rewrite (Ha Habs).
Qed.

(** C3: [insert] of a pair whose key is equivalent to a stored key returns
    an iterator to the node that holds it together with [false], and leaves
    the whole world as it was: no link, colour, stored value or size
    changes. *)
Theorem C3_insert_existing_key w this s t k v a x :
  map_wf w this s t → ordered Compare t →
  (a, x) ∈ cells t → equal_key Compare k (fst x) = true →
  map_insert Compare (Some this) (k, v) w
  = Val (mkIter (Some this) (Some a), false) w
  ∧ iterator_deref (mkIter (Some this) (Some a)) w = Val x w
  ∧ map_size (Some this) w = Val (tsize t) w.
Proof.
  intros Hwf Ho Hin He. split_and!.
  - by eapply (map_insert_present Compare Hswo).
  - destruct (focus_cell a x t [] Hin) as (cx & c & l & r & Hpl).
    simpl in Hpl. subst t. pose proof (map_wf_focus _ _ _ _ _ Hwf) as HR.
    destruct Hwf as (Hobj & _). unfold iterator_deref. simpl.
    mrun (load_map_val _ _ _ Hobj).
    rewrite ptr_eqb_Some_ne by apply (Rep_sentinel_ne _ _ _ _ _ _ _ _ HR).
    apply lift_val_same. by eapply load_data_focus.
  - destruct Hwf as (Hobj & _). unfold map_size.
    by mrun (load_map_val _ _ _ Hobj).
Qed.

(** C4: mutable [operator[]] on an absent key inserts one element with the
    default value and adds one to the size; a second access returns the same
    element and changes nothing; the const [operator[]] throws
    [index_out_of_bound] instead. *)
Theorem C4_index_inserts_default w this s t k :
  map_wf w this s t → rb_tree Compare t → ¬ present Compare k t →
  ∃ w' T' a L1 L2,
    map_index Compare T_default (Some this) k w = Val (Some a) w'
    ∧ map_wf w' this s T'
    ∧ cells t = L1 ++ L2 ∧ cells T' = L1 ++ (a, (k, T_default)) :: L2
    ∧ map_size (Some this) w = Val (tsize t) w
    ∧ map_size (Some this) w' = Val (S (tsize t)) w'
    ∧ map_index Compare T_default (Some this) k w' = Val (Some a) w'
    ∧ map_index_const Compare (Some this) k w = Throw index_out_of_bound w.
Proof.
  intros Hwf Hrb Habs.
  destruct (map_insert_absent Compare Hswo w this s t k T_default Hwf Hrb Habs)
    as (w' & T' & L1 & L2 & Hins & Hwf' & Hrb' & Hc & Hc' & Hobjs).
  exists w', T', (fresh (dom (nodes w))), L1, L2.
  assert (Hsz : tsize T' = S (tsize t)).
  { rewrite !tsize_cells, Hc, Hc', !length_app. simpl. lia. }
  split_and!; try done.
  - unfold map_index. by mrun Hins.
  - destruct Hwf as (Hobj & _). unfold map_size.
    by mrun (load_map_val _ _ _ Hobj).
  - destruct Hwf' as (Hobj & _). unfold map_size.
    mrun (load_map_val _ _ _ Hobj). by rewrite Hsz.
  - unfold map_index.
    assert (Hin : (fresh (dom (nodes w)), (k, T_default)) ∈ cells T').
    { rewrite Hc'. set_solver. }
    by rewrite (bind_val _ _ _ _ _
      (map_insert_present Compare Hswo w' this s T' k T_default
         (fresh (dom (nodes w))) (k, T_default) Hwf' (proj1 Hrb') Hin
         (eqv_refl Compare Hswo k))).
  - unfold map_index_const. rewrite (find_root_spec _ _ _ _ _ _ Hwf).
    destruct (locate_root k t (proj1 Hrb)) as [_ Ha]. by rewrite (Ha Habs).
Qed.

(** C9: [insert] of [(k, v)] keeps every stored pair at its node — repairs
    touch colours and links only — so the pairs under keys other than [k]
    are the same before and after, and the keys afterwards are the old keys
    together with [k], keys being compared by the comparator. *)
Theorem C9_insert_frame w this s t k v :
  map_wf w this s t → rb_tree Compare t →
  ∃ res w' T',
    map_insert Compare (Some this) (k, v) w = Val res w'
    ∧ map_wf w' this s T'
    ∧ (∀ a x, (a, x) ∈ cells t → (a, x) ∈ cells T')
    ∧ (∀ x, fst x ≠ k → x ∈ elems T' ↔ x ∈ elems t)
    ∧ (∀ k', present Compare k' T'
             ↔ present Compare k' t ∨ equal_key Compare k' k = true)
    ∧ (present Compare k t → res.2 = false ∧ w' = w ∧ T' = t)
    ∧ (¬ present Compare k t →
         res.2 = true
         ∧ ∃ L1 L2, elems t = L1 ++ L2 ∧ elems T' = L1 ++ (k, v) :: L2).
Proof.
  intros Hwf Hrb.
  pose proof (locate_present Compare Hswo k t (proj1 Hrb)) as Hloc.
  destruct (locate Compare k [] t) as [cx' [|c' a' l' x' r']] eqn:Hl; simpl in Hloc.
  - (* absent *)
    destruct (map_insert_absent Compare Hswo w this s t k v Hwf Hrb Hloc)
      as (w' & T' & L1 & L2 & Hins & Hwf' & Hrb' & Hc & Hc' & Hobjs).
    eexists _, w', T'. split; [exact Hins|]. split; [done|].
    split_and!.
    + intros a x. rewrite Hc, Hc'. set_solver.
    + intros x Hx. rewrite !elems_cells, Hc, Hc', !fmap_app, fmap_cons.
      simpl. rewrite !elem_of_app, elem_of_cons.
      split; [intros [?|[->|?]]; [tauto|by destruct Hx|tauto] | tauto].
    + intros k'. rewrite !present_cell, Hc, Hc'. split.
      * intros (a & x & Hin & He). apply elem_of_app in Hin as [Hin|Hin].
        -- left. exists a, x. set_solver.
        -- apply elem_of_cons in Hin as [[= -> ->]|Hin]; [by right|].
           left. exists a, x. set_solver.
      * intros [(a & x & Hin & He)|He].
        -- exists a, x. set_solver.
        -- exists (fresh (dom (nodes w))), (k, v). set_solver.
    + intros Hp. done.
    + intros _. split; [done|]. exists L1.*2, L2.*2.
      by rewrite !elems_cells, Hc, Hc', !fmap_app.
  - (* present *)
    destruct Hloc as [Hin He].
    eexists _, w, t. split.
    { by apply (map_insert_present Compare Hswo w this s t k v a' x'
                  Hwf (proj1 Hrb) Hin He). }
    split; [done|]. split_and!; try done.
    + intros k'. split; [by left|]. intros [Hp|He']; [done|].
      apply present_cell. exists a', x'. split; [done|].
      by eapply (swo_equiv_trans _ Hswo).
    + intros Habs. exfalso. apply Habs, present_cell. eauto.
Qed.

(** C10: on [end()], [operator->] does no check and returns the null data
    pointer of the sentinel, while [operator*] throws [invalid_iterator]. *)
Theorem C10_arrow_unchecked_on_end w this s t :
  map_wf w this s t →
  ∃ e, map_end (Some this) w = Val e w
       ∧ iterator_arrow e w = Val None w
       ∧ iterator_deref e w = Throw invalid_iterator w.
Proof.
  intros Hwf. exists (mkIter (Some this) (Some s)).
  split; [by eapply map_end_spec|]. destruct Hwf as (Hobj & HR).
  pose proof (Rep_lookup_sentinel _ _ _ _ HR) as Hs. simpl in Hs.
  split.
  - unfold iterator_arrow. simpl.
    assert (Hld : load (Some s) (nodes w)
                  = Val (mkNode RED None (root t) None None) (nodes w)).
    { unfold load. by rewrite Hs. }
    by mrun (lift_val_same _ _ _ Hld).
  - unfold iterator_deref. simpl. mrun (load_map_val _ _ _ Hobj).
    by rewrite ptr_eqb_refl.
Qed.

(** C6: incrementing [end()] and decrementing [begin()] throw
    [invalid_iterator], for the empty map too; the world is as before. *)
Theorem C6_iterator_boundaries w this s t :
  map_wf w this s t →
  ∃ e b, map_end (Some this) w = Val e w
         ∧ map_begin (Some this) w = Val b w
         ∧ iterator_incr e w = Throw invalid_iterator w
         ∧ iterator_decr b w = Throw invalid_iterator w.
Proof.
  intros Hwf.
  exists (mkIter (Some this) (Some s)), (mkIter (Some this) (Some (leftmost_or s t))).
  split_and!.
  - by eapply map_end_spec.
  - by eapply map_begin_spec.
  - destruct Hwf as (Hobj & HR). unfold iterator_incr. rewrite bind_fuel_of.
    simpl. mrun (load_map_val _ _ _ Hobj). by rewrite ptr_eqb_refl.
  - by eapply iterator_decr_begin.
Qed.

(** C8: increment follows the successor rule and, away from the boundaries,
    increment and decrement undo each other. *)
Theorem C8_increment_decrement_inverse w this s t :
  map_wf w this s t →
  let it p := mkIter (Some this) (Some p) in
  map_end (Some this) w = Val (it s) w
  ∧ map_begin (Some this) w = Val (it (leftmost_or s t)) w
  ∧ (∀ cx c a l x r, t = plug cx (N c a l x r) →
       iterator_incr (it a) w = Val (it (successor s cx r)) w)
  ∧ (∀ p, p ∈ order s t → p ≠ s →
       ∃ q, iterator_incr (it p) w = Val (it q) w
            ∧ iterator_decr (it q) w = Val (it p) w)
  ∧ (∀ p, p ∈ order s t → p ≠ leftmost_or s t →
       ∃ q, iterator_decr (it p) w = Val (it q) w
            ∧ iterator_incr (it q) w = Val (it p) w).
Proof.
  intros Hwf it. split_and!.
  - by eapply map_end_spec.
  - by eapply map_begin_spec.
  - intros cx c a l x r ->. by apply (iterator_incr_spec _ _ _ _ c a l x r).
  - intros p Hin Hne. apply list_elem_of_split in Hin as (L1 & L2 & Ho).
    destruct L2 as [|q L2].
    { unfold order in Ho. apply app_inj_tail in Ho as [_ ->]. done. }
    exists q. split.
    + by eapply iterator_incr_order.
    + by eapply iterator_decr_order.
  - intros p Hin Hne. apply list_elem_of_split in Hin as (L1 & L2 & Ho).
    destruct L1 as [|q L1 _] using rev_ind.
    { pose proof (order_head s t) as Hh. rewrite Ho in Hh. simpl in Hh.
      by injection Hh as ->. }
    rewrite <- app_assoc in Ho. simpl in Ho.
    exists q. split.
    + by eapply iterator_decr_order.
    + by eapply iterator_incr_order.
Qed.

End claims.


(** * Removal *)

Section remove_fixup.
Context {Key T : Type}.
Implicit Types (h : gmap nat (@RBTNode Key T)) (t l r m : @tree Key T)
  (cx : list (@frame Key T)) (f g : @frame Key T).

Local Arguments bind : simpl never.
Local Arguments load : simpl never.
Local Arguments store : simpl never.
Local Arguments isRoot : simpl never.
Local Arguments direction : simpl never.
Local Arguments sibling : simpl never.
Local Arguments hasSibling : simpl never.
Local Arguments isRed : simpl never.
Local Arguments isBlack : simpl never.
Local Arguments rotateLeft : simpl never.
Local Arguments rotateRight : simpl never.
Local Arguments fill : simpl never.

Ltac msimpl := repeat (progress simpl || rewrite bind_ret || rewrite bind_bind).
Ltac mrun E :=
  let H := fresh in
  pose proof E as H; rewrite (bind_val _ _ _ _ _ H); clear H; msimpl.

(** ** Reading the colour of a possibly missing node *)

Lemma black_or_null_spec h s cx t :
  Rep h s cx t →
  (if is_null (root t) then ret true else isBlack (root t)) h
  = Val (Color_eqb (col t) BLACK) h.
Proof.
  intros HR. destruct t as [|c a l x r]; [done|]. simpl.
  by rewrite (isBlack_spec _ _ _ _ _ _ _ _ HR).
Qed.

Lemma red_and_not_null_spec h s cx t :
  Rep h s cx t →
  (if negb (is_null (root t)) then isRed (root t) else ret false) h
  = Val (Color_eqb (col t) RED) h.
Proof.
  intros HR. destruct t as [|c a l x r]; [done|]. simpl.
  by rewrite (isRed_spec _ _ _ _ _ _ _ _ HR).
Qed.

Lemma black_and_not_null_spec h s cx t :
  Rep h s cx t →
  (if negb (is_null (root t)) then isBlack (root t) else ret false) h
  = Val (match t with N BLACK _ _ _ _ => true | _ => false end) h.
Proof.
  intros HR. destruct t as [|c a l x r]; [done|]. simpl.
  rewrite (isBlack_spec _ _ _ _ _ _ _ _ HR). by destruct c.
Qed.

(** ** Cases 2 to 5 *)

Lemma maintainAfterRemove_black_left recur h s cf pf xf sib cx c a l x r fs flag :
  Rep h s (Frame true cf pf xf sib :: cx) (N c a l x r) →
  fixD_black (Frame true cf pf xf sib) = Some (fs, flag) →
  ∃ h', Rep h' s (fs ++ cx) (N c a l x r)
        ∧ maintainAfterRemove_black recur (Some s) (Some a) LEFT (root sib) h
          = (if flag then recur (Some pf) h' else Val tt h').
Proof.
  intros HR Hfix. unfold fixD_black in Hfix. simpl in Hfix.
  destruct sib as [|[] sa sl sx sr]; try done.
  pose proof (Rep_parent _ _ _ _ _ HR) as HRp. simpl in HRp.
  pose proof (Rep_right _ _ _ _ _ _ _ _ HRp) as HRs.
  pose proof (Rep_left _ _ _ _ _ _ _ _ HRs) as HRc.
  pose proof (Rep_right _ _ _ _ _ _ _ _ HRs) as HRd.
  unfold maintainAfterRemove_black. simpl root.
  mrun (load_focus _ _ _ _ _ _ _ _ HRs).
  mrun (black_or_null_spec _ _ _ _ HRc).
  mrun (black_or_null_spec _ _ _ _ HRd).
  mrun (isBlack_spec _ _ _ _ _ _ _ _ HRs).
  destruct (col sl) eqn:Hcl; simpl in Hfix |- *.
  - (* Case 4 then 5: close nephew RED *)
    destruct sl as [|ccl ca cl cv cr]; [done|]. simpl in Hcl. subst ccl.
    injection Hfix as <- <-. simpl.
    mrun (isRed_spec _ _ _ _ _ _ _ _ HRc).
    destruct (rotateRight_spec _ _ _ _ _ _ _ _ _ _ _ _ HRs) as (h1 & E1 & R1).
    mrun E1.
    destruct (store_color_spec _ _ _ _ _ _ _ _ BLACK R1) as (h2 & E2 & R2).
    mrun E2.
    pose proof (Rep_right _ _ _ _ _ _ _ _ R2) as R2s.
    destruct (store_color_spec _ _ _ _ _ _ _ _ RED R2s) as (h3 & E3 & R3s).
    mrun E3.
    pose proof (Rep_up _ _ _ _ _ R3s) as R3c. unfold fill in R3c. simpl in R3c.
    pose proof (Rep_sibling _ _ _ _ _ R3c) as R3n. simpl in R3n.
    mrun (sibling_spec _ _ _ _ _ _ _ _ _ R3n).
    mrun (load_focus _ _ _ _ _ _ _ _ R3c).
    mrun (isRed_spec _ _ _ _ _ _ _ _ R3s).
    mrun (load_focus _ _ _ _ _ _ _ _ R3n).
    pose proof (Rep_parent _ _ _ _ _ R3n) as R3p. simpl in R3p.
    destruct (rotateLeft_spec _ _ _ _ _ _ _ _ _ _ _ _ R3p) as (h4 & E4 & R4).
    mrun E4.
    pose proof (Rep_left _ _ _ _ _ _ _ _ R4) as R4p.
    pose proof (Rep_left _ _ _ _ _ _ _ _ R4p) as R4n.
    mrun (load_focus _ _ _ _ _ _ _ _ R4n).
    mrun (load_focus _ _ _ _ _ _ _ _ R4p).
    destruct (store_color_spec _ _ _ _ _ _ _ _ cf R4) as (h5 & E5 & R5).
    mrun E5.
    pose proof (Rep_left _ _ _ _ _ _ _ _ R5) as R5p.
    pose proof (Rep_left _ _ _ _ _ _ _ _ R5p) as R5n.
    mrun (load_focus _ _ _ _ _ _ _ _ R5n).
    destruct (store_color_spec _ _ _ _ _ _ _ _ BLACK R5p) as (h6 & E6 & R6p).
    mrun E6.
    pose proof (Rep_up _ _ _ _ _ R6p) as R6. unfold fill in R6. simpl in R6.
    pose proof (Rep_right _ _ _ _ _ _ _ _ R6) as R6d.
    destruct (store_color_spec _ _ _ _ _ _ _ _ BLACK R6d) as (h7 & E7 & R7d).
    rewrite E7. exists h7. split; [|done].
    pose proof (Rep_up _ _ _ _ _ R7d) as R7. unfold fill in R7. simpl in R7.
    by apply Rep_left, Rep_left in R7.
  - destruct (col sr) eqn:Hcr; simpl in Hfix |- *.
    + (* Case 5: distant nephew RED *)
      injection Hfix as <- <-.
      destruct sr as [|cd da dl dv dr]; [done|]. simpl in Hcr. subst cd.
      mrun (red_and_not_null_spec _ _ _ _ HRc). rewrite Hcl. msimpl.
      mrun (isRed_spec _ _ _ _ _ _ _ _ HRd).
      mrun (load_focus _ _ _ _ _ _ _ _ HR).
      destruct (rotateLeft_spec _ _ _ _ _ _ _ _ _ _ _ _ HRp) as (h4 & E4 & R4).
      mrun E4.
      pose proof (Rep_left _ _ _ _ _ _ _ _ R4) as R4p.
      pose proof (Rep_left _ _ _ _ _ _ _ _ R4p) as R4n.
      mrun (load_focus _ _ _ _ _ _ _ _ R4n).
      mrun (load_focus _ _ _ _ _ _ _ _ R4p).
      destruct (store_color_spec _ _ _ _ _ _ _ _ cf R4) as (h5 & E5 & R5).
      mrun E5.
      pose proof (Rep_left _ _ _ _ _ _ _ _ R5) as R5p.
      pose proof (Rep_left _ _ _ _ _ _ _ _ R5p) as R5n.
      mrun (load_focus _ _ _ _ _ _ _ _ R5n).
      destruct (store_color_spec _ _ _ _ _ _ _ _ BLACK R5p) as (h6 & E6 & R6p).
      mrun E6.
      pose proof (Rep_up _ _ _ _ _ R6p) as R6. unfold fill in R6. simpl in R6.
      pose proof (Rep_right _ _ _ _ _ _ _ _ R6) as R6d.
      destruct (store_color_spec _ _ _ _ _ _ _ _ BLACK R6d) as (h7 & E7 & R7d).
      rewrite E7. exists h7. split; [|done].
      pose proof (Rep_up _ _ _ _ _ R7d) as R7. unfold fill in R7. simpl in R7.
      by apply Rep_left, Rep_left in R7.
    + (* Cases 2 and 3: both nephews BLACK *)
      injection Hfix as <- <-.
      mrun (load_focus _ _ _ _ _ _ _ _ HR).
      mrun (isRed_spec _ _ _ _ _ _ _ _ HRp).
      destruct (store_color_spec _ _ _ _ _ _ _ _ RED HRs) as (h1 & E1 & R1s).
      pose proof (Rep_sibling _ _ _ _ _ R1s) as R1n. simpl in R1n.
      destruct cf; simpl.
      * mrun E1. mrun (load_focus _ _ _ _ _ _ _ _ R1n).
        pose proof (Rep_parent _ _ _ _ _ R1n) as R1p. simpl in R1p.
        destruct (store_color_spec _ _ _ _ _ _ _ _ BLACK R1p) as (h2 & E2 & R2).
        rewrite E2. exists h2. split; [|done]. by apply Rep_left in R2.
      * mrun E1. mrun (load_focus _ _ _ _ _ _ _ _ R1n).
        exists h1. split; [|done]. done.
Qed.

Lemma maintainAfterRemove_black_right recur h s cf pf xf sib cx c a l x r fs flag :
  Rep h s (Frame false cf pf xf sib :: cx) (N c a l x r) →
  fixD_black (Frame false cf pf xf sib) = Some (fs, flag) →
  ∃ h', Rep h' s (fs ++ cx) (N c a l x r)
        ∧ maintainAfterRemove_black recur (Some s) (Some a) RIGHT (root sib) h
          = (if flag then recur (Some pf) h' else Val tt h').
Proof.
  intros HR Hfix. unfold fixD_black in Hfix. simpl in Hfix.
  destruct sib as [|[] sa sl sx sr]; try done.
  pose proof (Rep_parent _ _ _ _ _ HR) as HRp. simpl in HRp.
  pose proof (Rep_left _ _ _ _ _ _ _ _ HRp) as HRs.
  pose proof (Rep_right _ _ _ _ _ _ _ _ HRs) as HRc.
  pose proof (Rep_left _ _ _ _ _ _ _ _ HRs) as HRd.
  unfold maintainAfterRemove_black. simpl root.
  mrun (load_focus _ _ _ _ _ _ _ _ HRs).
  mrun (black_or_null_spec _ _ _ _ HRc).
  mrun (black_or_null_spec _ _ _ _ HRd).
  mrun (isBlack_spec _ _ _ _ _ _ _ _ HRs).
  destruct (col sr) eqn:Hcl; simpl in Hfix |- *.
  - (* Case 4 then 5: close nephew RED *)
    destruct sr as [|ccl ca cl cv cr]; [done|]. simpl in Hcl. subst ccl.
    injection Hfix as <- <-. simpl.
    mrun (isRed_spec _ _ _ _ _ _ _ _ HRc).
    destruct (rotateLeft_spec _ _ _ _ _ _ _ _ _ _ _ _ HRs) as (h1 & E1 & R1).
    mrun E1.
    destruct (store_color_spec _ _ _ _ _ _ _ _ BLACK R1) as (h2 & E2 & R2).
    mrun E2.
    pose proof (Rep_left _ _ _ _ _ _ _ _ R2) as R2s.
    destruct (store_color_spec _ _ _ _ _ _ _ _ RED R2s) as (h3 & E3 & R3s).
    mrun E3.
    pose proof (Rep_up _ _ _ _ _ R3s) as R3c. unfold fill in R3c. simpl in R3c.
    pose proof (Rep_sibling _ _ _ _ _ R3c) as R3n. simpl in R3n.
    mrun (sibling_spec _ _ _ _ _ _ _ _ _ R3n).
    mrun (load_focus _ _ _ _ _ _ _ _ R3c).
    mrun (isRed_spec _ _ _ _ _ _ _ _ R3s).
    mrun (load_focus _ _ _ _ _ _ _ _ R3n).
    pose proof (Rep_parent _ _ _ _ _ R3n) as R3p. simpl in R3p.
    destruct (rotateRight_spec _ _ _ _ _ _ _ _ _ _ _ _ R3p) as (h4 & E4 & R4).
    mrun E4.
    pose proof (Rep_right _ _ _ _ _ _ _ _ R4) as R4p.
    pose proof (Rep_right _ _ _ _ _ _ _ _ R4p) as R4n.
    mrun (load_focus _ _ _ _ _ _ _ _ R4n).
    mrun (load_focus _ _ _ _ _ _ _ _ R4p).
    destruct (store_color_spec _ _ _ _ _ _ _ _ cf R4) as (h5 & E5 & R5).
    mrun E5.
    pose proof (Rep_right _ _ _ _ _ _ _ _ R5) as R5p.
    pose proof (Rep_right _ _ _ _ _ _ _ _ R5p) as R5n.
    mrun (load_focus _ _ _ _ _ _ _ _ R5n).
    destruct (store_color_spec _ _ _ _ _ _ _ _ BLACK R5p) as (h6 & E6 & R6p).
    mrun E6.
    pose proof (Rep_up _ _ _ _ _ R6p) as R6. unfold fill in R6. simpl in R6.
    pose proof (Rep_left _ _ _ _ _ _ _ _ R6) as R6d.
    destruct (store_color_spec _ _ _ _ _ _ _ _ BLACK R6d) as (h7 & E7 & R7d).
    rewrite E7. exists h7. split; [|done].
    pose proof (Rep_up _ _ _ _ _ R7d) as R7. unfold fill in R7. simpl in R7.
    by apply Rep_right, Rep_right in R7.
  - destruct (col sl) eqn:Hcr; simpl in Hfix |- *.
    + (* Case 5: distant nephew RED *)
      injection Hfix as <- <-.
      destruct sl as [|cd da dl dv dr]; [done|]. simpl in Hcr. subst cd.
      mrun (red_and_not_null_spec _ _ _ _ HRc). rewrite Hcl. msimpl.
      mrun (isRed_spec _ _ _ _ _ _ _ _ HRd).
      mrun (load_focus _ _ _ _ _ _ _ _ HR).
      destruct (rotateRight_spec _ _ _ _ _ _ _ _ _ _ _ _ HRp) as (h4 & E4 & R4).
      mrun E4.
      pose proof (Rep_right _ _ _ _ _ _ _ _ R4) as R4p.
      pose proof (Rep_right _ _ _ _ _ _ _ _ R4p) as R4n.
      mrun (load_focus _ _ _ _ _ _ _ _ R4n).
      mrun (load_focus _ _ _ _ _ _ _ _ R4p).
      destruct (store_color_spec _ _ _ _ _ _ _ _ cf R4) as (h5 & E5 & R5).
      mrun E5.
      pose proof (Rep_right _ _ _ _ _ _ _ _ R5) as R5p.
      pose proof (Rep_right _ _ _ _ _ _ _ _ R5p) as R5n.
      mrun (load_focus _ _ _ _ _ _ _ _ R5n).
      destruct (store_color_spec _ _ _ _ _ _ _ _ BLACK R5p) as (h6 & E6 & R6p).
      mrun E6.
      pose proof (Rep_up _ _ _ _ _ R6p) as R6. unfold fill in R6. simpl in R6.
      pose proof (Rep_left _ _ _ _ _ _ _ _ R6) as R6d.
      destruct (store_color_spec _ _ _ _ _ _ _ _ BLACK R6d) as (h7 & E7 & R7d).
      rewrite E7. exists h7. split; [|done].
      pose proof (Rep_up _ _ _ _ _ R7d) as R7. unfold fill in R7. simpl in R7.
      by apply Rep_right, Rep_right in R7.
    + (* Cases 2 and 3: both nephews BLACK *)
      injection Hfix as <- <-.
      mrun (load_focus _ _ _ _ _ _ _ _ HR).
      mrun (isRed_spec _ _ _ _ _ _ _ _ HRp).
      destruct (store_color_spec _ _ _ _ _ _ _ _ RED HRs) as (h1 & E1 & R1s).
      pose proof (Rep_sibling _ _ _ _ _ R1s) as R1n. simpl in R1n.
      destruct cf; simpl.
      * mrun E1. mrun (load_focus _ _ _ _ _ _ _ _ R1n).
        pose proof (Rep_parent _ _ _ _ _ R1n) as R1p. simpl in R1p.
        destruct (store_color_spec _ _ _ _ _ _ _ _ BLACK R1p) as (h2 & E2 & R2).
        rewrite E2. exists h2. split; [|done]. by apply Rep_right in R2.
      * mrun E1. mrun (load_focus _ _ _ _ _ _ _ _ R1n).
        exists h1. split; [|done]. done.
Qed.


Lemma fixD_black_recur f fs :
  fixD_black f = Some (fs, true) →
  fcol f = BLACK
  ∧ ∃ sib', fs = [Frame (fleft f) BLACK (faddr f) (fval f) sib'].
Proof.
  unfold fixD_black. destruct (fsib f) as [|[] sa sl sx sr]; try done.
  destruct (col (if fleft f then sl else sr)) eqn:Hc.
  - destruct (if fleft f then sl else sr); [done|]. by intros [= <-].
  - destruct (col (if fleft f then sr else sl)); [done|].
    intros [= <- Hb]. apply bool_decide_eq_true in Hb. eauto.
Qed.

Lemma maintainAfterRemove_black_spec recur h s f cx c a l x r fs flag :
  Rep h s (f :: cx) (N c a l x r) →
  fixD_black f = Some (fs, flag) →
  ∃ h', Rep h' s (fs ++ cx) (N c a l x r)
        ∧ maintainAfterRemove_black recur (Some s) (Some a)
            (cdir (f :: cx)) (root (fsib f)) h
          = (if flag then recur (Some (faddr f)) h' else Val tt h').
Proof.
  destruct f as [[] cf pf xf sib]; simpl.
  - apply maintainAfterRemove_black_left.
  - apply maintainAfterRemove_black_right.
Qed.

Local Arguments maintainAfterRemove_black : simpl never.
Local Arguments fixD_black : simpl never.

(** [maintainAfterRemove] computes [fixD]: it leaves the node in focus as it
    is and rebuilds the context above it. *)
Lemma maintainAfterRemove_spec s :
  ∀ cx c a l x r fuel h cx',
    length cx < fuel →
    fixD c cx = Some cx' →
    Rep h s cx (N c a l x r) →
    ∃ h', maintainAfterRemove fuel (Some s) (Some a) h = Val tt h'
          ∧ Rep h' s cx' (N c a l x r).
Proof.
  induction cx as [|f cx IH]; intros c a l x r fuel h cx' Hfuel Hfix HR;
    (destruct fuel; [simpl in Hfuel; lia|]); simpl maintainAfterRemove.
  { mrun (isRoot_nil _ _ _ _ _ _ _ HR). injection Hfix as <-. eauto. }
  mrun (isRoot_cons _ _ _ _ _ _ _ _ _ HR).
  mrun (isBlack_spec _ _ _ _ _ _ _ _ HR).
  destruct c; [done|]. simpl.
  mrun (hasSibling_spec _ _ _ _ _ _ _ _ HR).
  pose proof (Rep_sibling _ _ _ _ _ HR) as HRs.
  pose proof (Rep_parent _ _ _ _ _ HR) as HRp.
  destruct f as [fl cf pf xf [|cs sa sl sx sr]]; [done|]. simpl in *.
  rewrite bind_ret.
  mrun (direction_spec _ _ _ _ _ _ _ _ HR).
  mrun (sibling_spec _ _ _ _ _ _ _ _ _ HR).
  mrun (isRed_spec _ _ _ _ _ _ _ _ HRs).
  destruct cs; msimpl.
  - (* Case 1: sibling RED *)
    mrun (load_focus _ _ _ _ _ _ _ _ HR).
    mrun (isBlack_spec _ _ _ _ _ _ _ _ HRp).
    destruct cf; [done|]. msimpl.
    mrun (load_focus _ _ _ _ _ _ _ _ HRs).
    pose proof (Rep_left _ _ _ _ _ _ _ _ HRs) as HRsl.
    pose proof (Rep_right _ _ _ _ _ _ _ _ HRs) as HRsr.
    mrun (black_and_not_null_spec _ _ _ _ HRsl).
    destruct sl as [|[] la ll lx lr]; try (simpl in Hfix; by repeat case_match). msimpl.
    mrun (load_focus _ _ _ _ _ _ _ _ HRs).
    mrun (black_and_not_null_spec _ _ _ _ HRsr).
    destruct sr as [|[] ra rl rx rr]; try (simpl in Hfix; by repeat case_match). msimpl.
    mrun (load_focus _ _ _ _ _ _ _ _ HR).
    destruct fl; msimpl.
    + destruct (rotateLeft_spec _ _ _ _ _ _ _ _ _ _ _ _ HRp) as (h1 & E1 & R1).
      mrun E1.
      destruct (store_color_spec _ _ _ _ _ _ _ _ BLACK R1) as (h2 & E2 & R2).
      mrun E2.
      pose proof (Rep_left _ _ _ _ _ _ _ _ R2) as R2p.
      destruct (store_color_spec _ _ _ _ _ _ _ _ RED R2p) as (h3 & E3 & R3p).
      mrun E3.
      pose proof (Rep_left _ _ _ _ _ _ _ _ R3p) as R3n.
      mrun (sibling_spec _ _ _ _ _ _ _ _ _ R3n).
      destruct (fixD_black _) as [[fs []]|] eqn:Hb; try done.
      injection Hfix as <-.
      destruct (maintainAfterRemove_black_spec (maintainAfterRemove fuel (Some s))
                  _ _ _ _ _ _ _ _ _ _ _ R3n Hb) as (h' & R' & E').
      simpl in E'. rewrite E'. exists h'. by split.
    + destruct (rotateRight_spec _ _ _ _ _ _ _ _ _ _ _ _ HRp) as (h1 & E1 & R1).
      mrun E1.
      destruct (store_color_spec _ _ _ _ _ _ _ _ BLACK R1) as (h2 & E2 & R2).
      mrun E2.
      pose proof (Rep_right _ _ _ _ _ _ _ _ R2) as R2p.
      destruct (store_color_spec _ _ _ _ _ _ _ _ RED R2p) as (h3 & E3 & R3p).
      mrun E3.
      pose proof (Rep_right _ _ _ _ _ _ _ _ R3p) as R3n.
      mrun (sibling_spec _ _ _ _ _ _ _ _ _ R3n).
      destruct (fixD_black _) as [[fs []]|] eqn:Hb; try done.
      injection Hfix as <-.
      destruct (maintainAfterRemove_black_spec (maintainAfterRemove fuel (Some s))
                  _ _ _ _ _ _ _ _ _ _ _ R3n Hb) as (h' & R' & E').
      simpl in E'. rewrite E'. exists h'. by split.
  - (* sibling BLACK *)
    destruct (fixD_black _) as [[fs flag]|] eqn:Hb; [|done].
    destruct (maintainAfterRemove_black_spec (maintainAfterRemove fuel (Some s))
                _ _ _ _ _ _ _ _ _ _ _ HR Hb) as (h1 & R1 & E1).
    simpl in E1. rewrite E1. destruct flag.
    + destruct (fixD BLACK cx) as [cx''|] eqn:Hrec; [|done].
      injection Hfix as <-.
      apply fixD_black_recur in Hb as (Hcf & sib' & ->). simpl in *. subst cf.
      pose proof (Rep_parent _ _ _ _ _ R1) as R1p. simpl in R1p.
      destruct (IH _ _ _ _ _ fuel h1 cx'' ltac:(lia) Hrec R1p) as (h' & E' & R').
      exists h'. split; [done|]. by apply Rep_child.
    + injection Hfix as <-. eauto.
Qed.

End remove_fixup.


(** ** Exchanging a node with its successor *)

Section segments.
Context {Key T : Type}.
Implicit Types (h : gmap nat (@RBTNode Key T)) (t l r m : @tree Key T)
  (cx : list (@frame Key T)) (f g : @frame Key T).

Lemma caddrs_app cx1 cx2 : caddrs (cx1 ++ cx2) = caddrs cx1 ++ caddrs cx2.
Proof.
  induction cx1 as [|f cx1 IH]; simpl; [done|].
  by rewrite IH, <- app_assoc.
Qed.

Lemma cparent_app_cons s cx1 f cx2 cx2' :
  cparent s (cx1 ++ f :: cx2) = cparent s (cx1 ++ f :: cx2').
Proof. by destruct cx1. Qed.

(** The frames above a prefix of the context. *)
Lemma crep_app_r h s cx1 cx2 hole :
  crep h s (cx1 ++ cx2) hole → ∃ hole', crep h s cx2 hole'.
Proof.
  revert hole. induction cx1 as [|f cx1 IH]; simpl; intros hole.
  - eauto.
  - intros (_ & _ & Hc). eauto.
Qed.

(** A prefix of the context that a heap update leaves alone can be put
    back over the updated frames. *)
Lemma crep_split h s cx1 f cx2 hole :
  crep h s (cx1 ++ f :: cx2) hole →
  ∃ hole', crep h s (f :: cx2) hole'
    ∧ ∀ h' cx2', (∀ a, a ∈ caddrs cx1 → h' !! a = h !! a) →
        crep h' s (f :: cx2') hole' → crep h' s (cx1 ++ f :: cx2') hole.
Proof.
  revert hole. induction cx1 as [|g cx1 IH]; intros hole.
  - intros Hc. exists hole. split; [done|]. by intros h' cx2' _.
  - simpl. intros (Hg & Hs & Hc).
    destruct (IH _ Hc) as (hole' & Hf & Hback). exists hole'. split; [done|].
    intros h' cx2' Hfr Hc'. split_and!.
    + rewrite Hfr by set_solver. rewrite Hg.
      by rewrite (cparent_app_cons s cx1 f cx2 cx2').
    + eapply rep_frame; [|done]. intros; apply Hfr. set_solver.
    + apply Hback; [|done]. intros; apply Hfr. set_solver.
Qed.

Lemma lookup_insert_notin h (L : list nat) a k n :
  k ∈ L → a ∉ L → <[a := n]> h !! k = h !! k.
Proof. intros Hk Ha. apply lookup_insert_ne. by intros ->. Qed.

Lemma ptr_eqb_None_Some a : ptr_eqb None (Some a) = false.
Proof. done. Qed.

Lemma ptr_eqb_root t a : a ∉ addrs t → ptr_eqb (root t) (Some a) = false.
Proof. intros H. apply ptr_eqb_ne. by apply root_not_addrs. Qed.

(** ** Invariant 5 from the representation *)

Lemma rep_links h par t :
  rep h par t → ∀ a, a ∈ addrs t → links_consistent h a.
Proof.
  revert par. induction t as [|c a l IHl x r IHr]; simpl; intros par.
  - intros _ b Hb. by apply elem_of_nil in Hb.
  - intros (Ha & Hl & Hr) b Hb.
    rewrite elem_of_app, elem_of_cons in Hb. destruct Hb as [Hb|[->|Hb]].
    + by eapply IHl.
    + intros n ch Hn Hch. rewrite Ha in Hn. injection Hn as <-. simpl in Hch.
      destruct Hch as [Hch|Hch].
      * destruct l as [|cl al ll xl rl]; [done|]. simpl in *.
        injection Hch as <-. destruct Hl as (Hl & _). eauto.
      * destruct r as [|cr ar lr xr rr]; [done|]. simpl in *.
        injection Hch as <-. destruct Hr as (Hr & _). eauto.
    + by eapply IHr.
Qed.

Lemma Rep_links h s t :
  Rep h s [] t → ∀ a, a ∈ s :: addrs t → links_consistent h a.
Proof.
  intros (_ & Hs & Ht) a Ha. simpl in *.
  apply elem_of_cons in Ha as [->|Ha]; [|by eapply rep_links].
  intros n ch Hn Hch. rewrite Hs in Hn. injection Hn as <-. simpl in Hch.
  destruct Hch as [Hch|Hch]; [|done].
  destruct t as [|c a l x r]; [done|]. simpl in *.
  injection Hch as <-. destruct Ht as (Ht & _). eauto.
Qed.

(** Where the links agree, [maintainRelationship] changes nothing. *)
Lemma maintainRelationship_id h a n :
  h !! a = Some n → links_consistent h a →
  maintainRelationship (Some a) h = Val tt h.
Proof.
  intros Ha Hl. unfold maintainRelationship, bind, load, store, when, ret.
  rewrite Ha.
  assert (∀ ch nc, h !! ch = Some nc → parent nc = Some a →
            <[ch := set_parent (Some a) nc]> h = h) as Hid.
  { intros ch nc Hch Hp. apply insert_id. rewrite Hch. f_equal.
    destruct nc; simpl in *. by subst. }
  destruct (left n) as [cl|] eqn:El; simpl.
  - destruct (Hl n cl Ha (or_introl El)) as (nl & Hnl & Hpl).
    rewrite Hnl, (Hid _ _ Hnl Hpl), Ha.
    destruct (right n) as [cr|] eqn:Er; simpl; [|done].
    destruct (Hl n cr Ha (or_intror Er)) as (nr & Hnr & Hpr).
    by rewrite Hnr, (Hid _ _ Hnr Hpr).
  - rewrite Ha.
    destruct (right n) as [cr|] eqn:Er; simpl; [|done].
    destruct (Hl n cr Ha (or_intror Er)) as (nr & Hnr & Hpr).
    by rewrite Hnr, (Hid _ _ Hnr Hpr).
Qed.

End segments.

Ltac hstep :=
  repeat first
    [ progress simpl
    | match goal with
      | H : ?h !! ?a = Some _ |- context [?h !! ?a] => rewrite H
      | |- context [<[?a := _]> _ !! ?a] => rewrite lookup_insert_eq
      | |- context [<[?a := _]> _ !! ?b] => rewrite (lookup_insert_ne _ a b) by neq
      | |- context [delete ?a _ !! ?b] => rewrite (lookup_delete_ne _ a b) by neq
      | |- context [ptr_eqb ?p ?p] => rewrite (ptr_eqb_refl p)
      | |- context [ptr_eqb (Some ?a) (Some ?b)] => rewrite (ptr_eqb_Some_ne a b) by neq
      | |- context [ptr_eqb None (Some ?b)] => rewrite (ptr_eqb_None_Some b)
      | |- context [ptr_eqb (root ?t) (Some ?b)] => rewrite (ptr_eqb_root t b) by nd_atom
      end ].

Section swap.
Context {Key T : Type}.
Implicit Types (h : gmap nat (@RBTNode Key T)) (t l r m : @tree Key T)
  (cx : list (@frame Key T)) (f g : @frame Key T).

Local Arguments ptr_eqb : simpl never.

Lemma swapNode_adjacent h s cx c a cl la ll lx lr x cb b xb br :
  Rep h s (Frame false c a x (N cl la ll lx lr) :: cx) (N cb b E xb br) →
  ∃ h', swapNode (Some a) (Some b) h = Val tt h'
        ∧ Rep h' s (Frame false c b xb (N cl la ll lx lr) :: cx) (N cb a E x br).
Proof.
  intros (Hnd & Hc & Hb). unfold swapNode.
  unfold bind, load, store, when, ret; simpl in *.
  destruct br as [|cr ar lr' xr rr], cx as [|[[] cf af xf sf] cx]; simpl in *.
  all: destruct_and?.
  all: nd_norm Hnd.
  all: hstep.
  all: eexists; split; [reflexivity|].
  all: split; [nd_goal|]; simpl.
  all: split_and?; hstep; try done.
  all: rep_frame_tac.
Qed.

Lemma swapNode_one h s cx c a cl la ll lx lr x cp p xp sp cb b xb br :
  Rep h s (Frame true cp p xp sp :: Frame false c a x (N cl la ll lx lr) :: cx)
    (N cb b E xb br) →
  ∃ h', swapNode (Some a) (Some b) h = Val tt h'
        ∧ Rep h' s (Frame true cp p xp sp
                      :: Frame false c b xb (N cl la ll lx lr) :: cx)
            (N cb a E x br).
Proof.
  intros (Hnd & Hc & Hb). unfold swapNode.
  unfold bind, load, store, when, ret; simpl in *.
  destruct br as [|cr ar lr' xr rr], cx as [|[[] cf af xf sf] cx]; simpl in *.
  all: destruct_and?.
  all: nd_norm Hnd.
  all: hstep.
  all: eexists; split; [reflexivity|].
  all: split; [nd_goal|]; simpl.
  all: split_and?; hstep; try done.
  all: rep_frame_tac.
Qed.

Lemma swapNode_far h s cx c a cl la ll lx lr x cp p xp sp mid cg ag xg sg
    cb b xb br :
  Rep h s (Frame true cp p xp sp :: mid ++ Frame true cg ag xg sg
             :: Frame false c a x (N cl la ll lx lr) :: cx)
    (N cb b E xb br) →
  ∃ h', swapNode (Some a) (Some b) h = Val tt h'
        ∧ Rep h' s (Frame true cp p xp sp :: mid ++ Frame true cg ag xg sg
                      :: Frame false c b xb (N cl la ll lx lr) :: cx)
            (N cb a E x br).
Proof.
  intros (Hnd & Hc & Hb). unfold swapNode.
  simpl in Hc. destruct Hc as (Hp & Hsp & Hmid).
  rewrite (cparent_app_cons s mid _ _ []) in Hp.
  apply crep_split in Hmid as (hole' & Hg & Hback).
  simpl in Hnd. rewrite caddrs_app in Hnd.
  unfold bind, load, store, when, ret; simpl in *.
  destruct br as [|cr ar lr' xr rr], cx as [|[[] cf af xf sf] cx]; simpl in *.
  all: destruct_and?.
  all: nd_norm Hnd.
  all: hstep.
  all: eexists; split; [reflexivity|].
  all: split; [simpl; rewrite caddrs_app; nd_goal|]; simpl.
  all: rewrite (cparent_app_cons s mid _ (_ :: _) []).
  all: split_and?; hstep; try done.
  all: try (apply Hback;
            [ intros k Hk;
              repeat (rewrite (lookup_insert_notin _ _ _ _ _ Hk) by nd_atom);
              reflexivity
            | simpl; split_and?; hstep; try done ]).
  all: rep_frame_tac.
Qed.

End swap.


Section remove.
Context {Key T : Type}.
Implicit Types (h : gmap nat (@RBTNode Key T)) (t l r m : @tree Key T)
  (cx : list (@frame Key T)) (f g : @frame Key T).

Local Arguments bind : simpl never.
Local Arguments load : simpl never.
Local Arguments store : simpl never.
Local Arguments isRoot : simpl never.
Local Arguments isLeaf : simpl never.
Local Arguments direction : simpl never.
Local Arguments isRed : simpl never.
Local Arguments isBlack : simpl never.
Local Arguments fill : simpl never.
Local Arguments swapNode : simpl never.
Local Arguments maintainRelationship : simpl never.
Local Arguments maintainAfterRemove : simpl never.
Local Arguments delete_node : simpl never.

Ltac msimpl := repeat (progress simpl || rewrite bind_ret || rewrite bind_bind).
Ltac mrun E :=
  let H := fresh in
  pose proof E as H; rewrite (bind_val _ _ _ _ _ H); clear H; msimpl.

(** [swapNode] on a node and the leftmost node [b] of its right subtree:
    the two exchange their places in the tree, the colours stay with the
    places. *)
Lemma swapNode_spec h s cx c a cl la ll lx lr x sp cb b xb br :
  Forall (λ f, fleft f = true) sp →
  Rep h s (sp ++ Frame false c a x (N cl la ll lx lr) :: cx) (N cb b E xb br) →
  ∃ h', swapNode (Some a) (Some b) h = Val tt h'
        ∧ Rep h' s (sp ++ Frame false c b xb (N cl la ll lx lr) :: cx)
            (N cb a E x br).
Proof.
  intros Hsp HR. destruct sp as [|[fl cp p xp sp'] sp]; simpl in *.
  { by apply swapNode_adjacent. }
  apply Forall_cons in Hsp as [Hfl Hsp]. simpl in Hfl. subst fl.
  destruct sp as [|[gl cg ag xg sg] mid _] using rev_ind; simpl in *.
  { by apply swapNode_one. }
  rewrite Forall_app, Forall_singleton in Hsp. destruct Hsp as [_ Hg].
  simpl in Hg. subst gl. rewrite <- !app_assoc in *. simpl in *.
  by apply swapNode_far.
Qed.

(** ** The walk to the successor *)

Lemma plug_app cx1 cx2 t : plug (cx1 ++ cx2) t = plug cx2 (plug cx1 t).
Proof. revert t. induction cx1 as [|f cx1 IH]; intros t; simpl; [done|]. apply IH. Qed.

Lemma Rep_app h s cx1 cx2 t : Rep h s cx2 (plug cx1 t) ↔ Rep h s (cx1 ++ cx2) t.
Proof. by rewrite Rep_plug, <- plug_app, <- Rep_plug. Qed.

Lemma lspine_spec c a l x r :
  ∀ cx, ∃ sp cb b xb br,
    lspine cx (N c a l x r) = (sp ++ cx, N cb b E xb br)
    ∧ Forall (λ f, fleft f = true) sp
    ∧ plug sp (N cb b E xb br) = N c a l x r.
Proof.
  revert c a x r. induction l as [|cl al ll IHl xl rl _]; intros c a x r cx.
  - by exists [], c, a, x, r.
  - destruct (IHl cl al xl rl (Frame true c a x r :: cx))
      as (sp & cb & b & xb & br & Hs & Hf & Hp).
    exists (sp ++ [Frame true c a x r]), cb, b, xb, br. split_and!.
    + change (lspine cx (N c a (N cl al ll xl rl) x r))
        with (lspine (Frame true c a x r :: cx) (N cl al ll xl rl)).
      rewrite Hs. by rewrite <- app_assoc.
    + apply Forall_app. split; [done|]. by apply Forall_singleton.
    + rewrite plug_app, Hp. done.
Qed.

Lemma successor_loop_spec s h :
  ∀ l c a x r cx fuel,
    tsize (N c a l x r) < fuel →
    Rep h s cx (N c a l x r) →
    successor_loop fuel (Some (cparent s cx)) (Some a) h
    = Val (Some (cparent s (lspine cx (N c a l x r)).1),
           root (lspine cx (N c a l x r)).2) h.
Proof.
  induction l as [|cl al ll IHl xl rl _]; intros c a x r cx fuel Hfuel HR;
    (destruct fuel; [lia|]); simpl successor_loop.
  - by mrun (load_focus _ _ _ _ _ _ _ _ HR).
  - mrun (load_focus _ _ _ _ _ _ _ _ HR).
    pose proof (Rep_left _ _ _ _ _ _ _ _ HR) as HRl.
    change (lspine cx (N c a (N cl al ll xl rl) x r))
      with (lspine (Frame true c a x r :: cx) (N cl al ll xl rl)).
    apply (IHl cl al xl rl (Frame true c a x r :: cx) fuel); [|done].
    simpl in *. lia.
Qed.

Lemma addrs_plug_elem a cx t :
  a ∈ addrs (plug cx t) ↔ a ∈ caddrs cx ++ addrs t.
Proof.
  revert t. induction cx as [|f cx IH]; intros t; simpl; [done|].
  rewrite IH, fill_eq. destruct (fleft f); simpl; set_solver.
Qed.

(** In a well-formed heap [maintainRelationship] changes nothing. *)
Lemma maintainRelationship_Rep h s cx t a :
  Rep h s cx t → a ∈ s :: caddrs cx ++ addrs t →
  maintainRelationship (Some a) h = Val tt h.
Proof.
  intros HR Ha. destruct (Rep_live _ _ _ _ _ HR Ha) as [n Hn].
  apply (maintainRelationship_id _ _ _ Hn).
  apply Rep_plug in HR. apply (Rep_links _ _ _ HR).
  rewrite elem_of_cons, addrs_plug_elem. by rewrite elem_of_cons in Ha.
Qed.

(** Case 1 of [remove]: the node changes places with its successor [b]. *)
Lemma remove_swap_spec h s cx c a cl la ll lx lr x cr ar lr' xr rr fuel :
  tsize (N cr ar lr' xr rr) < fuel →
  Rep h s cx (N c a (N cl la ll lx lr) x (N cr ar lr' xr rr)) →
  ∃ h' sp cb b xb br,
    Forall (λ f, fleft f = true) sp
    ∧ plug sp (N cb b E xb br) = N cr ar lr' xr rr
    ∧ remove_swap fuel (Some a) h = Val tt h'
    ∧ Rep h' s (sp ++ Frame false c b xb (N cl la ll lx lr) :: cx)
        (N cb a E x br).
Proof.
  intros Hfuel HR. unfold remove_swap.
  mrun (load_focus _ _ _ _ _ _ _ _ HR).
  pose proof (Rep_right _ _ _ _ _ _ _ _ HR) as HRr.
  pose proof (successor_loop_spec s h _ _ _ _ _ _ fuel Hfuel HRr) as Hloop.
  destruct (lspine_spec cr ar lr' xr rr (Frame false c a x (N cl la ll lx lr) :: cx))
    as (sp & cb & b & xb & br & Hsp & Hfl & Hplug).
  rewrite Hsp in Hloop. simpl in Hloop. mrun Hloop.
  rewrite <- Hplug in HRr. apply Rep_app in HRr.
  destruct (swapNode_spec _ _ _ _ _ _ _ _ _ _ _ _ _ _ _ _ Hfl HRr)
    as (h' & Hswap & HR').
  mrun Hswap.
  assert (maintainRelationship
            (Some (cparent s (sp ++ Frame false c a x (N cl la ll lx lr) :: cx))) h'
          = Val tt h') as Hm1.
  { apply (maintainRelationship_Rep _ _ _ _ _ HR').
    rewrite caddrs_app. destruct sp as [|f sp]; simpl; set_solver. }
  mrun Hm1.
  assert (maintainRelationship (Some (cparent s cx)) h' = Val tt h') as Hm2.
  { apply (maintainRelationship_Rep _ _ _ _ _ HR').
    rewrite caddrs_app. destruct cx as [|f cx]; simpl; set_solver. }
  rewrite Hm2. by exists h', sp, cb, b, xb, br.
Qed.

(** Cutting a leaf off its parent and freeing it. *)
Lemma unlink_spec h s f cx c a x :
  Rep h s (f :: cx) (N c a E x E) →
  ∃ h1,
    (let* d := direction (Some a) in
     if Direction_eqb d LEFT
     then let* n := load (Some a) in store (parent n) (set_left None)
     else let* n := load (Some a) in store (parent n) (set_right None)) h
    = Val tt h1
    ∧ is_Some (h1 !! a)
    ∧ Rep (delete a h1) s (f :: cx) E.
Proof.
  intros HR.
  mrun (direction_spec _ _ _ _ _ _ _ _ HR).
  destruct HR as (Hnd & Hc & Ha).
  unfold bind, load, store, ret.
  destruct f as [[] cf pf xf sf], cx as [|g cx]; simpl in *.
  all: destruct_and?.
  all: nd_norm Hnd.
  all: hsimpl.
  all: eexists; split; [reflexivity|].
  all: split; [hsimpl; eauto|].
  all: split; [nd_goal|]; simpl.
  all: split_and?; hsimpl; try done.
  all: rep_frame_tac.
Qed.

(** Case 3 of [remove] for a BLACK node with a single RED child, the only
    shape a red-black tree allows: the child takes the place of the node
    and is painted BLACK. *)
Lemma remove_single_spec h s cx a x (fl : bool) ch cl xc cr fuel :
  Rep h s cx (node fl BLACK a x (N RED ch cl xc cr) E) →
  ∃ h1,
    remove_single fuel (Some s) (Some a) h = Val tt h1
    ∧ is_Some (h1 !! a)
    ∧ Rep (delete a h1) s cx (N BLACK ch cl xc cr).
Proof.
  intros HR. unfold remove_single.
  destruct fl; simpl in HR.
  all: mrun (load_focus _ _ _ _ _ _ _ _ HR).
  all: mrun (direction_spec _ _ _ _ _ _ _ _ HR).
  all: destruct HR as (Hnd & Hc & Ha).
  all: unfold assert, when, isBlack, isRed; unfold bind, load, store, ret.
  all: destruct cx as [|[[] cf pf xf sf] cx]; simpl in *.
  all: destruct_and?.
  all: nd_norm Hnd.
  all: hsimpl.
  all: eexists; split; [reflexivity|].
  all: split; [hsimpl; eauto|].
  all: split; [nd_goal|]; simpl.
  all: split_and?; hsimpl; try done.
  all: rep_frame_tac.
Qed.

End remove.


(** ** The repair after a removal, on trees *)

Section fixD_pure.
Context {Key T : Type}.
Implicit Types (t l r m : @tree Key T)
  (cx : list (@frame Key T)) (f g : @frame Key T).

Lemma cbefore_app cx1 cx2 : cbefore (cx1 ++ cx2) = cbefore cx2 ++ cbefore cx1.
Proof.
  induction cx1 as [|f cx1 IH]; simpl; [by rewrite app_nil_r|].
  by rewrite IH, app_assoc.
Qed.

Lemma cafter_app cx1 cx2 : cafter (cx1 ++ cx2) = cafter cx1 ++ cafter cx2.
Proof.
  induction cx1 as [|f cx1 IH]; simpl; [done|].
  by rewrite IH, app_assoc.
Qed.

Ltac lsolve :=
  simpl; rewrite ?cells_paint, ?app_nil_r;
  repeat (rewrite <- !app_assoc; simpl); done.

(** The repair moves no stored pair across the hole. *)
Lemma fixD_black_cells f fs flag :
  fixD_black f = Some (fs, flag) →
  cbefore fs = cbefore [f] ∧ cafter fs = cafter [f].
Proof.
  unfold fixD_black.
  destruct f as [fl cf pf xf [|[] sa sl sx sr]]; simpl; try done.
  destruct fl; simpl.
  - destruct sl as [|[] ca cl cv cr]; simpl;
      try destruct (col sr) eqn:Hc; intros [= <- <-]; split; lsolve.
  - destruct sr as [|[] ca cl cv cr]; simpl;
      try destruct (col sl) eqn:Hc; intros [= <- <-]; split; lsolve.
Qed.

Lemma fixD_cells :
  ∀ cx c cx', fixD c cx = Some cx' →
    cbefore cx' = cbefore cx ∧ cafter cx' = cafter cx.
Proof.
  induction cx as [|f cx IH]; intros c cx' H; simpl in H.
  { by injection H as <-. }
  destruct f as [fl cf pf xf sib]; simpl in H.
  repeat case_match; try done; simplify_eq.
  all: repeat match goal with
         | H : fixD_black _ = Some _ |- _ =>
             apply fixD_black_cells in H as [? ?]
         | H : fixD BLACK _ = Some _ |- _ => apply IH in H as [? ?]
         end.
  all: rewrite cbefore_app, cafter_app.
  all: simpl in *.
  all: repeat match goal with H : _ = _ |- _ => rewrite H; clear H end.
  all: try destruct fl; split; lsolve.
Qed.

Lemma fixD_black_nonempty f fs flag : fixD_black f = Some (fs, flag) → fs ≠ [].
Proof.
  unfold fixD_black. intros H.
  repeat case_match; try done; by injection H as <- <-.
Qed.

Lemma fixD_nonempty c f cx cx' : fixD c (f :: cx) = Some cx' → cx' ≠ [].
Proof.
  simpl. intros H.
  repeat case_match; try done; injection H as <-;
    match goal with H : fixD_black _ = Some (?fs, _) |- _ =>
      apply fixD_black_nonempty in H; by destruct fs end.
Qed.

(** Cases 2 to 5 restore the black height of the hole, or pass the
    deficit to the parent. *)
Lemma fixD_black_rb f cx n :
  ctx_rb (f :: cx) (S n) → col (fsib f) = BLACK →
  ∃ fs flag, fixD_black f = Some (fs, flag)
    ∧ (if flag
       then fcol f = BLACK
            ∧ ∀ cx'', ctx_rb cx'' (S n) → ctx_rb (fs ++ cx'') n
       else ctx_rb (fs ++ cx) n).
Proof.
  unfold fixD_black.
  destruct f as [fl cf pf xf [|[] sa sl sx sr]]; simpl; intros Hc Hs;
    [destruct_and?; lia|done|].
  destruct fl, sl as [|[] la ll lx lr], sr as [|[] ra rl rx rr], cf;
    simpl in *; eexists _, _; (split; [reflexivity|]); simpl;
    intuition (try (lia || congruence)).
Qed.

(** The repair after the removal of a BLACK node restores invariants 3
    and 4. *)
Lemma fixD_rb :
  ∀ cx n, ctx_rb cx (S n) → ∃ cx', fixD BLACK cx = Some cx' ∧ ctx_rb cx' n.
Proof.
  induction cx as [|f cx IH]; intros n Hc.
  { by exists []. }
  destruct f as [fl cf pf xf sib].
  destruct sib as [|[] sa sl sx sr].
  - simpl in Hc. destruct_and?. lia.
  - (* Case 1 *)
    assert (cf = BLACK) as ->.
    { destruct cf; [|done]. simpl in Hc. naive_solver. }
    assert (∃ la ll lx lr, sl = N BLACK la ll lx lr) as (la & ll & lx & lr & ->).
    { destruct sl as [|[] la ll lx lr]; simpl in Hc; [|naive_solver|by eauto].
      destruct_and?. lia. }
    assert (∃ ra rl rx rr, sr = N BLACK ra rl rx rr) as (ra & rl & rx & rr & ->).
    { destruct sr as [|[] ra rl rx rr]; simpl in Hc; [|naive_solver|by eauto].
      destruct_and?. lia. }
    destruct (fixD_black_rb
                (Frame fl RED pf xf
                   (if fl then N BLACK la ll lx lr else N BLACK ra rl rx rr))
                (Frame fl BLACK sa sx
                   (if fl then N BLACK ra rl rx rr else N BLACK la ll lx lr) :: cx)
                n) as (fs & flag & Hb & Hres).
    { destruct fl; simpl in *; intuition (try (lia || congruence)). }
    { by destruct fl. }
    destruct flag; [by destruct Hres|].
    simpl. rewrite Hb. eauto.
  - destruct (fixD_black_rb _ _ _ Hc eq_refl) as (fs & flag & Hb & Hres).
    simpl fixD. rewrite Hb. destruct flag; [|eauto].
    destruct Hres as [Hcf Hres]. simpl in Hcf. subst cf.
    destruct (IH (S n)) as (cx'' & Hrec & Hc'').
    { simpl in Hc. tauto. }
    rewrite Hrec. eauto.
Qed.

End fixD_pure.


(** ** [remove] *)

Section remove_priv.
Context {Key T : Type}.
Implicit Types (h : gmap nat (@RBTNode Key T)) (t l r m : @tree Key T)
  (cx : list (@frame Key T)) (f g : @frame Key T).

Local Arguments bind : simpl never.
Local Arguments load : simpl never.
Local Arguments store : simpl never.
Local Arguments isRoot : simpl never.
Local Arguments isLeaf : simpl never.
Local Arguments direction : simpl never.
Local Arguments isRed : simpl never.
Local Arguments isBlack : simpl never.
Local Arguments fill : simpl never.
Local Arguments swapNode : simpl never.
Local Arguments maintainRelationship : simpl never.
Local Arguments maintainAfterRemove : simpl never.
Local Arguments delete_node : simpl never.
Local Arguments remove_swap : simpl never.
Local Arguments remove_leaf : simpl never.
Local Arguments remove_single : simpl never.

Ltac msimpl := repeat (progress simpl || rewrite bind_ret || rewrite bind_bind).
Ltac mrun E :=
  let H := fresh in
  pose proof E as H; rewrite (bind_val _ _ _ _ _ H); clear H; msimpl.

Lemma isLeaf_spec h s cx c a l x r :
  Rep h s cx (N c a l x r) →
  isLeaf (Some a) h = Val (is_null (root l) && is_null (root r)) h.
Proof.
  intros HR. unfold isLeaf. by mrun (load_focus _ _ _ _ _ _ _ _ HR).
Qed.

Lemma delete_node_val h a : is_Some (h !! a) → delete_node (Some a) h = Val tt (delete a h).
Proof. intros [n Hn]. unfold delete_node. by rewrite Hn. Qed.

(** Case 2 of [remove]: a RED leaf is cut off, a BLACK leaf is cut off after
    the repair at its place. *)
Lemma remove_leaf_spec h s f cx c a x cx' fuel :
  Rep h s (f :: cx) (N c a E x E) →
  length (f :: cx) < fuel →
  match c with BLACK => fixD BLACK (f :: cx) | RED => Some (f :: cx) end
    = Some cx' →
  ∃ h1, remove_leaf fuel (Some s) (Some a) h = Val tt h1
        ∧ is_Some (h1 !! a)
        ∧ Rep (delete a h1) s cx' E.
Proof.
  intros HR Hfuel Hfix. unfold remove_leaf.
  mrun (isRoot_cons _ _ _ _ _ _ _ _ _ HR).
  mrun (isBlack_spec _ _ _ _ _ _ _ _ HR).
  destruct c; msimpl.
  - injection Hfix as <-. by apply (unlink_spec _ _ _ _ _ _ _ HR).
  - destruct (maintainAfterRemove_spec s _ _ _ _ _ _ fuel h cx' Hfuel Hfix HR)
      as (h2 & Hm & HR2).
    mrun Hm.
    pose proof (fixD_nonempty _ _ _ _ Hfix) as Hne.
    destruct cx' as [|f' cx']; [done|].
    by apply (unlink_spec _ _ _ _ _ _ _ HR2).
Qed.

(** The only node of the tree is removed. *)
Lemma remove_last_spec h s c a x :
  Rep h s [] (N c a E x E) →
  ∃ h', (store (Some s) (set_left None);; delete_node (Some a)) h = Val tt h'
        ∧ Rep h' s [] E.
Proof.
  intros (Hnd & Hc & Ha). unfold bind, store, delete_node. simpl in *.
  destruct_and?. nd_norm Hnd. hsimpl.
  eexists; split; [reflexivity|].
  split; [nd_goal|]. simpl. split; [|done]. by hsimpl.
Qed.

Lemma plug_zip_rb cx t :
  (col (plug cx t) = BLACK ∧ no_red_red (plug cx t) ∧ balanced (plug cx t))
  ↔ zip_rb cx t.
Proof. apply plug_rb. Qed.

Lemma pcol_relabel sp (fl : bool) c a x b y l cx :
  pcol (sp ++ Frame fl c a x l :: cx) = pcol (sp ++ Frame fl c b y l :: cx).
Proof. by destruct sp. Qed.

(** The invariants of a context do not depend on which node a frame is. *)
Lemma ctx_rb_relabel sp (fl : bool) c a x b y l cx :
  ∀ n, ctx_rb (sp ++ Frame fl c a x l :: cx) n
       ↔ ctx_rb (sp ++ Frame fl c b y l :: cx) n.
Proof.
  induction sp as [|g sp IH]; intros n; simpl; [done|].
  rewrite IH.
  destruct sp; simpl; done.
Qed.

Lemma cbefore_left sp : Forall (λ f, fleft f = true) sp → cbefore sp = [].
Proof.
  induction 1 as [|f sp Hf _ IH]; simpl; [done|]. by rewrite IH, Hf.
Qed.

Lemma tsize_plug_ge cx t : length cx + tsize t ≤ tsize (plug cx t).
Proof.
  revert t. induction cx as [|f cx IH]; intros t; simpl; [done|].
  specialize (IH (fill f t)). rewrite fill_eq in IH.
  rewrite fill_eq. destruct (fleft f); simpl in *; lia.
Qed.

Lemma size_one cx c a l x r :
  tsize (plug cx (N c a l x r)) = 1 → cx = [] ∧ l = E ∧ r = E.
Proof.
  intros H. pose proof (tsize_plug_ge cx (N c a l x r)) as Hge.
  rewrite H in Hge. simpl in Hge.
  destruct cx; [|simpl in Hge; lia].
  destruct l; [|simpl in Hge; lia]. destruct r; [done|simpl in Hge; lia].
Qed.

(** Cases 2 and 3 of [remove] for a node with at most one child that is
    not the only node of the tree. *)
Lemma remove_tail_spec h s cx c a l x r fuel :
  Rep h s cx (N c a l x r) →
  zip_rb cx (N c a l x r) →
  l = E ∨ r = E →
  ¬ (cx = [] ∧ l = E ∧ r = E) →
  length cx < fuel →
  ∃ h1 T',
    (if is_null (root l) && is_null (root r)
     then remove_leaf fuel (Some s) (Some a)
     else remove_single fuel (Some s) (Some a)) h = Val tt h1
    ∧ is_Some (h1 !! a)
    ∧ Rep (delete a h1) s [] T'
    ∧ cells T' = cbefore cx ++ cells l ++ cells r ++ cafter cx
    ∧ col T' = BLACK ∧ no_red_red T' ∧ balanced T'.
Proof.
  intros HR (Hnrr & Hbal & Hctx & Hp) Hor Hne Hfuel.
  destruct l as [|cl la ll lx lr], r as [|cr ra rl rx rr]; simpl in *.
  - (* a leaf *)
    destruct cx as [|f cx]; [naive_solver|].
    assert (∃ cx', match c with
                   | BLACK => fixD BLACK (f :: cx)
                   | RED => Some (f :: cx)
                   end = Some cx' ∧ ctx_rb cx' 0) as (cx' & Hfix & Hctx').
    { destruct c; [by eauto|]. by apply fixD_rb. }
    destruct (remove_leaf_spec _ _ _ _ _ _ _ _ fuel HR Hfuel Hfix)
      as (h1 & Hleaf & Hlive & HR1).
    exists h1, (plug cx' E). split_and!; [done|done|by apply (proj1 (Rep_plug _ _ _ _))| |..].
    + rewrite cells_plug. simpl.
      assert (cbefore cx' = cbefore (f :: cx) ∧ cafter cx' = cafter (f :: cx))
        as [-> ->]; [|done].
      destruct c; [by injection Hfix as <-|]. by eapply fixD_cells.
    + by apply plug_zip_rb.
    + by apply plug_zip_rb.
    + by apply plug_zip_rb.
  - (* a right child only *)
    destruct Hbal as (Hbh & _ & Hbr & Hbrl & Hbrr).
    destruct cr; [|lia]. simpl in Hbh.
    destruct Hnrr as (Hc & _ & _ & Hnl & Hnr).
    destruct c; [by destruct Hc|].
    destruct (remove_single_spec h s cx a x false ra rl rx rr fuel HR)
      as (h1 & Hsingle & Hlive & HR1).
    assert (zip_rb cx (N BLACK ra rl rx rr)) as Hz.
    { unfold zip_rb. simpl. rewrite <- Hbh. split_and!; try done. congruence. }
    apply plug_zip_rb in Hz as (? & ? & ?).
    exists h1, (plug cx (N BLACK ra rl rx rr)).
    split_and!; try done; [by apply (proj1 (Rep_plug _ _ _ _))|].
    by rewrite cells_plug.
  - (* a left child only *)
    destruct Hbal as (Hbh & (Hbl & Hbll & Hblr) & _).
    destruct cl; [|lia]. simpl in Hbh.
    destruct Hnrr as (Hc & (_ & Hnl & Hnr) & _).
    destruct c; [by destruct Hc|].
    destruct (remove_single_spec h s cx a x true la ll lx lr fuel HR)
      as (h1 & Hsingle & Hlive & HR1).
    assert (zip_rb cx (N BLACK la ll lx lr)) as Hz.
    { unfold zip_rb. simpl. by split_and!. }
    apply plug_zip_rb in Hz as (? & ? & ?).
    exists h1, (plug cx (N BLACK la ll lx lr)).
    split_and!; try done; [by apply (proj1 (Rep_plug _ _ _ _))|].
    rewrite cells_plug. simpl. by rewrite <- ?app_assoc.
  - naive_solver.
Qed.

(** [remove] takes the node in focus out of the tree: the other stored
    pairs keep their order, and invariants 2 to 4 hold again. *)
Lemma remove_priv_spec h s cx c a l x r fuel :
  Rep h s cx (N c a l x r) →
  zip_rb cx (N c a l x r) →
  length cx + tsize (N c a l x r) < fuel →
  ∃ h' T',
    remove_priv fuel (Some s) (tsize (plug cx (N c a l x r))) (Some a) h
    = Val tt h'
    ∧ Rep h' s [] T'
    ∧ cells T' = cbefore cx ++ cells l ++ cells r ++ cafter cx
    ∧ col T' = BLACK ∧ no_red_red T' ∧ balanced T'.
Proof.
  intros HR Hz Hfuel. unfold remove_priv. msimpl.
  destruct (Nat.eqb_spec (tsize (plug cx (N c a l x r))) 1) as [Hone|Hone].
  { apply size_one in Hone as (-> & -> & ->).
    destruct (remove_last_spec _ _ _ _ _ HR) as (h' & Hrm & HR').
    exists h', E. by rewrite Hrm. }
  assert (¬ (cx = [] ∧ l = E ∧ r = E)) as Hne.
  { intros (-> & -> & ->). by apply Hone. }
  mrun (load_focus _ _ _ _ _ _ _ _ HR).
  destruct l as [|cl la ll lx lr], r as [|cr ra rl rx rr];
    [msimpl..|].
  1-3: mrun (isLeaf_spec _ _ _ _ _ _ _ _ HR).
  1-3: destruct (remove_tail_spec _ _ _ _ _ _ _ _ fuel HR Hz) as
        (h1 & T' & Htail & Hlive & HR' & Hcells & Hrb);
        [tauto|done|lia|].
  1-3: exists (delete a h1), T'; simpl in Htail; mrun Htail;
        by rewrite (delete_node_val _ _ Hlive).
  (* two children *)
  msimpl.
  assert (tsize (N cr ra rl rx rr) < fuel) as Hfr by (simpl in *; lia).
  destruct (remove_swap_spec _ _ _ _ _ _ _ _ _ _ _ _ _ _ _ _ fuel Hfr HR)
    as (h1 & sp & cb & b & xb & br & Hsp & Hplug & Hswap & HR1).
  mrun Hswap.
  mrun (isLeaf_spec _ _ _ _ _ _ _ _ HR1).
  assert (zip_rb (sp ++ Frame false c b xb (N cl la ll lx lr) :: cx)
            (N cb a E x br)) as Hz1.
  { apply plug_zip_rb in Hz. rewrite <- Hplug in Hz.
    change (plug cx (N c a (N cl la ll lx lr) x (plug sp (N cb b E xb br))))
      with (plug (Frame false c a x (N cl la ll lx lr) :: cx)
              (plug sp (N cb b E xb br))) in Hz.
    rewrite <- plug_app in Hz. apply plug_zip_rb in Hz.
    destruct Hz as (Hn & Hb & Hc & Hp). unfold zip_rb. split_and!; try done.
    - by apply (ctx_rb_relabel sp false c a x b xb).
    - by rewrite (pcol_relabel sp false c b xb a x). }
  destruct (remove_tail_spec _ _ _ _ _ _ _ _ fuel HR1 Hz1) as
    (h2 & T' & Htail & Hlive & HR' & Hcells & Hrb).
  { by left. }
  { intros (Hnil & _). by destruct sp. }
  { pose proof (tsize_plug_ge sp (N cb b E xb br)) as Hge.
    rewrite Hplug in Hge. rewrite length_app. simpl in *. lia. }
  exists (delete a h2), T'. simpl in Htail. mrun Htail.
  rewrite (delete_node_val _ _ Hlive). split_and!; try done; try apply Hrb.
  assert (cells (N cr ra rl rx rr) = (b, xb) :: cells br ++ cafter sp) as Hr.
  { by rewrite <- Hplug, cells_plug, (cbefore_left sp Hsp). }
  simpl in Hr |- *. rewrite Hcells, Hr, cbefore_app, cafter_app.
  rewrite (cbefore_left sp Hsp). simpl.
  by repeat (rewrite <- ?app_assoc; simpl).
Qed.

End remove_priv.


(** ** [erase] and the constructor *)

Section erase.
Context {Key T : Type}.
Variable Compare : Key → Key → bool.
Hypothesis Hswo : StrictWeakOrder Compare.
Implicit Types (w : @world Key T) (h : gmap nat (@RBTNode Key T))
  (t l r : @tree Key T) (cx : list (@frame Key T)).

Local Arguments bind : simpl never.
Local Arguments load : simpl never.
Local Arguments store : simpl never.
Local Arguments remove_priv : simpl never.
Local Arguments fuel_of : simpl never.
Local Arguments load_map : simpl never.
Local Arguments store_map : simpl never.
Local Arguments lift : simpl never.
Local Arguments map_end : simpl never.

Ltac msimpl := repeat (progress simpl || rewrite bind_ret || rewrite bind_bind).
Ltac mrun E :=
  let H := fresh in
  pose proof E as H; rewrite (bind_val _ _ _ _ _ H); clear H; msimpl.

Lemma StronglySorted_delete {A} (R : relation A) (L1 L2 : list A) z :
  StronglySorted R (L1 ++ z :: L2) → StronglySorted R (L1 ++ L2).
Proof.
  induction L1 as [|u L1 IH]; simpl; intros H.
  - by apply StronglySorted_inv in H as [? _].
  - apply StronglySorted_inv in H as [Hs Hf]. constructor; [by apply IH|].
    rewrite Forall_app in Hf |- *. destruct Hf as [? Hf].
    apply Forall_cons in Hf as [_ ?]. done.
Qed.

(** The heap determines the tree it holds. *)
Lemma rep_unique h :
  ∀ t par t' par', rep h par t → rep h par' t' → root t = root t' → t = t'.
Proof.
  induction t as [|c a l IHl x r IHr]; intros par t' par' Ht Ht' Hroot.
  - by destruct t'.
  - destruct t' as [|c' a' l' x' r']; [done|]. simpl in *.
    injection Hroot as <-.
    destruct Ht as (Ha & Hl & Hr), Ht' as (Ha' & Hl' & Hr').
    rewrite Ha in Ha'. injection Ha' as <- <- Hrl Hrr _.
    by rewrite (IHl _ _ _ Hl Hl' Hrl), (IHr _ _ _ Hr Hr' Hrr).
Qed.

Lemma map_wf_unique w this s t s' t' :
  map_wf w this s t → map_wf w this s' t' → s = s' ∧ t = t'.
Proof.
  intros (Ho & _ & Hs & Ht) (Ho' & _ & Hs' & Ht').
  rewrite Ho in Ho'. injection Ho' as <- _. split; [done|].
  simpl in *. rewrite Hs in Hs'. injection Hs' as Hroot.
  by eapply rep_unique.
Qed.

(** The constructor makes an empty map. *)
Lemma map_ctor_spec this w0 :
  ∃ w, map_ctor this w0 = Val tt w
       ∧ map_wf w this (fresh (dom (nodes w0))) E.
Proof.
  unfold map_ctor, bind, lift, new_node. simpl.
  eexists; split; [reflexivity|]. split; simpl.
  - by rewrite lookup_insert_eq.
  - split; [|split; [|done]]; simpl.
    + apply NoDup_singleton.
    + by rewrite lookup_insert_eq.
Qed.

(** [erase] at [end()] or at an iterator of another map. *)
Lemma map_erase_invalid w this s t pos :
  map_wf w this s t →
  pos = mkIter (Some this) (Some s) ∨ map_ptr pos ≠ Some this →
  map_erase (Some this) pos w = Throw invalid_iterator w.
Proof.
  intros Hwf Hpos. unfold map_erase. rewrite bind_fuel_of.
  mrun (map_end_spec _ _ _ _ Hwf).
  destruct Hpos as [->|Hne].
  - unfold iterator_eqb. simpl. by rewrite !ptr_eqb_refl.
  - rewrite (ptr_eqb_ne _ _ Hne). simpl. by rewrite orb_true_r.
Qed.

(** [erase] at an iterator that points to the element stored in node [a]. *)
Lemma map_erase_valid w this s t a x :
  map_wf w this s t → rb_tree Compare t →
  (a, x) ∈ cells t →
  ∃ w' T' L1 L2,
    map_erase (Some this) (mkIter (Some this) (Some a)) w = Val tt w'
    ∧ map_wf w' this s T' ∧ rb_tree Compare T'
    ∧ cells t = L1 ++ (a, x) :: L2 ∧ cells T' = L1 ++ L2
    ∧ objs w' = <[this := mkMap (Some s) (Nat.pred (tsize t))]> (objs w).
Proof.
  intros Hwf (Hord & Hrb) Hin.
  destruct (focus_cell a x t [] Hin) as (cx & c & l & r & Hplug).
  simpl in Hplug. subst t.
  pose proof (map_wf_focus _ _ _ _ _ Hwf) as HR.
  pose proof Hwf as (Hobj & _).
  unfold map_erase. rewrite bind_fuel_of.
  mrun (map_end_spec _ _ _ _ Hwf).
  unfold iterator_eqb. simpl. rewrite !ptr_eqb_refl.
  rewrite (ptr_eqb_Some_ne _ _ (Rep_sentinel_ne _ _ _ _ _ _ _ _ HR)). simpl.
  mrun (load_map_val _ _ _ Hobj).
  apply plug_zip_rb in Hrb.
  destruct (remove_priv_spec _ _ _ _ _ _ _ _ (S (size (nodes w))) HR Hrb)
    as (h' & T' & Hrm & HR' & Hcells & Hcol & Hnrr & Hbal).
  { pose proof (Rep_size _ _ _ _ HR) as Hsz.
    pose proof (length_caddrs cx). rewrite tsize_addrs. lia. }
  mrun (lift_val _ _ _ _ Hrm).
  mrun (load_map_val (mkWorld h' (objs w)) _ _ Hobj).
  rewrite (store_map_val (mkWorld h' (objs w)) _ _ _ Hobj). simpl.
  assert (tsize (plug cx (N c a l x r)) = S (tsize T')) as Hsize.
  { rewrite !tsize_cells, Hcells, cells_plug. simpl.
    repeat (rewrite length_app || simpl). lia. }
  eexists _, T', (cbefore cx ++ cells l), (cells r ++ cafter cx).
  split; [reflexivity|]. split_and!.
  - split; simpl; [|done].
    rewrite lookup_insert_eq. unfold set_len. simpl. by rewrite Hsize.
  - split; [|done]. apply ordered_cells. apply ordered_cells in Hord.
    rewrite cells_plug in Hord. simpl in Hord. rewrite Hcells.
    rewrite <- !app_assoc in Hord. rewrite app_assoc in Hord.
    apply StronglySorted_delete in Hord. by rewrite <- app_assoc in Hord.
  - rewrite cells_plug. simpl. by rewrite <- !app_assoc.
  - by rewrite Hcells, <- app_assoc.
  - by rewrite Hsize.
Qed.

End erase.


(** * The claims about removal and about the invariants *)

Section claims_erase.
Context {Key T : Type}.
Variable Compare : Key → Key → bool.
Hypothesis Hswo : StrictWeakOrder Compare.
Implicit Types (w : @world Key T) (h : gmap nat (@RBTNode Key T))
  (t l r : @tree Key T) (cx : list (@frame Key T)).

Local Arguments bind : simpl never.

Lemma StronglySorted_app_mid {A} (R : relation A) (L1 L2 : list A) z :
  StronglySorted R (L1 ++ z :: L2) → Forall (λ p, R p z) L1 ∧ Forall (R z) L2.
Proof.
  induction L1 as [|u L1 IH]; simpl; intros H;
    apply StronglySorted_inv in H as [Hs Hf].
  - done.
  - destruct (IH Hs) as [H1 H2]. split; [|done]. constructor; [|done].
    rewrite Forall_app, Forall_cons in Hf. tauto.
Qed.

(** The key of an element that was taken out is no longer present. *)
Lemma erased_absent t T' L1 L2 a x :
  ordered Compare t →
  cells t = L1 ++ (a, x) :: L2 → cells T' = L1 ++ L2 →
  ¬ present Compare (fst x) T'.
Proof.
  intros Ho Hc Hc' Hp. apply ordered_cells in Ho. rewrite Hc in Ho.
  apply StronglySorted_app_mid in Ho as [H1 H2].
  rewrite Forall_forall in H1, H2.
  apply present_cell in Hp as (a' & x' & Hin & He).
  rewrite Hc' in Hin. apply elem_of_app in Hin as [Hin|Hin].
  - apply H1 in Hin. apply (lt_not_eqv' Compare) in Hin. simpl in *. congruence.
  - apply H2 in Hin. apply (lt_not_eqv Compare) in Hin. simpl in *. congruence.
Qed.

(** C7. [erase(pos)] throws [invalid_iterator] and leaves the map as it is
    when [pos] is [end()] or an iterator of another map.  At an iterator
    that points to an element it removes that element and no other: the
    other nodes stay where they are, in the same order, [size()] is one
    less, and [find] and [count] on the key of the removed element give
    [end()] and 0. *)
Theorem C7_erase_removes_element w this s t :
  map_wf w this s t → rb_tree Compare t →
  (∀ pos, map_end (Some this) w = Val pos w ∨ map_ptr pos ≠ Some this →
     map_erase (Some this) pos w = Throw invalid_iterator w)
  ∧ (∀ a x, (a, x) ∈ cells t →
       ∃ w' T' L1 L2,
         map_erase (Some this) (mkIter (Some this) (Some a)) w = Val tt w'
         ∧ map_wf w' this s T'
         ∧ cells t = L1 ++ (a, x) :: L2 ∧ cells T' = L1 ++ L2
         ∧ map_size (Some this) w = Val (S (tsize T')) w
         ∧ map_size (Some this) w' = Val (tsize T') w'
         ∧ ¬ present Compare (fst x) T'
         ∧ map_find Compare (Some this) (fst x) w' = map_end (Some this) w'
         ∧ map_count Compare (Some this) (fst x) w' = Val 0 w').
Proof.
  intros Hwf Hrb. split.
  - intros pos Hpos. apply (map_erase_invalid w this s t pos Hwf).
    destruct Hpos as [Hend|Hne]; [left|by right].
    rewrite (map_end_spec _ _ _ _ Hwf) in Hend. by injection Hend as <-.
  - intros a x Hin.
    destruct (map_erase_valid Compare w this s t a x Hwf Hrb Hin)
      as (w' & T' & L1 & L2 & Herase & Hwf' & Hrb' & Hc & Hc' & Hobjs).
    pose proof (erased_absent t T' L1 L2 a x (proj1 Hrb) Hc Hc') as Habs.
    destruct (locate_root Compare Hswo (fst x) T' (proj1 Hrb')) as [_ Hnone].
    specialize (Hnone Habs).
    assert (tsize t = S (tsize T')) as Hsize.
    { rewrite !tsize_cells, Hc, Hc', !length_app. simpl. lia. }
    exists w', T', L1, L2. split_and!; try done.
    + unfold map_size. destruct Hwf as (Ho & _).
      rewrite (bind_val _ _ _ _ _ (load_map_val _ _ _ Ho)). simpl.
      by rewrite Hsize.
    + unfold map_size. destruct Hwf' as (Ho & _).
      by rewrite (bind_val _ _ _ _ _ (load_map_val _ _ _ Ho)).
    + unfold map_find.
      rewrite (find_root_spec Compare _ _ _ _ _ _ Hwf'). by rewrite Hnone.
    + unfold map_count.
      rewrite (find_root_spec Compare _ _ _ _ _ _ Hwf'). by rewrite Hnone.
Qed.

(** What holds in every reachable world. *)
Lemma reachable_wf this w :
  reachable Compare this w → ∃ s t, map_wf w this s t ∧ rb_tree Compare t.
Proof.
  induction 1 as [w0 w Hctor|w value res w' _ IH Hins|w pos w' _ IH Hpos Herase].
  - destruct (map_ctor_spec this w0) as (w1 & Hc & Hwf).
    rewrite Hc in Hctor. injection Hctor as <-.
    exists (fresh (dom (nodes w0))), E. split; [done|].
    split_and!; try done. constructor.
  - destruct IH as (s & t & Hwf & Hrb). destruct value as [k v].
    pose proof (locate_present Compare Hswo k t (proj1 Hrb)) as Hloc.
    destruct (locate Compare k [] t) as [cx' [|c' a' l' x' r']]; simpl in Hloc.
    + destruct (map_insert_absent Compare Hswo w this s t k v Hwf Hrb Hloc)
        as (w1 & T' & L1 & L2 & Hins' & Hwf' & Hrb' & _).
      rewrite Hins' in Hins. injection Hins as _ <-. eauto.
    + destruct Hloc as [Hin He].
      rewrite (map_insert_present Compare Hswo w this s t k v a' x'
                 Hwf (proj1 Hrb) Hin He) in Hins.
      injection Hins as _ <-. eauto.
  - destruct IH as (s & t & Hwf & Hrb).
    destruct Hpos as (s' & t' & a & Hwf' & -> & Ha).
    destruct (map_wf_unique _ _ _ _ _ _ Hwf Hwf') as [<- <-].
    rewrite addrs_cells in Ha. apply list_elem_of_fmap in Ha as ([a' x] & -> & Hin).
    destruct (map_erase_valid Compare w this s t a' x Hwf Hrb Hin)
      as (w1 & T' & L1 & L2 & Herase' & Hwf1 & Hrb1 & _).
    simpl in Herase. rewrite Herase' in Herase. injection Herase as <-. eauto.
Qed.

(** C1. In every world reached from the constructor by [insert] and
    [erase] calls the map holds a tree [t] under its sentinel with the five
    invariants: the keys in symmetric order are strictly increasing, the
    root is BLACK or the tree is empty, no RED node has a RED child, all
    paths to a missing child pass the same number of BLACK nodes, and every
    child link of the sentinel and of the nodes is answered by the parent
    link of the child.  From such a world every [insert] returns, and so
    does every [erase] at an iterator that points to an element. *)
Theorem C1_red_black_invariants this w :
  reachable Compare this w →
  (∃ s t,
     map_wf w this s t
     ∧ ordered Compare t
     ∧ col t = BLACK
     ∧ no_red_red t
     ∧ balanced t
     ∧ ∀ a, a ∈ s :: addrs t → links_consistent (nodes w) a)
  ∧ (∀ value, ∃ res w',
       map_insert Compare (Some this) value w = Val res w'
       ∧ reachable Compare this w')
  ∧ (∀ pos, valid_pos w this pos →
       ∃ w', map_erase (Some this) pos w = Val tt w'
             ∧ reachable Compare this w').
Proof.
  intros Hreach.
  destruct (reachable_wf this w Hreach) as (s & t & Hwf & Hrb).
  split_and!.
  - exists s, t. destruct Hrb as (? & ? & ? & ?). split_and!; try done.
    destruct Hwf as (_ & HR). by apply Rep_links.
  - intros [k v].
    pose proof (locate_present Compare Hswo k t (proj1 Hrb)) as Hloc.
    destruct (locate Compare k [] t) as [cx' [|c' a' l' x' r']]; simpl in Hloc.
    + destruct (map_insert_absent Compare Hswo w this s t k v Hwf Hrb Hloc)
        as (w1 & T' & L1 & L2 & Hins' & _).
      eexists _, w1. split; [exact Hins'|]. by eapply reach_insert.
    + destruct Hloc as [Hin He].
      pose proof (map_insert_present Compare Hswo w this s t k v a' x'
                    Hwf (proj1 Hrb) Hin He) as Hins'.
      eexists _, w. split; [exact Hins'|]. by eapply reach_insert.
  - intros pos Hpos. pose proof Hpos as (s' & t' & a & Hwf' & -> & Ha).
    destruct (map_wf_unique _ _ _ _ _ _ Hwf Hwf') as [<- <-].
    rewrite addrs_cells in Ha. apply list_elem_of_fmap in Ha as ([a' x] & -> & Hin).
    destruct (map_erase_valid Compare w this s t a' x Hwf Hrb Hin)
      as (w1 & T' & L1 & L2 & Herase' & _).
    exists w1. split; [exact Herase'|]. by eapply reach_erase.
Qed.

End claims_erase.


(** * The concrete map *)

Lemma nat_swo : StrictWeakOrder Nat.ltb.
Proof.
  split.
  - intros x. apply Nat.ltb_irrefl.
  - intros x y z. rewrite !Nat.ltb_lt. lia.
  - intros x y z. unfold equal_key.
    rewrite !negb_true_iff, !orb_false_iff, !Nat.ltb_ge. lia.
Qed.

Lemma ex_wf : map_wf ex_world 0 0 ex_tree.
Proof.
  split; [reflexivity|]. split; [|by vm_compute].
  simpl. repeat (apply NoDup_cons_2; [set_solver|]). apply NoDup_nil_2.
Qed.

Lemma ex_rb : rb_tree Nat.ltb ex_tree.
Proof.
  split; [|by vm_compute].
  unfold ordered. simpl. repeat constructor.
Qed.

Lemma ex_absent : ¬ present Nat.ltb 7 ex_tree.
Proof.
  intros (x & Hx & He). simpl in Hx.
  repeat (apply elem_of_cons in Hx as [->|Hx]; [by vm_compute in He|]).
  by apply elem_of_nil in Hx.
Qed.

(** ** Witnesses: the theorems at the concrete map *)

Lemma C3_witness :
  map_insert Nat.ltb (Some 0) (3, 99) ex_world
  = Val (mkIter (Some 0) (Some 3), false) ex_world
  ∧ iterator_deref (mkIter (Some 0) (Some 3)) ex_world = Val (3, 30) ex_world
  ∧ map_size (Some 0) ex_world = Val 3 ex_world.
Proof.
  apply (C3_insert_existing_key Nat.ltb nat_swo ex_world 0 0 ex_tree 3 99 3 (3, 30)).
  - exact ex_wf.
  - exact (proj1 ex_rb).
  - simpl. set_solver.
  - reflexivity.
Defined.

Lemma C4_witness :
  ∃ w' T' a L1 L2,
    map_index Nat.ltb 0 (Some 0) 7 ex_world = Val (Some a) w'
    ∧ map_wf w' 0 0 T'
    ∧ cells ex_tree = L1 ++ L2 ∧ cells T' = L1 ++ (a, (7, 0)) :: L2
    ∧ map_size (Some 0) ex_world = Val (tsize ex_tree) ex_world
    ∧ map_size (Some 0) w' = Val (S (tsize ex_tree)) w'
    ∧ map_index Nat.ltb 0 (Some 0) 7 w' = Val (Some a) w'
    ∧ map_index_const Nat.ltb (Some 0) 7 ex_world = Throw index_out_of_bound ex_world.
Proof.
  exact (C4_index_inserts_default Nat.ltb 0 nat_swo ex_world 0 0 ex_tree 7
           ex_wf ex_rb ex_absent).
Defined.

Lemma C5_witness :
  (∀ a x, (a, x) ∈ cells ex_tree → equal_key Nat.ltb 8 (fst x) = true →
     map_at Nat.ltb (Some 0) 8 ex_world = Val (Some a) ex_world
     ∧ load_second (Some a) ex_world = Val (snd x) ex_world)
  ∧ (¬ present Nat.ltb 8 ex_tree →
     map_at Nat.ltb (Some 0) 8 ex_world = Throw index_out_of_bound ex_world).
Proof.
  exact (C5_at_bounds_checked Nat.ltb nat_swo ex_world 0 0 ex_tree 8
           ex_wf (proj1 ex_rb)).
Defined.

Lemma C6_witness :
  ∃ e b, map_end (Some 0) ex_world = Val e ex_world
         ∧ map_begin (Some 0) ex_world = Val b ex_world
         ∧ iterator_incr e ex_world = Throw invalid_iterator ex_world
         ∧ iterator_decr b ex_world = Throw invalid_iterator ex_world.
Proof. exact (C6_iterator_boundaries ex_world 0 0 ex_tree ex_wf). Defined.

Lemma C8_witness :
  let it p := mkIter (Some 0) (Some p) in
  map_end (Some 0) ex_world = Val (it 0) ex_world
  ∧ map_begin (Some 0) ex_world = Val (it (leftmost_or 0 ex_tree)) ex_world
  ∧ (∀ cx c a l x r, ex_tree = plug cx (N c a l x r) →
       iterator_incr (it a) ex_world = Val (it (successor 0 cx r)) ex_world)
  ∧ (∀ p, p ∈ order 0 ex_tree → p ≠ 0 →
       ∃ q, iterator_incr (it p) ex_world = Val (it q) ex_world
            ∧ iterator_decr (it q) ex_world = Val (it p) ex_world)
  ∧ (∀ p, p ∈ order 0 ex_tree → p ≠ leftmost_or 0 ex_tree →
       ∃ q, iterator_decr (it p) ex_world = Val (it q) ex_world
            ∧ iterator_incr (it q) ex_world = Val (it p) ex_world).
Proof. exact (C8_increment_decrement_inverse ex_world 0 0 ex_tree ex_wf). Defined.

Lemma C9_witness :
  ∃ res w' T',
    map_insert Nat.ltb (Some 0) (7, 70) ex_world = Val res w'
    ∧ map_wf w' 0 0 T'
    ∧ (∀ a x, (a, x) ∈ cells ex_tree → (a, x) ∈ cells T')
    ∧ (∀ x, fst x ≠ 7 → x ∈ elems T' ↔ x ∈ elems ex_tree)
    ∧ (∀ k', present Nat.ltb k' T'
             ↔ present Nat.ltb k' ex_tree ∨ equal_key Nat.ltb k' 7 = true)
    ∧ (present Nat.ltb 7 ex_tree → res.2 = false ∧ w' = ex_world ∧ T' = ex_tree)
    ∧ (¬ present Nat.ltb 7 ex_tree →
         res.2 = true
         ∧ ∃ L1 L2, elems ex_tree = L1 ++ L2 ∧ elems T' = L1 ++ (7, 70) :: L2).
Proof.
  exact (C9_insert_frame Nat.ltb nat_swo ex_world 0 0 ex_tree 7 70 ex_wf ex_rb).
Defined.

Lemma C10_witness :
  ∃ e, map_end (Some 0) ex_world = Val e ex_world
       ∧ iterator_arrow e ex_world = Val None ex_world
       ∧ iterator_deref e ex_world = Throw invalid_iterator ex_world.
Proof. exact (C10_arrow_unchecked_on_end ex_world 0 0 ex_tree ex_wf). Defined.

(** ** Assignment from an empty map

    C2 fails on the code where the source is empty and the target is not:
    [operator=] frees the nodes of the target with [clear(sentinel->left)],
    [copy] returns at once on the null source and leaves [sentinel->left]
    pointing to the freed root, and [sentinel->left->parent = sentinel]
    then writes through that dangling pointer.  The public [clear()] resets
    the slot to null after the same call. *)

Lemma C2_assign_from_empty_undefined :
  map_assign (Some 0) (Some 1) ex_world = Undef.
Proof. by vm_compute. Qed.

(** After [clear()] the map is empty and well formed; the slot is null. *)
Lemma clear_then_wf :
  ∃ w', map_clear (Some 0) ex_world = Val tt w' ∧ map_wf w' 0 0 E.
Proof.
  eexists. split; [by vm_compute|].
  split; [reflexivity|]. split; [|by vm_compute].
  simpl. repeat (apply NoDup_cons_2; [set_solver|]). apply NoDup_nil_2.
Qed.

(** Self-assignment returns at once. *)
Lemma assign_self {Key T : Type} (w : @world Key T) this :
  map_assign (Some this) (Some this) w = Val tt w.
Proof. unfold map_assign. rewrite bind_fuel_of. by rewrite ptr_eqb_refl. Qed.


(** ** The claims about removal on the concrete maps *)

Lemma C7_witness :
  (∀ pos, map_end (Some 0) ex_world = Val pos ex_world ∨ map_ptr pos ≠ Some 0 →
     map_erase (Some 0) pos ex_world = Throw invalid_iterator ex_world)
  ∧ (∀ a x, (a, x) ∈ cells ex_tree →
       ∃ w' T' L1 L2,
         map_erase (Some 0) (mkIter (Some 0) (Some a)) ex_world = Val tt w'
         ∧ map_wf w' 0 0 T'
         ∧ cells ex_tree = L1 ++ (a, x) :: L2 ∧ cells T' = L1 ++ L2
         ∧ map_size (Some 0) ex_world = Val (S (tsize T')) ex_world
         ∧ map_size (Some 0) w' = Val (tsize T') w'
         ∧ ¬ present Nat.ltb (fst x) T'
         ∧ map_find Nat.ltb (Some 0) (fst x) w' = map_end (Some 0) w'
         ∧ map_count Nat.ltb (Some 0) (fst x) w' = Val 0 w').
Proof.
  exact (C7_erase_removes_element Nat.ltb nat_swo ex_world 0 0 ex_tree ex_wf ex_rb).
Defined.

Lemma ex_erased_reachable : reachable Nat.ltb 0 ex_erased.
Proof.
  eapply (reach_erase Nat.ltb 0 _ (mkIter (Some 0) (Some 1))).
  - eapply (reach_insert Nat.ltb 0 _ (8, 80)).
    + eapply (reach_insert Nat.ltb 0 _ (3, 30)).
      * eapply (reach_insert Nat.ltb 0 _ (5, 50)).
        -- apply (reach_ctor Nat.ltb 0 (mkWorld ∅ ∅)). vm_compute. reflexivity.
        -- vm_compute. reflexivity.
      * vm_compute. reflexivity.
    + vm_compute. reflexivity.
  - exists 0, (N BLACK 1 (N RED 2 E (3, 30) E) (5, 50) (N RED 3 E (8, 80) E)), 1.
    split; [|split; [done|set_solver]].
    split; [reflexivity|]. split; [|by vm_compute].
    simpl. repeat (apply NoDup_cons_2; [set_solver|]). apply NoDup_nil_2.
  - by vm_compute.
Qed.

Lemma C1_witness :
  (∃ s t,
     map_wf ex_erased 0 s t
     ∧ ordered Nat.ltb t
     ∧ col t = BLACK
     ∧ no_red_red t
     ∧ balanced t
     ∧ ∀ a, a ∈ s :: addrs t → links_consistent (nodes ex_erased) a)
  ∧ (∀ value, ∃ res w',
       map_insert Nat.ltb (Some 0) value ex_erased = Val res w'
       ∧ reachable Nat.ltb 0 w')
  ∧ (∀ pos, valid_pos ex_erased 0 pos →
       ∃ w', map_erase (Some 0) pos ex_erased = Val tt w'
             ∧ reachable Nat.ltb 0 w').
Proof.
  exact (C1_red_black_invariants Nat.ltb nat_swo 0 ex_erased ex_erased_reachable).
Defined.


(** * Further properties of the code *)

(** ** Lookup, and how it composes with [insert] and [erase] *)

Section lookup.
Context {Key T : Type}.
Variable Compare : Key → Key → bool.
Variable T_default : T.
Hypothesis Hswo : StrictWeakOrder Compare.
Implicit Types (h : gmap nat (@RBTNode Key T)) (t l r m : @tree Key T)
  (cx : list (@frame Key T)) (f g : @frame Key T) (w : @world Key T)
  (k : Key) (v : T).

Local Arguments bind : simpl never.
Ltac msimpl := repeat (progress simpl || rewrite bind_ret || rewrite bind_bind).
Ltac mrun E :=
  let H := fresh in
  pose proof E as H; rewrite (bind_val _ _ _ _ _ H); clear H; msimpl.

Lemma iterator_deref_cell w this s t a x :
  map_wf w this s t → (a, x) ∈ cells t →
  iterator_deref (mkIter (Some this) (Some a)) w = Val x w.
Proof.
  intros Hwf Hin.
  destruct (focus_cell a x t [] Hin) as (cx & c & l & r & Hpl).
  simpl in Hpl. subst t. pose proof (map_wf_focus _ _ _ _ _ Hwf) as HR.
  destruct Hwf as (Hobj & _). unfold iterator_deref. simpl.
  mrun (load_map_val _ _ _ Hobj).
  rewrite ptr_eqb_Some_ne by apply (Rep_sentinel_ne _ _ _ _ _ _ _ _ HR).
  apply lift_val_same. by eapply load_data_focus.
Qed.

Lemma map_find_present w this s t k a x :
  map_wf w this s t → ordered Compare t →
  (a, x) ∈ cells t → equal_key Compare k (fst x) = true →
  map_find Compare (Some this) k w = Val (mkIter (Some this) (Some a)) w.
Proof.
  intros Hwf Ho Hin He. destruct (locate_root Compare Hswo k t Ho) as [Hp _].
  unfold map_find. rewrite (find_root_spec Compare _ _ _ _ _ _ Hwf).
  by rewrite (Hp a x Hin He).
Qed.

Lemma map_find_absent w this s t k :
  map_wf w this s t → ordered Compare t → ¬ present Compare k t →
  map_find Compare (Some this) k w = Val (mkIter (Some this) (Some s)) w.
Proof.
  intros Hwf Ho Habs. destruct (locate_root Compare Hswo k t Ho) as [_ Ha].
  unfold map_find. rewrite (find_root_spec Compare _ _ _ _ _ _ Hwf).
  rewrite (Ha Habs). simpl. by apply map_end_spec with t.
Qed.

Lemma map_count_present w this s t k a x :
  map_wf w this s t → ordered Compare t →
  (a, x) ∈ cells t → equal_key Compare k (fst x) = true →
  map_count Compare (Some this) k w = Val 1 w.
Proof.
  intros Hwf Ho Hin He. destruct (locate_root Compare Hswo k t Ho) as [Hp _].
  unfold map_count. rewrite (find_root_spec Compare _ _ _ _ _ _ Hwf).
  by rewrite (Hp a x Hin He).
Qed.

Lemma map_count_absent w this s t k :
  map_wf w this s t → ordered Compare t → ¬ present Compare k t →
  map_count Compare (Some this) k w = Val 0 w.
Proof.
  intros Hwf Ho Habs. destruct (locate_root Compare Hswo k t Ho) as [_ Ha].
  unfold map_count. rewrite (find_root_spec Compare _ _ _ _ _ _ Hwf).
  by rewrite (Ha Habs).
Qed.

Lemma map_at_present w this s t k a x :
  map_wf w this s t → ordered Compare t →
  (a, x) ∈ cells t → equal_key Compare k (fst x) = true →
  map_at Compare (Some this) k w = Val (Some a) w
  ∧ load_second (Some a) w = Val (snd x) w.
Proof.
  intros Hwf Ho Hin He. destruct (locate_root Compare Hswo k t Ho) as [Hp _].
  unfold map_at. rewrite (find_root_spec Compare _ _ _ _ _ _ Hwf).
  rewrite (Hp a x Hin He). split; [done|].
  unfold load_second. by mrun (load_data_cell _ _ _ _ _ _ Hwf Hin).
Qed.

(** Presence of a key is decided by the descent. *)
Lemma present_dec k t :
  ordered Compare t →
  (∃ a x, (a, x) ∈ cells t ∧ equal_key Compare k (fst x) = true)
  ∨ ¬ present Compare k t.
Proof.
  intros Ho. pose proof (locate_present Compare Hswo k t Ho) as Hloc.
  destruct (locate Compare k [] t) as [cx' [|c' a' l' x' r']]; simpl in Hloc.
  - by right.
  - left. destruct Hloc. eauto.
Qed.

Lemma present_eqv k k' t :
  equal_key Compare k k' = true → present Compare k' t → present Compare k t.
Proof.
  intros He (x & Hx & He'). exists x. split; [done|].
  by eapply (swo_equiv_trans _ Hswo).
Qed.

(** X1: for a key with an equivalent stored key, [find] returns the
    iterator to that element, dereferencing it gives the stored pair, and
    [count] is 1; for any other key [find] returns [end()], [count] is 0,
    and dereferencing the result throws [invalid_iterator]. *)
Theorem find_and_count w this s t k :
  map_wf w this s t → ordered Compare t →
  (∀ a x, (a, x) ∈ cells t → equal_key Compare k (fst x) = true →
     map_find Compare (Some this) k w = Val (mkIter (Some this) (Some a)) w
     ∧ iterator_deref (mkIter (Some this) (Some a)) w = Val x w
     ∧ map_count Compare (Some this) k w = Val 1 w)
  ∧ (¬ present Compare k t →
     map_find Compare (Some this) k w = map_end (Some this) w
     ∧ map_count Compare (Some this) k w = Val 0 w
     ∧ ∀ it, map_find Compare (Some this) k w = Val it w →
             iterator_deref it w = Throw invalid_iterator w).
Proof.
  intros Hwf Ho. split.
  - intros a x Hin He. split_and!.
    + by eapply map_find_present.
    + by eapply iterator_deref_cell.
    + by eapply map_count_present.
  - intros Habs. rewrite (map_find_absent _ _ _ _ _ Hwf Ho Habs).
    rewrite (map_end_spec _ _ _ _ Hwf). split_and!; [done| |].
    + by eapply map_count_absent.
    + intros it [= <-]. destruct Hwf as (Hobj & _).
      unfold iterator_deref. simpl. mrun (load_map_val _ _ _ Hobj).
      by rewrite ptr_eqb_refl.
Qed.

(** X2: after [insert] of a pair whose key was absent, [find] of the key
    returns the iterator that [insert] returned, it dereferences to the
    inserted pair, [at] returns the inserted value, and [count] has gone
    from 0 to 1. *)
Theorem insert_then_lookup w this s t k v :
  map_wf w this s t → rb_tree Compare t → ¬ present Compare k t →
  ∃ a w',
    map_insert Compare (Some this) (k, v) w
    = Val (mkIter (Some this) (Some a), true) w'
    ∧ map_find Compare (Some this) k w' = Val (mkIter (Some this) (Some a)) w'
    ∧ iterator_deref (mkIter (Some this) (Some a)) w' = Val (k, v) w'
    ∧ map_at Compare (Some this) k w' = Val (Some a) w'
    ∧ load_second (Some a) w' = Val v w'
    ∧ map_count Compare (Some this) k w' = Val 1 w'
    ∧ map_count Compare (Some this) k w = Val 0 w.
Proof.
  intros Hwf Hrb Habs.
  destruct (map_insert_absent Compare Hswo w this s t k v Hwf Hrb Habs)
    as (w' & T' & L1 & L2 & Hins & Hwf' & Hrb' & Hc & Hc' & Hobjs).
  exists (fresh (dom (nodes w))), w'.
  assert (Hin : (fresh (dom (nodes w)), (k, v)) ∈ cells T').
  { rewrite Hc'. set_solver. }
  pose proof (eqv_refl Compare Hswo k) as He.
  destruct (map_at_present w' this s T' k _ _ Hwf' (proj1 Hrb') Hin He)
    as [Hat Hsnd].
  split_and!; try done.
  - exact (map_find_present w' this s T' k _ _ Hwf' (proj1 Hrb') Hin He).
  - by eapply iterator_deref_cell.
  - exact (map_count_present w' this s T' k _ _ Hwf' (proj1 Hrb') Hin He).
  - exact (map_count_absent w this s t k Hwf (proj1 Hrb) Habs).
Qed.

(** X3: on a key that is present, [operator[]] and its const form return
    a reference to the stored value and change nothing: no default value
    is inserted. *)
Theorem index_existing_key w this s t k a x :
  map_wf w this s t → ordered Compare t →
  (a, x) ∈ cells t → equal_key Compare k (fst x) = true →
  map_index Compare T_default (Some this) k w = Val (Some a) w
  ∧ map_index_const Compare (Some this) k w = Val (Some a) w
  ∧ load_second (Some a) w = Val (snd x) w.
Proof.
  intros Hwf Ho Hin He. split_and!.
  - unfold map_index.
    by rewrite (bind_val _ _ _ _ _
      (map_insert_present Compare Hswo w this s t k T_default a x Hwf Ho Hin He)).
  - destruct (locate_root Compare Hswo k t Ho) as [Hp _].
    unfold map_index_const. rewrite (find_root_spec Compare _ _ _ _ _ _ Hwf).
    by rewrite (Hp a x Hin He).
  - by eapply map_at_present.
Qed.

Lemma deref_end_not_val w this s t x :
  map_wf w this s t → iterator_deref (mkIter (Some this) (Some s)) w ≠ Val x w.
Proof.
  intros (Hobj & _). unfold iterator_deref. simpl.
  mrun (load_map_val _ _ _ Hobj). by rewrite ptr_eqb_refl.
Qed.

(** X4: [erase(find(k))] throws [invalid_iterator] when [k] is absent;
    when [k] is present it removes exactly the element of [k], keeps the
    red-black invariants, and [count(k)] is 0 afterwards. *)
Theorem erase_found_key w this s t k :
  map_wf w this s t → rb_tree Compare t →
  (¬ present Compare k t →
     ∃ it, map_find Compare (Some this) k w = Val it w
           ∧ map_erase (Some this) it w = Throw invalid_iterator w)
  ∧ (∀ a x, (a, x) ∈ cells t → equal_key Compare k (fst x) = true →
       ∃ it w' T' L1 L2,
         map_find Compare (Some this) k w = Val it w
         ∧ map_erase (Some this) it w = Val tt w'
         ∧ map_wf w' this s T' ∧ rb_tree Compare T'
         ∧ elems t = L1 ++ x :: L2 ∧ elems T' = L1 ++ L2
         ∧ ¬ present Compare k T'
         ∧ map_count Compare (Some this) k w' = Val 0 w').
Proof.
  intros Hwf Hrb. split.
  - intros Habs. eexists. split.
    + exact (map_find_absent w this s t k Hwf (proj1 Hrb) Habs).
    + apply (map_erase_invalid w this s t _ Hwf). by left.
  - intros a x Hin He.
    destruct (map_erase_valid Compare w this s t a x Hwf Hrb Hin)
      as (w' & T' & L1 & L2 & Herase & Hwf' & Hrb' & Hc & Hc' & _).
    assert (¬ present Compare k T') as Habs.
    { intros Hp. apply (erased_absent Compare t T' L1 L2 a x (proj1 Hrb) Hc Hc').
      eapply present_eqv; [|exact Hp]. by apply (eqv_sym Compare). }
    exists (mkIter (Some this) (Some a)), w', T', L1.*2, L2.*2. split_and!; try done.
    + exact (map_find_present w this s t k a x Hwf (proj1 Hrb) Hin He).
    + by rewrite elems_cells, Hc, fmap_app, fmap_cons.
    + by rewrite elems_cells, Hc', fmap_app.
    + exact (map_count_absent w' this s T' k Hwf' (proj1 Hrb') Habs).
Qed.

(** X5: an [insert] does not disturb the lookup of a key that is not
    equivalent to the inserted one: [find] returns the same iterator as
    before, and it dereferences to the same pair. *)
Theorem lookup_stable_under_insert w this s t k v k' :
  map_wf w this s t → rb_tree Compare t →
  equal_key Compare k' k = false →
  ∃ res w' it,
    map_insert Compare (Some this) (k, v) w = Val res w'
    ∧ map_find Compare (Some this) k' w = Val it w
    ∧ map_find Compare (Some this) k' w' = Val it w'
    ∧ (∀ x, iterator_deref it w = Val x w → iterator_deref it w' = Val x w').
Proof.
  intros Hwf Hrb Hne.
  assert (∃ res w' T', map_insert Compare (Some this) (k, v) w = Val res w'
            ∧ map_wf w' this s T' ∧ ordered Compare T'
            ∧ (∀ p, p ∈ cells t → p ∈ cells T')
            ∧ (∀ p, p ∈ cells T' → p ∈ cells t ∨ fst (snd p) = k))
    as (res & w' & T' & Hins & Hwf' & Ho' & Hsub & Hsup).
  { destruct (present_dec k t (proj1 Hrb)) as [(a & x & Hin & He)|Habs].
    - exists (mkIter (Some this) (Some a), false), w, t.
      split_and!; [|done|apply Hrb|auto|auto].
      exact (map_insert_present Compare Hswo w this s t k v a x Hwf
               (proj1 Hrb) Hin He).
    - destruct (map_insert_absent Compare Hswo w this s t k v Hwf Hrb Habs)
        as (w' & T' & L1 & L2 & Hins & Hwf' & Hrb' & Hc & Hc' & _).
      eexists _, w', T'. split; [exact Hins|]. split_and!; try done.
      + apply Hrb'.
      + intros p. rewrite Hc, Hc'. set_solver.
      + intros p. rewrite Hc, Hc', !elem_of_app, elem_of_cons.
        intros [?|[->|?]]; auto. }
  exists res, w'.
  destruct (present_dec k' t (proj1 Hrb)) as [(a' & x' & Hin & He)|Habs].
  - exists (mkIter (Some this) (Some a')). split_and!; try done.
    + exact (map_find_present w this s t k' a' x' Hwf (proj1 Hrb) Hin He).
    + exact (map_find_present w' this s T' k' a' x' Hwf' Ho' (Hsub _ Hin) He).
    + intros x. rewrite (iterator_deref_cell _ _ _ _ _ _ Hwf Hin).
      intros [= <-]. exact (iterator_deref_cell _ _ _ _ _ _ Hwf' (Hsub _ Hin)).
  - exists (mkIter (Some this) (Some s)). split_and!; try done.
    + exact (map_find_absent w this s t k' Hwf (proj1 Hrb) Habs).
    + apply (map_find_absent w' this s T' k' Hwf' Ho').
      intros Hp. apply present_cell in Hp as (a & x & Hin & He).
      destruct (Hsup _ Hin) as [Hin'|Hk].
      * apply Habs, present_cell. eauto.
      * simpl in Hk. subst k. congruence.
    + intros x Hd. by apply (deref_end_not_val _ _ _ _ _ Hwf) in Hd.
Qed.

(** X6: an [erase] does not disturb the lookup of a key that is not
    equivalent to the erased one: [find] returns the same iterator as
    before, and it dereferences to the same pair. *)
Theorem lookup_stable_under_erase w this s t a x k' :
  map_wf w this s t → rb_tree Compare t →
  (a, x) ∈ cells t → equal_key Compare k' (fst x) = false →
  ∃ w' it,
    map_erase (Some this) (mkIter (Some this) (Some a)) w = Val tt w'
    ∧ map_find Compare (Some this) k' w = Val it w
    ∧ map_find Compare (Some this) k' w' = Val it w'
    ∧ (∀ y, iterator_deref it w = Val y w → iterator_deref it w' = Val y w').
Proof.
  intros Hwf Hrb Hin Hne.
  destruct (map_erase_valid Compare w this s t a x Hwf Hrb Hin)
    as (w' & T' & L1 & L2 & Herase & Hwf' & Hrb' & Hc & Hc' & _).
  exists w'.
  destruct (present_dec k' t (proj1 Hrb)) as [(a' & x' & Hin' & He)|Habs].
  - assert ((a', x') ∈ cells T') as Hin''.
    { rewrite Hc in Hin'. rewrite Hc'.
      rewrite elem_of_app, elem_of_cons in Hin'. rewrite elem_of_app.
      destruct Hin' as [?|[[= -> ->]|?]]; [tauto|congruence|tauto]. }
    exists (mkIter (Some this) (Some a')). split_and!; try done.
    + exact (map_find_present w this s t k' a' x' Hwf (proj1 Hrb) Hin' He).
    + exact (map_find_present w' this s T' k' a' x' Hwf' (proj1 Hrb') Hin'' He).
    + intros y. rewrite (iterator_deref_cell _ _ _ _ _ _ Hwf Hin').
      intros [= <-]. exact (iterator_deref_cell _ _ _ _ _ _ Hwf' Hin'').
  - exists (mkIter (Some this) (Some s)). split_and!; try done.
    + exact (map_find_absent w this s t k' Hwf (proj1 Hrb) Habs).
    + apply (map_find_absent w' this s T' k' Hwf' (proj1 Hrb')).
      intros Hp. apply present_cell in Hp as (b & y & Hb & He).
      apply Habs, present_cell. exists b, y. split; [|done].
      rewrite Hc. rewrite Hc' in Hb. set_solver.
    + intros y Hd. by apply (deref_end_not_val _ _ _ _ _ Hwf) in Hd.
Qed.

(** X7: [erase] of an element followed by [insert] of the same pair gives
    a map with the same pairs in the same order and the same [size], and
    the red-black invariants hold again. *)
Theorem erase_then_insert_restores w this s t a x :
  map_wf w this s t → rb_tree Compare t → (a, x) ∈ cells t →
  ∃ w1 b w2 T2,
    map_erase (Some this) (mkIter (Some this) (Some a)) w = Val tt w1
    ∧ map_insert Compare (Some this) x w1
      = Val (mkIter (Some this) (Some b), true) w2
    ∧ map_wf w2 this s T2 ∧ rb_tree Compare T2
    ∧ elems T2 = elems t
    ∧ map_size (Some this) w = Val (tsize t) w
    ∧ map_size (Some this) w2 = Val (tsize t) w2.
Proof.
  intros Hwf Hrb Hin.
  destruct (map_erase_valid Compare w this s t a x Hwf Hrb Hin)
    as (w1 & T1 & L1 & L2 & Herase & Hwf1 & Hrb1 & Hc & Hc1 & _).
  pose proof (erased_absent Compare t T1 L1 L2 a x (proj1 Hrb) Hc Hc1) as Habs.
  destruct x as [k v]. simpl in Habs.
  destruct (map_insert_absent Compare Hswo w1 this s T1 k v Hwf1 Hrb1 Habs)
    as (w2 & T2 & K1 & K2 & Hins & Hwf2 & Hrb2 & Hk & Hk2 & _).
  assert (elems T2 = elems t) as Hel.
  { apply (StronglySorted_unique_strong (key_lt Compare)).
    - intros x1 x2 _ _ H1 H2. apply (lt_asym Compare Hswo) in H1.
      unfold key_lt in H2. congruence.
    - apply Hrb2.
    - apply Hrb.
    - rewrite !elems_cells, Hk2, Hc, !fmap_app, !fmap_cons. simpl.
      rewrite <- !Permutation_middle. f_equiv.
      rewrite <- !fmap_app. by rewrite <- Hk, Hc1. }
  exists w1, (fresh (dom (nodes w1))), w2, T2. split_and!; try done.
  - destruct Hwf as (Hobj & _). unfold map_size.
    by mrun (load_map_val _ _ _ Hobj).
  - destruct Hwf2 as (Hobj & _). unfold map_size.
    mrun (load_map_val _ _ _ Hobj).
    by rewrite !tsize_cells, <- !(length_fmap snd), <- !elems_cells, Hel.
Qed.

End lookup.


(** ** Iteration in key order *)

Section iteration.
Context {Key T : Type}.
Variable Compare : Key → Key → bool.
Implicit Types (h : gmap nat (@RBTNode Key T)) (t l r m : @tree Key T)
  (cx : list (@frame Key T)) (f g : @frame Key T) (w : @world Key T).

Local Arguments bind : simpl never.
Ltac msimpl := repeat (progress simpl || rewrite bind_ret || rewrite bind_bind).
Ltac mrun E :=
  let H := fresh in
  pose proof E as H; rewrite (bind_val _ _ _ _ _ H); clear H; msimpl.

Lemma map_empty_spec w this s t :
  map_wf w this s t →
  map_empty (Some this) w = Val (is_null (root t)) w.
Proof.
  intros (Hobj & _). unfold map_empty. mrun (load_map_val _ _ _ Hobj).
  by destruct t.
Qed.

Lemma cell_in_not_sentinel w this s t a x :
  map_wf w this s t → (a, x) ∈ cells t → a ≠ s.
Proof.
  intros (_ & Hnd & _) Hin ->. simpl in Hnd. apply NoDup_cons in Hnd as [Hs _].
  apply Hs. rewrite addrs_cells. apply list_elem_of_fmap. by exists (s, x).
Qed.

(** X8: on an empty map [begin()] is [end()] and [empty()] is true;
    otherwise [begin()] differs from [end()], [empty()] is false, and
    [begin()] points to the first element, whose key is less than every
    other key when the tree is ordered. *)
Theorem begin_is_first w this s t :
  map_wf w this s t →
  (t = E →
     map_begin (Some this) w = map_end (Some this) w
     ∧ map_empty (Some this) w = Val true w)
  ∧ (∀ a x L, cells t = (a, x) :: L →
       map_begin (Some this) w = Val (mkIter (Some this) (Some a)) w
       ∧ iterator_deref (mkIter (Some this) (Some a)) w = Val x w
       ∧ map_begin (Some this) w ≠ map_end (Some this) w
       ∧ map_empty (Some this) w = Val false w
       ∧ (ordered Compare t → Forall (key_lt Compare x) L.*2)).
Proof.
  intros Hwf. rewrite (map_begin_spec _ _ _ _ Hwf), (map_end_spec _ _ _ _ Hwf).
  rewrite (map_empty_spec _ _ _ _ Hwf). split.
  - by intros ->.
  - intros a x L Hc.
    assert ((a, x) ∈ cells t) as Hin by (rewrite Hc; set_solver).
    pose proof (cell_in_not_sentinel _ _ _ _ _ _ Hwf Hin) as Hne.
    rewrite leftmost_or_head, addrs_cells, Hc. simpl. split_and!.
    + done.
    + by eapply iterator_deref_cell.
    + congruence.
    + by destruct t.
    + intros Ho. unfold ordered in Ho. rewrite elems_cells, Hc in Ho.
      simpl in Ho. by apply StronglySorted_inv in Ho as [_ ?].
Qed.

Lemma StronglySorted_snoc_inv {A} (R : relation A) (L : list A) z :
  StronglySorted R (L ++ [z]) → Forall (λ y, R y z) L.
Proof.
  induction L as [|u L IH]; simpl; intros H; [done|].
  apply StronglySorted_inv in H as [Hs Hf]. constructor; [|by apply IH].
  rewrite Forall_app, Forall_singleton in Hf. tauto.
Qed.

(** X9: [--end()] throws [invalid_iterator] on an empty map; otherwise it
    points to the last element, whose key is greater than every other key
    when the tree is ordered, and [++] from there gives [end()] again. *)
Theorem decrement_end_is_last w this s t :
  map_wf w this s t →
  (t = E →
     iterator_decr (mkIter (Some this) (Some s)) w = Throw invalid_iterator w)
  ∧ (∀ L a x, cells t = L ++ [(a, x)] →
       iterator_decr (mkIter (Some this) (Some s)) w
       = Val (mkIter (Some this) (Some a)) w
       ∧ iterator_deref (mkIter (Some this) (Some a)) w = Val x w
       ∧ iterator_incr (mkIter (Some this) (Some a)) w
         = Val (mkIter (Some this) (Some s)) w
       ∧ (ordered Compare t → Forall (λ y, key_lt Compare y x) L.*2)).
Proof.
  intros Hwf. split.
  - intros ->. exact (iterator_decr_begin w this s E Hwf).
  - intros L a x Hc.
    assert ((a, x) ∈ cells t) as Hin by (rewrite Hc; set_solver).
    assert (order s t = L.*1 ++ a :: s :: []) as Hord.
    { unfold order. rewrite addrs_cells, Hc, fmap_app. simpl.
      by rewrite <- app_assoc. }
    split_and!.
    + destruct t as [|c b l y r]; [by destruct L|].
      rewrite (iterator_decr_end _ _ _ _ _ _ _ _ Hwf).
      rewrite rightmost_or_last, addrs_cells, Hc, fmap_app. simpl.
      by rewrite last_snoc.
    + by eapply iterator_deref_cell.
    + exact (iterator_incr_order w this s t _ _ _ _ Hwf Hord).
    + intros Ho. unfold ordered in Ho.
      rewrite elems_cells, Hc, fmap_app in Ho. simpl in Ho.
      by apply StronglySorted_snoc_inv in Ho.
Qed.

(** X10: [++] moves an iterator from an element to the element that
    follows it, which has a greater key when the tree is ordered, and [--]
    moves it back. *)
Theorem increment_visits_next_key w this s t L1 a x b y L2 :
  map_wf w this s t →
  cells t = L1 ++ (a, x) :: (b, y) :: L2 →
  iterator_incr (mkIter (Some this) (Some a)) w
  = Val (mkIter (Some this) (Some b)) w
  ∧ iterator_decr (mkIter (Some this) (Some b)) w
    = Val (mkIter (Some this) (Some a)) w
  ∧ iterator_deref (mkIter (Some this) (Some b)) w = Val y w
  ∧ (ordered Compare t → key_lt Compare x y).
Proof.
  intros Hwf Hc.
  assert (order s t = L1.*1 ++ a :: b :: (L2.*1 ++ [s])) as Hord.
  { unfold order. rewrite addrs_cells, Hc, fmap_app. simpl.
    by rewrite <- app_assoc. }
  split_and!.
  - exact (iterator_incr_order w this s t _ _ _ _ Hwf Hord).
  - exact (iterator_decr_order w this s t _ _ _ _ Hwf Hord).
  - apply (iterator_deref_cell w this s t b y Hwf). rewrite Hc. set_solver.
  - intros Ho. unfold ordered in Ho.
    rewrite elems_cells, Hc, fmap_app in Ho. simpl in Ho.
    apply StronglySorted_app_mid in Ho as [_ Hf].
    by apply Forall_cons in Hf as [? _].
Qed.

End iteration.


(** ** The postfix operators *)

Section postfix.
Context {Key T : Type}.
Implicit Types (h : gmap nat (@RBTNode Key T)) (t l r m : @tree Key T)
  (cx : list (@frame Key T)) (f g : @frame Key T) (w : @world Key T).

Local Arguments bind : simpl never.
Local Arguments load : simpl never.
Local Arguments direction : simpl never.
Local Arguments ptr_eqb : simpl never.
Ltac msimpl := repeat (progress simpl || rewrite bind_ret || rewrite bind_bind).
Ltac mrun E :=
  let H := fresh in
  pose proof E as H; rewrite (bind_val _ _ _ _ _ H); clear H; msimpl.

Lemma climb_until_left_spec h s :
  ∀ cx c a l x r fuel,
    length cx < fuel →
    Rep h s cx (N c a l x r) →
    (let* p := climb_until_left fuel (Some a) in
     let* n := load p in ret (parent n)) h
    = Val (Some (left_ancestor s cx)) h.
Proof.
  induction cx as [|f cx IH]; intros c a l x r fuel Hf HR;
    (destruct fuel; [simpl in Hf; lia|]); simpl in *; msimpl.
  - mrun (load_focus _ _ _ _ _ _ _ _ HR).
    pose proof (Rep_lookup_sentinel _ _ _ _ HR) as Hs. simpl in Hs.
    assert (load (Some s) h = Val (mkNode RED None (Some a) None None) h) as Hl.
    { unfold load. by rewrite Hs. }
    mrun Hl. rewrite ptr_eqb_refl. msimpl.
    mrun (load_focus _ _ _ _ _ _ _ _ HR). done.
  - mrun (load_focus _ _ _ _ _ _ _ _ HR).
    pose proof (Rep_parent _ _ _ _ _ HR) as HRp.
    mrun (load_focus _ _ _ _ _ _ _ _ HRp).
    destruct (fleft f) eqn:Hfl; msimpl.
    + rewrite ptr_eqb_refl. msimpl.
      mrun (load_focus _ _ _ _ _ _ _ _ HR). done.
    + rewrite ptr_eqb_root; [msimpl|].
      * eapply IH; [|exact HRp]. lia.
      * destruct HR as (Hnd & _). simpl in Hnd. nd_norm Hnd. done.
Qed.

(** X11: [it++] returns the iterator as it was and moves it to where
    [++it] moves it, in [iterator] and in [const_iterator], although the
    two climb to the successor by different loops; on [end()] both throw
    [invalid_iterator]. *)
Theorem post_increment_spec w this s t :
  map_wf w this s t →
  (∀ a, a ∈ addrs t →
     ∃ q, iterator_incr (mkIter (Some this) (Some a)) w
          = Val (mkIter (Some this) (Some q)) w
          ∧ iterator_post_incr (mkIter (Some this) (Some a)) w
            = Val (mkIter (Some this) (Some a), mkIter (Some this) (Some q)) w
          ∧ const_iterator_post_incr (mkIter (Some this) (Some a)) w
            = Val (mkIter (Some this) (Some a), mkIter (Some this) (Some q)) w)
  ∧ iterator_post_incr (mkIter (Some this) (Some s)) w = Throw invalid_iterator w
  ∧ const_iterator_post_incr (mkIter (Some this) (Some s)) w
    = Throw invalid_iterator w.
Proof.
  intros Hwf. split_and!.
  - intros a Ha.
    destruct (focus_exists a t [] Ha) as (cx & c & l & x & r & Hpl).
    simpl in Hpl. subst t. exists (successor s cx r).
    split; [exact (iterator_incr_spec w this s cx c a l x r Hwf)|].
    pose proof (map_wf_focus _ _ _ _ _ Hwf) as HR.
    destruct Hwf as (Hobj & _).
    pose proof (fuel_focus _ _ _ _ _ _ _ _ HR) as (Hfl & Hfr & Hfc).
    remember (S (size (nodes w))) as fuel eqn:Hfuel.
    split.
    + unfold iterator_post_incr. rewrite bind_fuel_of, <- Hfuel. simpl.
      mrun (load_map_val _ _ _ Hobj).
      rewrite ptr_eqb_Some_ne by apply (Rep_sentinel_ne _ _ _ _ _ _ _ _ HR).
      mrun (lift_val_same _ _ _ (load_focus _ _ _ _ _ _ _ _ HR)).
      unfold successor. destruct r as [|cr ar lr xr rr]; simpl.
      * pose proof (climb_until_left_spec _ _ _ _ _ _ _ _ _ Hfc HR) as Hcl.
        unfold lift, bind. unfold bind in Hcl.
        destruct (climb_until_left fuel (Some a) (nodes w)) as [p h'| | |];
          try done.
        simpl. destruct (load p h') as [n h''| | |]; try done.
        simpl in *. injection Hcl as -> ->. by destruct w.
      * pose proof (Rep_right _ _ _ _ _ _ _ _ HR) as HRr.
        simpl in Hfr. assert (Hf' : tsize lr < fuel) by lia.
        by mrun (lift_val_same _ _ _
                   (while_left_spec _ _ _ _ _ _ _ _ _ Hf' HRr)).
    + unfold const_iterator_post_incr. rewrite bind_fuel_of, <- Hfuel. simpl.
      mrun (load_map_val _ _ _ Hobj).
      rewrite ptr_eqb_Some_ne by apply (Rep_sentinel_ne _ _ _ _ _ _ _ _ HR).
      mrun (lift_val_same _ _ _ (load_focus _ _ _ _ _ _ _ _ HR)).
      unfold successor. destruct r as [|cr ar lr xr rr]; simpl.
      * by mrun (lift_val_same _ _ _
                   (climb_from_right_spec _ _ _ _ _ _ _ _ _ Hfc HR)).
      * pose proof (Rep_right _ _ _ _ _ _ _ _ HR) as HRr.
        simpl in Hfr. assert (Hf' : tsize lr < fuel) by lia.
        by mrun (lift_val_same _ _ _
                   (while_left_spec _ _ _ _ _ _ _ _ _ Hf' HRr)).
  - destruct Hwf as (Hobj & _). unfold iterator_post_incr.
    rewrite bind_fuel_of. simpl. mrun (load_map_val _ _ _ Hobj).
    by rewrite ptr_eqb_refl.
  - destruct Hwf as (Hobj & _). unfold const_iterator_post_incr.
    rewrite bind_fuel_of. simpl. mrun (load_map_val _ _ _ Hobj).
    by rewrite ptr_eqb_refl.
Qed.

Lemma bind_ext {St A B} (m : M St A) (k1 k2 : A → M St B) (st : St) :
  (∀ a st', k1 a st' = k2 a st') → bind m k1 st = bind m k2 st.
Proof. intros H. unfold bind. destruct (m st); auto. Qed.

Lemma post_decr_decr (it : iterator) w :
  iterator_post_decr it w
  = (let* it' := iterator_decr it in ret (it, it')) w.
Proof.
  destruct it as [mp p]. unfold iterator_post_decr, iterator_decr. simpl.
  rewrite bind_bind. apply bind_ext; intros fuel w1.
  rewrite bind_bind. apply bind_ext; intros m w2.
  rewrite bind_bind. apply bind_ext; intros b w3.
  destruct (ptr_eqb p b); [done|].
  rewrite bind_bind. apply bind_ext; intros n w4.
  destruct (negb (is_null (left n))).
  - rewrite bind_bind. apply bind_ext; intros q w5. by rewrite bind_ret.
  - rewrite bind_bind. apply bind_ext; intros q w5.
    rewrite bind_bind. apply bind_ext; intros n' w6. by rewrite bind_ret.
Qed.

(** X12: [it--] returns the iterator as it was and moves it to where
    [--it] moves it; on [begin()] it throws [invalid_iterator]. *)
Theorem post_decrement_spec w this s t :
  map_wf w this s t →
  (∀ p, p ∈ order s t → p ≠ leftmost_or s t →
     ∃ q, iterator_decr (mkIter (Some this) (Some p)) w
          = Val (mkIter (Some this) (Some q)) w
          ∧ iterator_post_decr (mkIter (Some this) (Some p)) w
            = Val (mkIter (Some this) (Some p), mkIter (Some this) (Some q)) w)
  ∧ ∃ b, map_begin (Some this) w = Val b w
         ∧ iterator_decr b w = Throw invalid_iterator w
         ∧ iterator_post_decr b w = Throw invalid_iterator w.
Proof.
  intros Hwf. split.
  - intros p Hp Hne.
    assert (∃ q, iterator_decr (mkIter (Some this) (Some p)) w
                 = Val (mkIter (Some this) (Some q)) w) as (q & Hq).
    { unfold order in Hp. apply elem_of_app in Hp as [Hp|Hp].
      - destruct (focus_exists p t [] Hp) as (cx & c & l & x & r & Hpl).
        simpl in Hpl. subst t. eexists.
        exact (iterator_decr_spec w this s cx c p l x r Hwf Hne).
      - apply list_elem_of_singleton in Hp as ->.
        destruct t as [|c a l x r]; [done|].
        eexists. exact (iterator_decr_end w this s c a l x r Hwf). }
    exists q. split; [done|]. rewrite post_decr_decr. by mrun Hq.
  - exists (mkIter (Some this) (Some (leftmost_or s t))).
    pose proof (iterator_decr_begin w this s t Hwf) as Hd.
    split_and!; [by apply map_begin_spec|done|].
    rewrite post_decr_decr. unfold bind. by rewrite Hd.
Qed.

End postfix.


(** ** [clear] and the destructor *)

Section clear.
Context {Key T : Type}.
Implicit Types (h : gmap nat (@RBTNode Key T)) (t l r m : @tree Key T)
  (cx : list (@frame Key T)) (f g : @frame Key T) (w : @world Key T).

Local Arguments bind : simpl never.
Local Arguments load : simpl never.
Local Arguments store : simpl never.
Local Arguments delete_node : simpl never.
Local Arguments lift : simpl never.
Local Arguments load_map : simpl never.
Local Arguments store_map : simpl never.
Ltac msimpl := repeat (progress simpl || rewrite bind_ret || rewrite bind_bind).
Ltac mrun E :=
  let H := fresh in
  pose proof E as H; rewrite (bind_val _ _ _ _ _ H); clear H; msimpl.

Lemma load_val h a n : h !! a = Some n → load (Some a) h = Val n h.
Proof. unfold load. by intros ->. Qed.

(** [clear(node)] frees the nodes of the subtree and touches no other
    node. *)
Lemma clear_priv_spec :
  ∀ t h par fuel,
    tsize t < fuel → NoDup (addrs t) → rep h par t →
    ∃ h', clear_priv fuel (root t) h = Val tt h'
          ∧ (∀ k, k ∈ addrs t → h' !! k = None)
          ∧ (∀ k, k ∉ addrs t → h' !! k = h !! k).
Proof.
  induction t as [|c a l IHl x r IHr]; intros h par fuel Hfuel Hnd Hrep;
    (destruct fuel; [simpl in Hfuel; lia|]); simpl clear_priv.
  { exists h. split; [done|]. split; [|done].
    intros k Hk. by apply elem_of_nil in Hk. }
  simpl in *. destruct Hrep as (Ha & Hl & Hr).
  apply NoDup_app in Hnd as (Hndl & Hdj & Hndr).
  apply NoDup_cons in Hndr as (Har & Hndr).
  assert (a ∉ addrs l) as Hal.
  { intros Hin. apply (Hdj _ Hin). set_solver. }
  rewrite (bind_val _ _ _ _ _ (store_val _ _ _ _ Ha)).
  set (na := set_parent None _). set (h1 := <[a := na]> h).
  assert (h1 !! a = Some na) as Ha1 by apply lookup_insert_eq.
  mrun (load_val _ _ _ Ha1).
  (* the left subtree *)
  assert (∃ h2, when (negb (is_null (root l))) (clear_priv fuel (root l)) h1
                = Val tt h2
                ∧ (∀ k, k ∈ addrs l → h2 !! k = None)
                ∧ (∀ k, k ∉ addrs l → h2 !! k = h1 !! k)) as (h2 & E2 & Hin2 & Hout2).
  { destruct l as [|cl al ll xl rl].
    - exists h1. split; [done|]. split; [|done].
      intros k Hk. by apply elem_of_nil in Hk.
    - apply (IHl h1 (Some a) fuel); [simpl in *; lia|done|].
      by apply rep_insert. }
  mrun E2.
  assert (h2 !! a = Some na) as Ha2 by (by rewrite Hout2).
  mrun (load_val _ _ _ Ha2).
  (* the right subtree *)
  assert (rep h2 (Some a) r) as Hr2.
  { eapply rep_frame; [|exact Hr]. intros k Hk.
    rewrite Hout2; [|intros Hkl; apply (Hdj _ Hkl); set_solver].
    apply lookup_insert_ne. by intros ->. }
  assert (∃ h3, when (negb (is_null (root r))) (clear_priv fuel (root r)) h2
                = Val tt h3
                ∧ (∀ k, k ∈ addrs r → h3 !! k = None)
                ∧ (∀ k, k ∉ addrs r → h3 !! k = h2 !! k)) as (h3 & E3 & Hin3 & Hout3).
  { destruct r as [|cr ar lr xr rr].
    - exists h2. split; [done|]. split; [|done].
      intros k Hk. by apply elem_of_nil in Hk.
    - apply (IHr h2 (Some a) fuel); [simpl in *; lia|done|done]. }
  mrun E3.
  assert (h3 !! a = Some na) as Ha3 by (by rewrite Hout3).
  exists (delete a h3). split.
  { unfold delete_node. by rewrite Ha3. }
  split.
  - intros k. rewrite elem_of_app, elem_of_cons. intros [Hk|[->|Hk]].
    + rewrite lookup_delete_ne by (by intros ->).
      rewrite Hout3; [by apply Hin2|].
      intros Hkr. apply (Hdj _ Hk). set_solver.
    + apply lookup_delete_eq.
    + rewrite lookup_delete_ne by (by intros ->). by apply Hin3.
  - intros k. rewrite elem_of_app, elem_of_cons. intros Hk.
    rewrite lookup_delete_ne by (intros ->; tauto).
    rewrite Hout3 by tauto. rewrite Hout2 by tauto.
    apply lookup_insert_ne. intros ->. tauto.
Qed.

Lemma clear_tree w this s t :
  map_wf w this s t →
  ∃ h1, clear_priv (S (size (nodes w))) (root t) (nodes w) = Val tt h1
        ∧ (∀ k, k ∈ addrs t → h1 !! k = None)
        ∧ (∀ k, k ∉ addrs t → h1 !! k = nodes w !! k)
        ∧ h1 !! s = Some (mkNode RED None (root t) None None)
        ∧ s ∉ addrs t.
Proof.
  intros (Hobj & HR). pose proof HR as (Hnd & Hs & Ht). simpl in *.
  apply NoDup_cons in Hnd as (Hsn & Hnd).
  pose proof (Rep_size _ _ _ _ HR) as Hsz. rewrite <- tsize_addrs in Hsz.
  simpl in Hsz.
  destruct (clear_priv_spec t (nodes w) (Some s) (S (size (nodes w))))
    as (h1 & Hclear & Hin & Hout); [lia|done|done|].
  exists h1. split_and!; try done. by rewrite Hout.
Qed.

(** X13: [clear()] leaves an empty map on the same sentinel: [size] 0,
    [empty()] true, [begin() == end()], every [find] at [end()]; it frees
    each node of the tree, and changes no node of the store besides these
    and its sentinel, and no other map. *)
Theorem clear_empties_map (Compare : Key → Key → bool) w this s t :
  map_wf w this s t →
  ∃ w', map_clear (Some this) w = Val tt w'
    ∧ map_wf w' this s E
    ∧ map_size (Some this) w' = Val 0 w'
    ∧ map_empty (Some this) w' = Val true w'
    ∧ map_begin (Some this) w' = map_end (Some this) w'
    ∧ (∀ k, map_find Compare (Some this) k w' = map_end (Some this) w'
            ∧ map_count Compare (Some this) k w' = Val 0 w')
    ∧ (∀ a, a ∈ addrs t → nodes w' !! a = None)
    ∧ (∀ a, a ∉ s :: addrs t → nodes w' !! a = nodes w !! a)
    ∧ (∀ o, o ≠ this → objs w' !! o = objs w !! o).
Proof.
  intros Hwf.
  destruct (clear_tree _ _ _ _ Hwf) as (h1 & Hclear & Hin & Hout & Hs1 & Hsn).
  pose proof Hwf as (Hobj & HR).
  pose proof (Rep_lookup_sentinel _ _ _ _ HR) as Hs. simpl in Hs.
  unfold map_clear. rewrite bind_fuel_of.
  mrun (load_map_val _ _ _ Hobj).
  mrun (lift_val_same _ _ _ (load_val _ _ _ Hs)).
  mrun (lift_val _ _ _ _ Hclear).
  mrun (lift_mk _ _ (objs w) _ _ (store_val _ _ _ (set_left None) Hs1)).
  rewrite (store_map_val (mkWorld _ (objs w)) _ _ _ Hobj). simpl.
  eexists. split; [reflexivity|].
  match goal with |- map_wf ?W _ _ _ ∧ _ =>
    set (w' := W); assert (map_wf w' this s E) as Hwf' end.
  { split; simpl; [by rewrite lookup_insert_eq|].
    split; [apply NoDup_singleton|]. simpl. split; [|done].
    by rewrite lookup_insert_eq. }
  split_and!; try done.
  - unfold map_size. simpl. unfold bind, load_map. simpl.
    by rewrite lookup_insert_eq.
  - exact (map_empty_spec _ _ _ _ Hwf').
  - by rewrite (map_begin_spec _ _ _ _ Hwf'), (map_end_spec _ _ _ _ Hwf').
  - intros k. unfold map_find, map_count.
    by rewrite !(find_root_spec Compare _ _ _ _ _ _ Hwf').
  - intros a Ha. simpl. rewrite lookup_insert_ne by (by intros ->). auto.
  - intros a Ha. simpl. rewrite not_elem_of_cons in Ha. destruct Ha.
    rewrite lookup_insert_ne by done. auto.
  - intros o Ho. simpl. by rewrite lookup_insert_ne.
Qed.

(** X14: [~map()] frees the sentinel and every node of the tree, sets
    [sentinel] to null, and changes no other node and no other map. *)
Theorem destructor_frees_all w this s t :
  map_wf w this s t →
  ∃ w', map_dtor (Some this) w = Val tt w'
    ∧ (∀ a, a ∈ s :: addrs t → nodes w' !! a = None)
    ∧ (∀ a, a ∉ s :: addrs t → nodes w' !! a = nodes w !! a)
    ∧ objs w' !! this = Some (mkMap None (tsize t))
    ∧ (∀ o, o ≠ this → objs w' !! o = objs w !! o).
Proof.
  intros Hwf.
  destruct (clear_tree _ _ _ _ Hwf) as (h1 & Hclear & Hin & Hout & Hs1 & Hsn).
  pose proof Hwf as (Hobj & HR).
  pose proof (Rep_lookup_sentinel _ _ _ _ HR) as Hs. simpl in Hs.
  unfold map_dtor. rewrite bind_fuel_of.
  mrun (load_map_val _ _ _ Hobj).
  mrun (lift_val_same _ _ _ (load_val _ _ _ Hs)).
  mrun (lift_val _ _ _ _ Hclear).
  assert (delete_node (Some s) h1 = Val tt (delete s h1)) as Hdel.
  { unfold delete_node. by rewrite Hs1. }
  mrun (lift_mk _ _ (objs w) _ _ Hdel).
  rewrite (store_map_val (mkWorld _ (objs w)) _ _ _ Hobj). simpl.
  eexists. split; [reflexivity|]. simpl. split_and!.
  - intros a. rewrite elem_of_cons. intros [->|Ha].
    + apply lookup_delete_eq.
    + rewrite lookup_delete_ne by (by intros ->). auto.
  - intros a. rewrite not_elem_of_cons. intros [Has Ha].
    rewrite lookup_delete_ne by done. auto.
  - by rewrite lookup_insert_eq.
  - intros o Ho. by rewrite lookup_insert_ne.
Qed.

End clear.


(** ** [copy], the copy constructor and the assignment *)

Section copy.
Context {Key T : Type}.
Implicit Types (h : gmap nat (@RBTNode Key T)) (t l r m : @tree Key T)
  (cx : list (@frame Key T)) (f g : @frame Key T) (w : @world Key T).

Local Arguments bind : simpl never.
Local Arguments load : simpl never.
Local Arguments store : simpl never.
Local Arguments new_node : simpl never.
Local Arguments lift : simpl never.
Local Arguments load_map : simpl never.
Local Arguments store_map : simpl never.
Ltac msimpl := repeat (progress simpl || rewrite bind_ret || rewrite bind_bind).
Ltac mrun E :=
  let H := fresh in
  pose proof E as H; rewrite (bind_val _ _ _ _ _ H); clear H; msimpl.

(** [if (node->left) node->left->parent = node], at the root of a subtree
    that hangs under no parent yet. *)
Lemma reparent h t p :
  rep h None t → NoDup (addrs t) →
  ∃ h', when (negb (is_null (root t))) (store (root t) (set_parent p)) h
        = Val tt h'
        ∧ rep h' p t
        ∧ (∀ k, k ∉ addrs t → h' !! k = h !! k).
Proof.
  destruct t as [|c a l x r]; simpl.
  - intros _ _. by exists h.
  - intros (Ha & Hl & Hr) Hnd.
    apply NoDup_app in Hnd as (_ & Hdj & Hnd).
    apply NoDup_cons in Hnd as (Har & _).
    assert (a ∉ addrs l) as Hal.
    { intros Hin. apply (Hdj _ Hin). set_solver. }
    rewrite (store_val _ _ _ _ Ha). eexists. split; [reflexivity|].
    split_and!.
    + by rewrite lookup_insert_eq.
    + by apply rep_insert.
    + by apply rep_insert.
    + intros k Hk. apply lookup_insert_ne. set_solver.
Qed.

Lemma clone_of_E_l t' : clone_of (E : @tree Key T) t' → t' = E.
Proof. by destruct t'. Qed.

(** [copy(node, ori)] builds a copy of the subtree at [ori] out of fresh
    nodes and hangs it into the slot [node]; its root has no parent yet.
    On a null [ori] the slot is not written. *)
Lemma copy_spec :
  ∀ t h par sl o upd no fuel,
    (sl = SlotLeft (Some o) ∧ upd = set_left)
    ∨ (sl = SlotRight (Some o) ∧ upd = set_right) →
    tsize t < fuel → rep h par t →
    h !! o = Some no → o ∉ addrs t →
    ∃ h' t',
      copy fuel sl (root t) h = Val tt h'
      ∧ clone_of t t'
      ∧ rep h' None t'
      ∧ NoDup (addrs t')
      ∧ (∀ k, k ∈ addrs t' → h !! k = None)
      ∧ (∀ k, k ∉ addrs t' → k ≠ o → h' !! k = h !! k)
      ∧ h' !! o = Some (match t with E => no | _ => upd (root t') no end).
Proof.
  induction t as [|c a l IHl x r IHr];
    intros h par sl o upd no fuel Hsl Hfuel Hrep Ho Hot;
    (destruct fuel; [simpl in Hfuel; lia|]); simpl copy.
  { exists h, E. split_and!; try done.
    - constructor.
    - intros k Hk. by apply elem_of_nil in Hk. }
  simpl in Hrep, Hot, Hfuel. destruct Hrep as (Ha & Hl & Hr).
  assert (a ≠ o) as Hao by set_solver.
  (* the new node *)
  simpl. unfold load_data. msimpl.
  mrun (load_val _ _ _ Ha). mrun (load_val _ _ _ Ha).
  set (b := fresh (dom h)).
  assert (h !! b = None) as Hb by apply not_elem_of_dom, is_fresh.
  set (nb := RBTNode_of x None None None c).
  assert (new_node nb h = Val (Some b) (<[b := nb]> h)) as Hnew by done.
  mrun Hnew.
  assert (b ≠ o) as Hbo by congruence.
  assert (b ≠ a) as Hba by congruence.
  (* the slot *)
  set (h2 := <[o := upd (Some b) no]> (<[b := nb]> h)).
  assert (write_slot sl (Some b) (<[b := nb]> h) = Val tt h2) as Hw.
  { destruct Hsl as [[-> ->]|[-> ->]]; simpl;
      apply store_val; by rewrite lookup_insert_ne. }
  mrun Hw.
  assert (h2 !! o = Some (upd (Some b) no)) as Ho2 by apply lookup_insert_eq.
  assert (read_slot sl h2 = Val (Some b) h2) as Hrd.
  { destruct Hsl as [[-> ->]|[-> ->]]; simpl;
      by rewrite (bind_val _ _ _ _ _ (load_val _ _ _ Ho2)). }
  mrun Hrd.
  assert (∀ k, k ≠ o → k ≠ b → h2 !! k = h !! k) as Hout2.
  { intros k Hko Hkb. unfold h2. by rewrite !lookup_insert_ne. }
  assert (h2 !! b = Some nb) as Hb2.
  { unfold h2. rewrite lookup_insert_ne by done. apply lookup_insert_eq. }
  assert (h2 !! a = h !! a) as Ha2 by (by apply Hout2).
  rewrite Ha in Ha2. mrun (load_val _ _ _ Ha2).
  assert (∀ t0 p0, o ∉ addrs t0 → rep h p0 t0 → rep h2 p0 t0) as Hframe2.
  { intros t0 p0 Ho0 H0. eapply rep_frame; [|exact H0]. intros k Hk.
    apply Hout2; intros ->; [done|].
    destruct (rep_live _ _ _ _ H0 Hk) as [? ?]. congruence. }
  (* the left subtree *)
  assert (o ∉ addrs l ∧ o ∉ addrs r) as [Hol Hor] by set_solver.
  assert (b ∉ addrs l) as Hbl.
  { intros Hin. destruct (rep_live _ _ _ _ Hl Hin). congruence. }
  assert (b ∉ addrs r) as Hbr.
  { intros Hin. destruct (rep_live _ _ _ _ Hr Hin). congruence. }
  destruct (IHl h2 (Some a) (SlotLeft (Some b)) b set_left nb fuel)
    as (h3 & l' & Hcl & Hclone_l & Hrep_l & Hnd_l & Hfresh_l & Hout3 & Hb3);
    [by left|lia|by apply Hframe2|done|done|].
  mrun Hcl.
  assert (h3 !! b = Some (set_left (root l') nb)) as Hb3'.
  { rewrite Hb3. destruct l; [|done].
    by rewrite (clone_of_E_l _ Hclone_l). }
  clear Hb3. mrun (load_val _ _ _ Hb3').
  destruct (reparent h3 l' (Some b) Hrep_l Hnd_l) as (h4 & Hre & Hrep_l4 & Hout4).
  mrun Hre.
  assert (∀ k, k ∈ addrs l' → k ≠ a ∧ k ≠ b ∧ k ≠ o ∧ k ∉ addrs r) as Hl'.
  { intros k Hk. pose proof (Hfresh_l k Hk) as Hn. split_and!.
    - intros ->. congruence.
    - intros ->. congruence.
    - intros ->. congruence.
    - intros Hin. destruct (rep_live _ _ _ _ (Hframe2 _ _ Hor Hr) Hin). congruence. }
  assert (∀ k, k ∉ addrs l' → k ≠ b → h4 !! k = h2 !! k) as Hout24.
  { intros k Hk Hkb. rewrite Hout4 by done. by apply Hout3. }
  assert (h4 !! a = Some (mkNode c (Some x) (root l) (root r) par)) as Ha4.
  { rewrite Hout24; [done| |done]. intros Hin. by destruct (Hl' _ Hin). }
  mrun (load_val _ _ _ Ha4).
  assert (h4 !! b = Some (set_left (root l') nb)) as Hb4.
  { rewrite Hout4; [done|]. intros Hin. by destruct (Hl' _ Hin) as (_ & ? & _). }
  (* the right subtree *)
  assert (rep h4 (Some a) r) as Hr4.
  { eapply rep_frame; [|exact (Hframe2 _ _ Hor Hr)]. intros k Hk.
    apply Hout24.
    - intros Hin. by destruct (Hl' _ Hin) as (_ & _ & _ & ?).
    - by intros ->. }
  destruct (IHr h4 (Some a) (SlotRight (Some b)) b set_right
              (set_left (root l') nb) fuel)
    as (h5 & r' & Hcr & Hclone_r & Hrep_r & Hnd_r & Hfresh_r & Hout5 & Hb5);
    [by right|lia|done|done|done|].
  mrun Hcr.
  assert (h5 !! b = Some (set_right (root r') (set_left (root l') nb))) as Hb5'.
  { rewrite Hb5. destruct r; [|done].
    by rewrite (clone_of_E_l _ Hclone_r). }
  clear Hb5. mrun (load_val _ _ _ Hb5').
  destruct (reparent h5 r' (Some b) Hrep_r Hnd_r) as (h6 & Hre' & Hrep_r6 & Hout6).
  rewrite Hre'.
  assert (∀ k, k ∈ addrs r' → k ≠ b ∧ k ≠ o ∧ k ∉ addrs l' ∧ h !! k = None) as Hr'.
  { intros k Hk. pose proof (Hfresh_r k Hk) as Hn.
    assert (k ≠ b) as Hkb by (intros ->; congruence).
    assert (k ∉ addrs l') as Hkl.
    { intros Hin. destruct (rep_live _ _ _ _ Hrep_l4 Hin). congruence. }
    assert (h2 !! k = None) as Hn2 by (by rewrite <- Hout24).
    assert (k ≠ o) as Hko by (intros ->; congruence).
    split_and!; try done. by rewrite <- Hout2. }
  assert (∀ k, k ∉ addrs r' → k ≠ b → h6 !! k = h4 !! k) as Hout46.
  { intros k Hk Hkb. rewrite Hout6 by done. by apply Hout5. }
  exists h6, (N c b l' x r'). split; [done|].
  split; [by simpl|]. split; [|split; [|split; [|split]]].
  - simpl. split_and!.
    + rewrite Hout6; [done|]. intros Hin. by destruct (Hr' _ Hin).
    + eapply rep_frame; [|exact Hrep_l4]. intros k Hk.
      apply Hout46; [|by destruct (Hl' _ Hk) as (_ & ? & _)].
      intros Hin. by destruct (Hr' _ Hin) as (_ & _ & ? & _).
    + done.
  - simpl. apply NoDup_app. split_and!; [done| |].
    + intros k Hk. rewrite elem_of_cons. intros [->|Hin].
      * by destruct (Hl' _ Hk) as (_ & ? & _).
      * by destruct (Hr' _ Hin) as (_ & _ & ? & _).
    + apply NoDup_cons. split; [|done].
      intros Hin. by destruct (Hr' _ Hin).
  - simpl. intros k. rewrite elem_of_app, elem_of_cons. intros [Hk|[->|Hk]].
    + pose proof (Hfresh_l _ Hk) as Hn.
      destruct (Hl' _ Hk) as (_ & ? & ? & _). by rewrite <- Hout2.
    + done.
    + by destruct (Hr' _ Hk) as (_ & _ & _ & ?).
  - simpl. intros k. rewrite elem_of_app, elem_of_cons. intros Hk Hko.
    rewrite Hout46 by tauto. rewrite Hout24 by tauto. apply Hout2; tauto.
  - rewrite Hout46, Hout24; [done| | | |].
    + intros Hin. by destruct (Hl' _ Hin) as (_ & _ & ? & _).
    + congruence.
    + intros Hin. by destruct (Hr' _ Hin) as (_ & ? & _).
    + congruence.
Qed.

(** *** What a copy shares with the original *)

Lemma clone_of_elems t : ∀ t', clone_of t t' → elems t' = elems t.
Proof.
  induction t as [|c a l IHl x r IHr]; intros [|c' a' l' x' r']; simpl; try done.
  intros (-> & -> & Hl & Hr). by rewrite (IHl _ Hl), (IHr _ Hr).
Qed.

Lemma clone_of_tsize t : ∀ t', clone_of t t' → tsize t' = tsize t.
Proof.
  induction t as [|c a l IHl x r IHr]; intros [|c' a' l' x' r']; simpl; try done.
  intros (-> & -> & Hl & Hr). by rewrite (IHl _ Hl), (IHr _ Hr).
Qed.

Lemma clone_of_col t t' : clone_of t t' → col t' = col t.
Proof. destruct t, t'; simpl; try done. by intros (-> & _). Qed.

Lemma clone_of_bheight t : ∀ t', clone_of t t' → bheight t' = bheight t.
Proof.
  induction t as [|c a l IHl x r IHr]; intros [|c' a' l' x' r']; simpl; try done.
  intros (-> & -> & Hl & Hr). by rewrite (IHl _ Hl).
Qed.

Lemma clone_of_no_red_red t : ∀ t', clone_of t t' → no_red_red t → no_red_red t'.
Proof.
  induction t as [|c a l IHl x r IHr]; intros [|c' a' l' x' r']; simpl; try done.
  intros (-> & -> & Hl & Hr) (Hc & Hnl & Hnr). split_and!; eauto.
  by rewrite (clone_of_col _ _ Hl), (clone_of_col _ _ Hr).
Qed.

Lemma clone_of_balanced t : ∀ t', clone_of t t' → balanced t → balanced t'.
Proof.
  induction t as [|c a l IHl x r IHr]; intros [|c' a' l' x' r']; simpl; try done.
  intros (-> & -> & Hl & Hr) (Hb & Hbl & Hbr). split_and!; eauto.
  by rewrite (clone_of_bheight _ _ Hl), (clone_of_bheight _ _ Hr).
Qed.

Lemma clone_of_rb_tree (Compare : Key → Key → bool) t t' :
  clone_of t t' → rb_tree Compare t → rb_tree Compare t'.
Proof.
  intros Hc (Ho & Hcol & Hn & Hb). split_and!.
  - unfold ordered. by rewrite (clone_of_elems _ _ Hc).
  - by rewrite (clone_of_col _ _ Hc).
  - by eapply clone_of_no_red_red.
  - by eapply clone_of_balanced.
Qed.

End copy.


Section copy_ctor.
Context {Key T : Type}.
Variable Compare : Key → Key → bool.
Implicit Types (h : gmap nat (@RBTNode Key T)) (t l r m : @tree Key T)
  (cx : list (@frame Key T)) (f g : @frame Key T) (w : @world Key T).

Local Arguments bind : simpl never.
Local Arguments load : simpl never.
Local Arguments store : simpl never.
Local Arguments new_node : simpl never.
Local Arguments lift : simpl never.
Local Arguments load_map : simpl never.
Local Arguments store_map : simpl never.
Local Arguments copy : simpl never.
Local Arguments clear_priv : simpl never.
Ltac msimpl := repeat (progress simpl || rewrite bind_ret || rewrite bind_bind).
Ltac mrun E :=
  let H := fresh in
  pose proof E as H; rewrite (bind_val _ _ _ _ _ H); clear H; msimpl.

(** X15: the copy constructor builds a map with the pairs, the shape and
    the colours of the other map, hence with its red-black invariants and
    its [size], out of fresh nodes; the other map and every node that was
    live are left as they were. *)
Theorem copy_constructor_clones w this other so t :
  map_wf w other so t → this ≠ other →
  ∃ w' s' t',
    map_copy_ctor this (Some other) w = Val tt w'
    ∧ map_wf w' this s' t'
    ∧ clone_of t t'
    ∧ elems t' = elems t
    ∧ (rb_tree Compare t → rb_tree Compare t')
    ∧ map_size (Some this) w' = Val (tsize t) w'
    ∧ map_wf w' other so t
    ∧ (∀ a, a ∈ s' :: addrs t' → nodes w !! a = None)
    ∧ (∀ a, is_Some (nodes w !! a) → nodes w' !! a = nodes w !! a).
Proof.
  intros Hwf Hne. pose proof Hwf as (Hobj & HR).
  pose proof HR as (Hnd & Hso & Ht). simpl in Hso, Ht, Hnd.
  pose proof (Rep_size _ _ _ _ HR) as Hsz. rewrite <- tsize_addrs in Hsz.
  simpl in Hsz.
  unfold map_copy_ctor. rewrite bind_fuel_of.
  remember (S (size (nodes w))) as fuel eqn:Hfuel.
  mrun (load_map_val _ _ _ Hobj).
  set (s := fresh (dom (nodes w))).
  assert (nodes w !! s = None) as Hs by apply not_elem_of_dom, is_fresh.
  set (h1 := <[s := RBTNode_default]> (nodes w)).
  assert (new_node RBTNode_default (nodes w) = Val (Some s) h1) as Hnew by done.
  mrun (lift_val _ _ _ _ Hnew).
  unfold bind at 1. simpl.
  set (objs1 := <[this := mkMap (Some s) (tsize t)]> (objs w)).
  assert (s ≠ so) as Hsso by congruence.
  assert (s ∉ addrs t) as Hst.
  { intros Hin. destruct (rep_live _ _ _ _ Ht Hin). congruence. }
  assert (∀ k, k ≠ s → h1 !! k = nodes w !! k) as Hout1.
  { intros k Hk. unfold h1. by rewrite lookup_insert_ne. }
  assert (h1 !! so = Some (mkNode RED None (root t) None None)) as Hso1.
  { by rewrite Hout1. }
  mrun (lift_mk _ _ objs1 _ _ (load_val _ _ _ Hso1)).
  assert (h1 !! s = Some RBTNode_default) as Hs1 by apply lookup_insert_eq.
  assert (rep h1 (Some so) t) as Ht1 by (by apply rep_insert).
  destruct (copy_spec t h1 (Some so) (SlotLeft (Some s)) s set_left
              RBTNode_default fuel)
    as (h2 & t' & Hcopy & Hclone & Hrep' & Hnd' & Hfresh & Hout2 & Hs2);
    [by left|lia|done|done|done|].
  mrun (lift_mk _ _ objs1 _ _ Hcopy).
  assert (h2 !! s = Some (set_left (root t') RBTNode_default)) as Hs2'.
  { rewrite Hs2. destruct t; [|done]. by rewrite (clone_of_E_l _ Hclone). }
  clear Hs2. mrun (lift_mk _ _ objs1 _ _ (load_val _ _ _ Hs2')).
  destruct (reparent h2 t' (Some s) Hrep' Hnd') as (h3 & Hre & Hrep3 & Hout3).
  assert (when (negb (is_null (root t')))
            (lift (store (root t') (set_parent (Some s)))) (mkWorld h2 objs1)
          = Val tt (mkWorld h3 objs1)) as Hre'.
  { destruct t' as [|c' a' l' x' r']; simpl in *.
    - by injection Hre as <-.
    - by apply lift_mk. }
  rewrite Hre'.
  assert (∀ k, k ∈ addrs t' → k ≠ s ∧ nodes w !! k = None) as Ht'.
  { intros k Hk. pose proof (Hfresh k Hk) as Hn.
    assert (k ≠ s) by (intros ->; congruence).
    split; [done|]. by rewrite <- Hout1. }
  assert (∀ k, is_Some (nodes w !! k) → h3 !! k = nodes w !! k) as Hold.
  { intros k [n Hk].
    assert (k ≠ s) by (intros ->; congruence).
    assert (k ∉ addrs t').
    { intros Hin. destruct (Ht' _ Hin). congruence. }
    rewrite Hout3, Hout2, Hout1; done. }
  exists (mkWorld h3 objs1), s, t'. split; [done|].
  split; [|split; [done|split; [by apply clone_of_elems|split;
    [by apply clone_of_rb_tree|split; [|split; [|split]]]]]].
  - split; simpl.
    + unfold objs1. rewrite lookup_insert_eq.
      by rewrite (clone_of_tsize _ _ Hclone).
    + split; [|split; [|done]]; simpl.
      * apply NoDup_cons. split; [|done]. intros Hin. by destruct (Ht' _ Hin).
      * rewrite Hout3; [done|]. intros Hin. by destruct (Ht' _ Hin).
  - unfold map_size, bind, load_map. simpl. unfold objs1.
    by rewrite lookup_insert_eq.
  - split; simpl.
    + unfold objs1. by rewrite lookup_insert_ne.
    + split; [done|]. split; simpl.
      * rewrite Hold; [done|]. by rewrite Hso.
      * eapply rep_frame; [|exact Ht]. intros k Hk.
        apply Hold. by eapply rep_live.
  - intros a. rewrite elem_of_cons. intros [->|Ha]; [done|].
    by destruct (Ht' _ Ha).
  - done.
Qed.

(** The steps of [operator=] up to the copy. *)
Lemma assign_prefix w this other s t so to :
  map_wf w this s t → map_wf w other so to → this ≠ other →
  ldisj (s :: addrs t) (so :: addrs to) →
  ∃ h2 to',
    map_assign (Some this) (Some other) w
    = (let* sn := lift (load (Some s)) in
       when (negb (is_null (left sn)))
         (lift (store (left sn) (set_parent (Some s))));;
       let* o := load_map (Some other) in
       store_map (Some this) (set_len (len o))) (mkWorld h2 (objs w))
    ∧ clone_of to to'
    ∧ rep h2 None to'
    ∧ NoDup (addrs to')
    ∧ (∀ k, k ∈ addrs to' → k ≠ s ∧ k ≠ so ∧ k ∉ addrs to
            ∧ (k ∈ addrs t ∨ nodes w !! k = None))
    ∧ (∀ k, k ∈ addrs t → k ∉ addrs to' → h2 !! k = None)
    ∧ (∀ k, k ∉ addrs t → k ∉ addrs to' → k ≠ s → h2 !! k = nodes w !! k)
    ∧ h2 !! s = Some (match to with
                      | E => mkNode RED None (root t) None None
                      | _ => mkNode RED None (root to') None None
                      end).
Proof.
  intros Hwf Hwfo Hne Hdj.
  destruct (clear_tree _ _ _ _ Hwf) as (h1 & Hclear & Hin1 & Hout1 & Hs1 & Hst).
  pose proof Hwf as (Hobj & HR). pose proof Hwfo as (Hobjo & HRo).
  pose proof (Rep_lookup_sentinel _ _ _ _ HR) as Hs. simpl in Hs.
  pose proof HRo as (Hndo & Hso & Hto). simpl in Hso, Hto, Hndo.
  pose proof (Rep_size _ _ _ _ HRo) as Hsz. rewrite <- tsize_addrs in Hsz.
  simpl in Hsz.
  assert (so ∉ addrs t ∧ s ≠ so ∧ s ∉ addrs to
          ∧ ∀ k, k ∈ addrs to → k ∉ addrs t) as (Hsot & Hsso & Hsto & Htt).
  { split_and!.
    - intros Hin. apply (Hdj so); set_solver.
    - intros ->. apply (Hdj so); set_solver.
    - intros Hin. apply (Hdj s); set_solver.
    - intros k Hk Hin. apply (Hdj k); set_solver. }
  unfold map_assign. rewrite bind_fuel_of.
  remember (S (size (nodes w))) as fuel eqn:Hfuel.
  rewrite ptr_eqb_Some_ne by done.
  mrun (load_map_val _ _ _ Hobj).
  mrun (lift_val_same _ _ _ (load_val _ _ _ Hs)).
  mrun (lift_val _ _ _ _ Hclear).
  mrun (load_map_val (mkWorld h1 (objs w)) _ _ Hobjo).
  assert (h1 !! so = Some (mkNode RED None (root to) None None)) as Hso1.
  { by rewrite Hout1. }
  mrun (lift_mk _ _ (objs w) _ _ (load_val _ _ _ Hso1)).
  assert (rep h1 (Some so) to) as Hto1.
  { eapply rep_frame; [|exact Hto]. intros k Hk. apply Hout1. by apply Htt. }
  destruct (copy_spec to h1 (Some so) (SlotLeft (Some s)) s set_left
              (mkNode RED None (root t) None None) fuel)
    as (h2 & to' & Hcopy & Hclone & Hrep' & Hnd' & Hfresh & Hout2 & Hs2);
    [by left|lia|done|done|done|].
  mrun (lift_mk _ _ (objs w) _ _ Hcopy).
  exists h2, to'. split; [done|].
  assert (∀ k, k ∈ addrs to' → k ≠ s ∧ k ≠ so ∧ k ∉ addrs to
            ∧ (k ∈ addrs t ∨ nodes w !! k = None)) as Hto'.
  { intros k Hk. pose proof (Hfresh k Hk) as Hn. split_and!.
    - intros ->. congruence.
    - intros ->. congruence.
    - intros Hin. destruct (rep_live _ _ _ _ Hto1 Hin). congruence.
    - destruct (decide (k ∈ addrs t)) as [?|Hni]; [by left|right].
      by rewrite <- Hout1. }
  split; [done|]. split; [done|]. split; [done|]. split; [done|].
  split; [|split].
  - intros k Hk Hk'. rewrite Hout2; [by apply Hin1|done|].
    intros ->. done.
  - intros k Hk Hk' Hks. rewrite Hout2 by done. by apply Hout1.
  - rewrite Hs2. by destruct to.
Qed.

(** X16: [a = b] for two distinct maps that share no node, unless [b] is
    empty and [a] is not: [a] becomes a copy of [b] with the same pairs,
    shape, colours and [size] on its own sentinel, [b] is left as it was,
    the two still share no node, and every node of the old [a] that the
    copy does not reuse is freed. *)
Theorem assignment_clones w this other s t so to :
  map_wf w this s t → map_wf w other so to → this ≠ other →
  ldisj (s :: addrs t) (so :: addrs to) →
  (to = E → t = E) →
  ∃ w' to',
    map_assign (Some this) (Some other) w = Val tt w'
    ∧ map_wf w' this s to'
    ∧ clone_of to to'
    ∧ elems to' = elems to
    ∧ (rb_tree Compare to → rb_tree Compare to')
    ∧ map_size (Some this) w' = Val (tsize to) w'
    ∧ map_wf w' other so to
    ∧ ldisj (s :: addrs to') (so :: addrs to)
    ∧ (∀ a, a ∈ addrs to' → a ∈ addrs t ∨ nodes w !! a = None)
    ∧ (∀ a, a ∈ addrs t → a ∉ addrs to' → nodes w' !! a = None).
Proof.
  intros Hwf Hwfo Hne Hdj Hemp.
  destruct (assign_prefix _ _ _ _ _ _ _ Hwf Hwfo Hne Hdj)
    as (h2 & to' & -> & Hclone & Hrep' & Hnd' & Hto' & Hfreed & Hout2 & Hs2).
  pose proof Hwf as (Hobj & HR). pose proof Hwfo as (Hobjo & HRo).
  pose proof HRo as (Hndo & Hso & Hto). simpl in Hso, Hto, Hndo.
  assert (so ∉ addrs t ∧ s ≠ so ∧ s ∉ addrs to
          ∧ ∀ k, k ∈ addrs to → k ∉ addrs t) as (Hsot & Hsso & Hsto & Htt).
  { split_and!.
    - intros Hin. apply (Hdj so); set_solver.
    - intros ->. apply (Hdj so); set_solver.
    - intros Hin. apply (Hdj s); set_solver.
    - intros k Hk Hin. apply (Hdj k); set_solver. }
  assert (h2 !! s = Some (mkNode RED None (root to') None None)) as Hs2'.
  { rewrite Hs2. destruct to; [|done].
    rewrite (clone_of_E_l _ Hclone). by rewrite (Hemp eq_refl). }
  clear Hs2.
  mrun (lift_mk _ _ (objs w) _ _ (load_val _ _ _ Hs2')).
  destruct (reparent h2 to' (Some s) Hrep' Hnd') as (h3 & Hre & Hrep3 & Hout3).
  assert (when (negb (is_null (root to')))
            (lift (store (root to') (set_parent (Some s)))) (mkWorld h2 (objs w))
          = Val tt (mkWorld h3 (objs w))) as Hre'.
  { destruct to' as [|c' a' l' x' r']; simpl in *.
    - by injection Hre as <-.
    - by apply lift_mk. }
  mrun Hre'.
  mrun (load_map_val (mkWorld h3 (objs w)) _ _ Hobjo).
  rewrite (store_map_val (mkWorld h3 (objs w)) _ _ _ Hobj). simpl.
  eexists _, to'. split; [reflexivity|].
  split; [|split; [done|split; [by apply clone_of_elems|split;
    [by apply clone_of_rb_tree|split; [|split; [|split; [|split]]]]]]].
  - split; simpl.
    + rewrite lookup_insert_eq. unfold set_len. simpl.
      by rewrite (clone_of_tsize _ _ Hclone).
    + split; [|split; [|done]]; simpl.
      * apply NoDup_cons. split; [|done]. intros Hin. by destruct (Hto' _ Hin).
      * rewrite Hout3; [done|]. intros Hin. by destruct (Hto' _ Hin).
  - unfold map_size, bind, load_map. simpl. by rewrite lookup_insert_eq.
  - split; simpl.
    + by rewrite lookup_insert_ne.
    + split; [done|]. split; simpl.
      * rewrite Hout3, Hout2; [done|done| |congruence|].
        -- intros Hin. by destruct (Hto' _ Hin) as (_ & ? & _).
        -- intros Hin. by destruct (Hto' _ Hin) as (_ & ? & _).
      * eapply rep_frame; [|exact Hto]. intros k Hk.
        assert (k ∉ addrs to').
        { intros Hin. by destruct (Hto' _ Hin) as (_ & _ & ? & _). }
        rewrite Hout3, Hout2; [done|by apply Htt|done| |done].
        intros ->. done.
  - intros k. rewrite !elem_of_cons. intros [->|Hk] [->|Hk'].
    + done.
    + done.
    + by destruct (Hto' _ Hk) as (_ & ? & _).
    + by destruct (Hto' _ Hk) as (_ & _ & ? & _).
  - intros a Ha. by destruct (Hto' _ Ha) as (_ & _ & _ & ?).
  - intros a Ha Ha'. simpl. rewrite Hout3 by done. by apply Hfreed.
Qed.

(** X17: [a = b] with [b] empty and [a] not has undefined behaviour for
    every such [a]: [clear] frees the root of [a], [copy] returns at once,
    and [sentinel->left->parent = sentinel] writes through the pointer to
    the freed root that is still in the sentinel of [a]. *)
Theorem assignment_from_empty_undefined w this other s c a l x r so :
  map_wf w this s (N c a l x r) → map_wf w other so E → this ≠ other →
  ldisj (s :: addrs (N c a l x r)) [so] →
  map_assign (Some this) (Some other) w = Undef.
Proof.
  intros Hwf Hwfo Hne Hdj.
  destruct (assign_prefix _ _ _ _ _ _ _ Hwf Hwfo Hne Hdj)
    as (h2 & to' & -> & Hclone & Hrep' & Hnd' & Hto' & Hfreed & Hout2 & Hs2).
  apply clone_of_E_l in Hclone as ->.
  mrun (lift_mk _ _ (objs w) _ _ (load_val _ _ _ Hs2)).
  assert (h2 !! a = None) as Ha.
  { apply Hfreed; [simpl; set_solver|]. apply not_elem_of_nil. }
  unfold bind, lift, store. simpl. by rewrite Ha.
Qed.

End copy_ctor.


(** ** The live nodes *)

Section live.
Context {Key T : Type}.
Implicit Types (h : gmap nat (@RBTNode Key T)) (w : @world Key T).


Lemma bind_inv {St A B} (m : M St A) (k : A → M St B) st v st' :
  bind m k st = Val v st' → ∃ a st1, m st = Val a st1 ∧ k a st1 = Val v st'.
Proof. unfold bind. destruct (m st) as [a st1| | |]; try done. eauto. Qed.

Lemma ds_ret {A} (a : A) : @dom_stable Key T _ (ret a).
Proof. by intros h v h' [= _ <-]. Qed.

Lemma ds_bind {A B} (m : M _ A) (k : A → M _ B) :
  @dom_stable Key T _ m → (∀ a, @dom_stable Key T _ (k a)) → @dom_stable Key T _ (bind m k).
Proof.
  intros Hm Hk h v h' (a & h1 & H1 & H2)%bind_inv.
  rewrite (Hk _ _ _ _ H2). by eapply Hm.
Qed.

Lemma ds_load p : @dom_stable Key T _ (load p).
Proof.
  intros h v h'. unfold load. destruct p as [a|]; [|done].
  destruct (h !! a); [|done]. by intros [= _ <-].
Qed.

Lemma ds_store p g : @dom_stable Key T _ (store p g).
Proof.
  intros h v h'. unfold store. destruct p as [a|]; [|done].
  destruct (h !! a) eqn:E; [|done]. intros [= _ <-].
  apply set_eq. intros k. rewrite dom_insert, elem_of_union, elem_of_singleton.
  split; [intros [->|?]; [by apply elem_of_dom|done]|auto].
Qed.

Lemma ds_assert b : @dom_stable Key T unit (assert b).
Proof. destruct b; [apply ds_ret|done]. Qed.

Lemma ds_undef {A} : @dom_stable Key T A undef.
Proof. done. Qed.

Lemma ds_timeout {A} : @dom_stable Key T A timeout.
Proof. done. Qed.

Lemma ds_when b (m : M _ unit) : @dom_stable Key T _ m → @dom_stable Key T _ (when b m).
Proof. destruct b; [done|intros _; apply ds_ret]. Qed.

End live.

Create HintDb ds discriminated.
#[export] Hint Resolve ds_ret ds_load ds_store ds_assert ds_undef ds_timeout : ds.

(** One step of the analysis of a computation that only reads and writes
    nodes. *)
Ltac ds_step :=
  first
    [ assumption
    | solve [auto with ds nocore]
    | apply ds_when
    | apply ds_bind; [|intros ?]
    | match goal with
      | |- dom_stable (if ?b then _ else _) => destruct b
      | |- dom_stable (match ?x with _ => _ end) => destruct x
      end
    | progress cbv zeta ].
Ltac ds := repeat ds_step.

Section live_functions.
Context {Key T : Type}.
Variable Compare : Key → Key → bool.
Implicit Types (h : gmap nat (@RBTNode Key T)) (w : @world Key T).


Lemma ds_isLeaf p : @dom_stable Key T _ (isLeaf p).
Proof. unfold isLeaf. ds. Qed.
Lemma ds_isRoot p : @dom_stable Key T _ (isRoot p).
Proof. unfold isRoot. ds. Qed.
Lemma ds_isRed p : @dom_stable Key T _ (isRed p).
Proof. unfold isRed. ds. Qed.
Lemma ds_isBlack p : @dom_stable Key T _ (isBlack p).
Proof. unfold isBlack. ds. Qed.
Hint Resolve ds_isLeaf ds_isRoot ds_isRed ds_isBlack : ds.

Lemma ds_direction p : @dom_stable Key T _ (direction p).
Proof. unfold direction. ds. Qed.
Hint Resolve ds_direction : ds.

Lemma ds_sibling p : @dom_stable Key T _ (sibling p).
Proof. unfold sibling. ds. Qed.
Hint Resolve ds_sibling : ds.

Lemma ds_hasSibling p : @dom_stable Key T _ (hasSibling p).
Proof. unfold hasSibling. ds. Qed.
Hint Resolve ds_hasSibling : ds.

Lemma ds_uncle p : @dom_stable Key T _ (uncle p).
Proof. unfold uncle. ds. Qed.
Lemma ds_hasUncle p : @dom_stable Key T _ (hasUncle p).
Proof. unfold hasUncle. ds. Qed.
Lemma ds_grandParent p : @dom_stable Key T _ (grandParent p).
Proof. unfold grandParent. ds. Qed.
Hint Resolve ds_uncle ds_hasUncle ds_grandParent : ds.

Lemma ds_read_slot sl : @dom_stable Key T _ (read_slot sl).
Proof. unfold read_slot. ds. Qed.
Lemma ds_write_slot sl p : @dom_stable Key T _ (write_slot sl p).
Proof. unfold write_slot. ds. Qed.
Lemma ds_load_data p : @dom_stable Key T _ (load_data p).
Proof. unfold load_data. ds. Qed.
Hint Resolve ds_read_slot ds_write_slot ds_load_data : ds.

Lemma ds_maintainRelationship p : @dom_stable Key T _ (maintainRelationship p).
Proof. unfold maintainRelationship. ds. Qed.
Hint Resolve ds_maintainRelationship : ds.

Lemma ds_rotateLeft s p : @dom_stable Key T _ (rotateLeft s p).
Proof. unfold rotateLeft. ds. Qed.
Lemma ds_rotateRight s p : @dom_stable Key T _ (rotateRight s p).
Proof. unfold rotateRight. ds. Qed.
Hint Resolve ds_rotateLeft ds_rotateRight : ds.

Lemma ds_rotateSameDirection s p d : @dom_stable Key T _ (rotateSameDirection s p d).
Proof. unfold rotateSameDirection. ds. Qed.
Lemma ds_rotateOppositeDirection s p d : @dom_stable Key T _ (rotateOppositeDirection s p d).
Proof. unfold rotateOppositeDirection. ds. Qed.
Hint Resolve ds_rotateSameDirection ds_rotateOppositeDirection : ds.

Lemma ds_maintainAfterInsert_rotate s p : @dom_stable Key T _ (maintainAfterInsert_rotate s p).
Proof. unfold maintainAfterInsert_rotate. ds. Qed.
Hint Resolve ds_maintainAfterInsert_rotate : ds.

Lemma ds_maintainAfterInsert fuel : ∀ s p, @dom_stable Key T _ (maintainAfterInsert fuel s p).
Proof.
  induction fuel as [|fuel IH]; intros s p; simpl; [apply ds_timeout|]. ds.
Qed.
Hint Resolve ds_maintainAfterInsert : ds.

Lemma ds_find_priv fuel key : ∀ p, @dom_stable Key T _ (find_priv Compare fuel key p).
Proof.
  induction fuel as [|fuel IH]; intros p; simpl; [apply ds_timeout|]. ds.
Qed.

Lemma ds_swapNode p q : @dom_stable Key T _ (swapNode p q).
Proof. unfold swapNode. ds. Qed.
Hint Resolve ds_swapNode : ds.

Lemma ds_maintainAfterRemove_black recur s p d sb :
  (∀ q, @dom_stable Key T _ (recur q)) →
  @dom_stable Key T _ (maintainAfterRemove_black recur s p d sb).
Proof. intros Hrec. unfold maintainAfterRemove_black. ds. Qed.

Lemma ds_maintainAfterRemove fuel : ∀ s p, @dom_stable Key T _ (maintainAfterRemove fuel s p).
Proof.
  induction fuel as [|fuel IH]; intros s p; simpl; [apply ds_timeout|].
  ds.
Qed.
Hint Resolve ds_maintainAfterRemove : ds.

Lemma ds_successor_loop fuel : ∀ p q, @dom_stable Key T _ (successor_loop fuel p q).
Proof.
  induction fuel as [|fuel IH]; intros p q; simpl; [apply ds_timeout|]. ds.
Qed.
Hint Resolve ds_successor_loop : ds.

Lemma ds_remove_swap fuel p : @dom_stable Key T _ (remove_swap fuel p).
Proof. unfold remove_swap. ds. Qed.
Lemma ds_remove_leaf fuel s p : @dom_stable Key T _ (remove_leaf fuel s p).
Proof. unfold remove_leaf. ds. Qed.
Lemma ds_remove_single fuel s p : @dom_stable Key T _ (remove_single fuel s p).
Proof. unfold remove_single. ds. Qed.

Hint Resolve ds_remove_swap ds_remove_leaf ds_remove_single : ds.

Lemma dom_delete_node h a v h' :
  delete_node (Some a) h = Val v h' → a ∈ dom h ∧ dom h' = dom h ∖ {[a]}.
Proof.
  unfold delete_node. destruct (h !! a) eqn:E; [|done]. intros [= _ <-].
  split; [by apply elem_of_dom|]. by rewrite dom_delete_L.
Qed.

(** [remove] frees the node it is given, and no other. *)
Lemma remove_priv_dom fuel s size node h v h' :
  remove_priv fuel s size node h = Val v h' →
  ∃ a, node = Some a ∧ a ∈ dom h ∧ dom h' = dom h ∖ {[a]}.
Proof.
  unfold remove_priv. intros (u & h0 & Hassert & Hrest)%bind_inv.
  destruct node as [a|]; [|done]. injection Hassert as _ <-.
  exists a. split; [done|]. destruct (size =? 1).
  - apply bind_inv in Hrest as (u1 & h1 & Hst & Hdel).
    apply (ds_store _ _ _ _ _ ) in Hst. apply dom_delete_node in Hdel.
    by rewrite <- Hst.
  - apply bind_inv in Hrest as (n & h1 & Hld & Hrest).
    apply ds_load in Hld.
    apply bind_inv in Hrest as (u1 & h2 & Hsw & Hrest).
    assert (dom h2 = dom h1) as E2.
    { revert Hsw. apply ds_when. apply ds_remove_swap. }
    apply bind_inv in Hrest as (lf & h3 & Hlf & Hrest).
    apply ds_isLeaf in Hlf.
    apply bind_inv in Hrest as (u2 & h4 & Hcase & Hdel).
    assert (dom h4 = dom h3) as E4.
    { revert Hcase. destruct lf; [apply ds_remove_leaf|apply ds_remove_single]. }
    apply dom_delete_node in Hdel. rewrite <- Hld, <- E2, <- Hlf, <- E4. done.
Qed.

(** The private [insert] allocates one node when it inserts, and none when
    the key is found. *)
Lemma insert_priv_dom fuel value :
  ∀ sl p h res h',
    insert_priv Compare fuel value sl p h = Val res h' →
    (snd res = false ∧ dom h' = dom h)
    ∨ (res = (Some (fresh (dom h)), true)
       ∧ dom h' = {[fresh (dom h)]} ∪ dom h).
Proof.
  induction fuel as [|fuel IH]; intros sl p h res h'; simpl; [done|].
  intros (cur & h0 & Hrd & Hrest)%bind_inv.
  pose proof (ds_read_slot _ _ _ _ Hrd) as E0.
  destruct (is_null cur).
  - right.
    apply bind_inv in Hrest as (b & h1 & Hnew & Hrest).
    unfold new_node in Hnew.
    assert (h0 = h) as ->.
    { revert Hrd. unfold read_slot, bind, load.
      destruct sl as [[o|]|[o|]]; try done;
        destruct (h !! o); try done; by intros [= _ <-]. }
    injection Hnew as <- <-.
    apply bind_inv in Hrest as (u & h2 & Hw & Hrest).
    apply bind_inv in Hrest as (cur' & h3 & Hrd' & Hret).
    injection Hret as <- <-.
    pose proof (ds_write_slot _ _ _ _ _ Hw) as E2.
    pose proof (ds_read_slot _ _ _ _ Hrd') as E3.
    split.
    + f_equal.
      destruct sl as [[o|]|[o|]]; simpl in Hw, Hrd'; try done;
        unfold store in Hw;
        (destruct (_ !! o) eqn:Eo in Hw; [|done]);
        injection Hw as Hh2; subst h2; unfold bind, load in Hrd';
        rewrite lookup_insert_eq in Hrd'; by injection Hrd' as <- _.
    + rewrite E3, E2. by rewrite dom_insert_L.
  - apply bind_inv in Hrest as (x & h1 & Hld & Hrest).
    pose proof (ds_load_data _ _ _ _ Hld) as E1.
    assert (h1 = h0) as ->.
    { revert Hld. unfold load_data, bind, load.
      destruct cur as [c|]; try done. destruct (h0 !! c) as [n|]; try done.
      destruct (data n); try done; by intros [= _ <-]. }
    assert (h0 = h) as ->.
    { revert Hrd. unfold read_slot, bind, load.
      destruct sl as [[o|]|[o|]]; try done;
        destruct (h !! o); try done; by intros [= _ <-]. }
    destruct (equal_key Compare _ _).
    + left. by injection Hrest as <- <-.
    + destruct (Compare _ _); by apply IH in Hrest.
Qed.

End live_functions.


Section live_map.
Context {Key T : Type}.
Variable Compare : Key → Key → bool.
Hypothesis Hswo : StrictWeakOrder Compare.
Implicit Types (h : gmap nat (@RBTNode Key T)) (t l r m : @tree Key T)
  (w : @world Key T) (k : Key) (v : T).

Local Arguments bind : simpl never.
Ltac msimpl := repeat (progress simpl || rewrite bind_ret || rewrite bind_bind).
Ltac mrun E :=
  let H := fresh in
  pose proof E as H; rewrite (bind_val _ _ _ _ _ H); clear H; msimpl.

Lemma lift_inv {A} (m : M _ A) w a w' :
  lift m w = Val a w' → m (nodes w) = Val a (nodes w') ∧ objs w' = objs w.
Proof.
  unfold lift. destruct (m (nodes w)) as [a0 h0| | |]; try done.
  by intros [= <- <-].
Qed.

Lemma load_map_inv this w mo w' : load_map this w = Val mo w' → w' = w.
Proof.
  unfold load_map. destruct this as [a|]; [|done].
  destruct (objs w !! a); [|done]. by intros [= _ <-].
Qed.

Lemma store_map_inv this fn w u w' :
  store_map this fn w = Val u w' → nodes w' = nodes w.
Proof.
  unfold store_map. destruct this as [a|]; [|done].
  destruct (objs w !! a); [|done]. by intros [= _ <-].
Qed.

Lemma map_insert_dom this value w res w' :
  map_insert Compare this value w = Val res w' →
  (snd res = false ∧ dom (nodes w') = dom (nodes w))
  ∨ (res = (mkIter this (Some (fresh (dom (nodes w)))), true)
     ∧ dom (nodes w') = {[fresh (dom (nodes w))]} ∪ dom (nodes w)).
Proof.
  unfold map_insert. rewrite bind_fuel_of.
  generalize (S (size (nodes w))). intros fuel.
  intros (mo & w1 & Hlm & Hrest)%bind_inv.
  apply load_map_inv in Hlm as ->.
  apply bind_inv in Hrest as (p & w2 & Hins & Hrest).
  apply lift_inv in Hins as (Hins & Hobjs).
  apply (insert_priv_dom Compare) in Hins.
  apply bind_inv in Hrest as (u & w3 & Hwhen & Hret).
  injection Hret as <- <-.
  destruct Hins as [[Hp Hd]|[-> Hd]]; cbn [fst snd] in *.
  - left. rewrite Hp in Hwhen. unfold when, ret in Hwhen.
    injection Hwhen as Hw23. subst w3. by split.
  - right. split; [done|].
    apply bind_inv in Hwhen as (u1 & w4 & Hfix & Hrest).
    apply lift_inv in Hfix as (Hfix & _).
    apply ds_maintainAfterInsert in Hfix.
    apply bind_inv in Hrest as (m1 & w5 & Hlm & Hst).
    apply load_map_inv in Hlm as ->. apply store_map_inv in Hst.
    by rewrite Hst, Hfix.
Qed.

Lemma map_erase_dom this pos w u w' :
  map_erase this pos w = Val u w' →
  ∃ a, ptr pos = Some a ∧ a ∈ dom (nodes w)
       ∧ dom (nodes w') = dom (nodes w) ∖ {[a]}.
Proof.
  unfold map_erase. rewrite bind_fuel_of.
  generalize (S (size (nodes w))). intros fuel.
  intros (e & w1 & He & Hrest)%bind_inv.
  assert (w1 = w) as ->.
  { revert He. unfold map_end. intros (mo & w0 & Hlm & Hret)%bind_inv.
    apply load_map_inv in Hlm as ->. by injection Hret as _ <-. }
  destruct (_ || _); [done|].
  apply bind_inv in Hrest as (mo & w2 & Hlm & Hrest).
  apply load_map_inv in Hlm as ->.
  apply bind_inv in Hrest as (u1 & w3 & Hrm & Hrest).
  apply lift_inv in Hrm as (Hrm & _).
  apply remove_priv_dom in Hrm as (a & Ha & Hin & Hd).
  apply bind_inv in Hrest as (m1 & w4 & Hlm & Hst).
  apply load_map_inv in Hlm as ->. apply store_map_inv in Hst.
  exists a. by rewrite Hst.
Qed.

(** X18: an [insert] that inserts allocates exactly one node, the one its
    iterator points to; an [insert] that finds the key present leaves the
    whole store as it is. *)
Theorem insert_allocates_one_node w this s t k v :
  map_wf w this s t → rb_tree Compare t →
  ∃ it ok w',
    map_insert Compare (Some this) (k, v) w = Val (it, ok) w'
    ∧ (ok = false → w' = w)
    ∧ (ok = true →
         ∃ a, ptr it = Some a ∧ a ∉ dom (nodes w)
              ∧ dom (nodes w') = {[a]} ∪ dom (nodes w)).
Proof.
  intros Hwf Hrb.
  destruct (present_dec Compare Hswo k t (proj1 Hrb)) as [(a & x & Hin & He)|Habs].
  - exists (mkIter (Some this) (Some a)), false, w. split; [|done].
    exact (map_insert_present Compare Hswo w this s t k v a x Hwf
             (proj1 Hrb) Hin He).
  - destruct (map_insert_absent Compare Hswo w this s t k v Hwf Hrb Habs)
      as (w' & T' & L1 & L2 & Hins & _).
    eexists _, true, w'. split; [exact Hins|]. split; [done|]. intros _.
    destruct (map_insert_dom _ _ _ _ _ Hins) as [[? _]|[_ Hd]]; [done|].
    exists (fresh (dom (nodes w))). split_and!; [done| |done]. apply is_fresh.
Qed.

(** X19: [erase] frees exactly the node of the erased element; an
    iterator to that element is left dangling, and dereferencing it is
    undefined behaviour. *)
Theorem erase_frees_one_node w this s t a x :
  map_wf w this s t → rb_tree Compare t → (a, x) ∈ cells t →
  ∃ w',
    map_erase (Some this) (mkIter (Some this) (Some a)) w = Val tt w'
    ∧ a ∈ dom (nodes w)
    ∧ dom (nodes w') = dom (nodes w) ∖ {[a]}
    ∧ iterator_deref (mkIter (Some this) (Some a)) w' = Undef.
Proof.
  intros Hwf Hrb Hin.
  destruct (map_erase_valid Compare w this s t a x Hwf Hrb Hin)
    as (w' & T' & L1 & L2 & Herase & Hwf' & _).
  exists w'. split; [done|].
  destruct (map_erase_dom _ _ _ _ _ Herase) as (a' & [= <-] & Ha & Hd).
  split_and!; try done.
  assert (nodes w' !! a = None) as Hnone.
  { apply not_elem_of_dom. rewrite Hd. set_solver. }
  pose proof (cell_in_not_sentinel _ _ _ _ _ _ Hwf Hin) as Hne.
  destruct Hwf' as (Hobj & _). unfold iterator_deref. simpl.
  mrun (load_map_val _ _ _ Hobj). rewrite ptr_eqb_Some_ne by done.
  unfold lift, load_data, bind, load. by rewrite Hnone.
Qed.

(** X20: no node is leaked: where the live nodes are exactly the sentinel
    and the nodes of the tree, they still are after any [insert] and after
    any [erase] of an element. *)
Theorem insert_erase_leak_no_node w this s t :
  map_wf w this s t → rb_tree Compare t →
  dom (nodes w) = list_to_set (s :: addrs t) →
  (∀ k v, ∃ res w' T',
     map_insert Compare (Some this) (k, v) w = Val res w'
     ∧ map_wf w' this s T'
     ∧ dom (nodes w') = list_to_set (s :: addrs T'))
  ∧ (∀ a x, (a, x) ∈ cells t → ∃ w' T',
       map_erase (Some this) (mkIter (Some this) (Some a)) w = Val tt w'
       ∧ map_wf w' this s T'
       ∧ dom (nodes w') = list_to_set (s :: addrs T')).
Proof.
  intros Hwf Hrb Hdom. split.
  - intros k v.
    destruct (present_dec Compare Hswo k t (proj1 Hrb)) as [(a & x & Hin & He)|Habs].
    + eexists _, w, t. split; [|done].
      exact (map_insert_present Compare Hswo w this s t k v a x Hwf
               (proj1 Hrb) Hin He).
    + destruct (map_insert_absent Compare Hswo w this s t k v Hwf Hrb Habs)
        as (w' & T' & L1 & L2 & Hins & Hwf' & _ & Hc & Hc' & _).
      eexists _, w', T'. split; [exact Hins|]. split; [done|].
      destruct (map_insert_dom _ _ _ _ _ Hins) as [[? _]|[_ Hd]]; [done|].
      simpl in Hc'. remember (fresh (dom (nodes w))) as b eqn:Hb. clear Hb.
      rewrite Hd, Hdom. rewrite !addrs_cells, Hc, Hc'.
      rewrite !fmap_app, fmap_cons. simpl.
      rewrite !list_to_set_app_L, list_to_set_cons.
      generalize (list_to_set (C := gset nat) L1.*1).
      generalize (list_to_set (C := gset nat) L2.*1).
      intros X Y. clear. set_solver.
  - intros a x Hin.
    destruct (map_erase_valid Compare w this s t a x Hwf Hrb Hin)
      as (w' & T' & L1 & L2 & Herase & Hwf' & _ & Hc & Hc' & _).
    exists w', T'. split; [done|]. split; [done|].
    destruct (map_erase_dom _ _ _ _ _ Herase) as (a' & [= <-] & Ha & Hd).
    pose proof Hwf as (_ & Hnd & _). simpl in Hnd.
    rewrite addrs_cells, Hc, fmap_app, fmap_cons in Hnd. simpl in Hnd.
    apply NoDup_cons in Hnd as (Hs & Hnd).
    apply NoDup_app in Hnd as (_ & Hdj & Hnd).
    apply NoDup_cons in Hnd as (Ha2 & _).
    assert (a ∉ L1.*1) as Ha1.
    { intros Hin1. apply (Hdj _ Hin1). set_solver. }
    assert (a ≠ s) as Has.
    { intros ->. apply Hs. rewrite elem_of_app, elem_of_cons. auto. }
    rewrite Hd, Hdom. rewrite !addrs_cells, Hc, Hc'.
    rewrite !fmap_app, fmap_cons. simpl.
    rewrite !list_to_set_app_L, list_to_set_cons.
    assert (a ∉ (list_to_set L1.*1 : gset nat)) as Ha1'
      by (by rewrite elem_of_list_to_set).
    assert (a ∉ (list_to_set L2.*1 : gset nat)) as Ha2'
      by (by rewrite elem_of_list_to_set).
    revert Ha1' Ha2'.
    generalize (list_to_set (C := gset nat) L1.*1).
    generalize (list_to_set (C := gset nat) L2.*1).
    intros X Y HX HY. clear -HX HY Has. set_solver.
Qed.

End live_map.


(** ** The constructor and the rotations *)

Section ctor_rotations.
Context {Key T : Type}.
Variable Compare : Key → Key → bool.
Implicit Types (h : gmap nat (@RBTNode Key T)) (t l r m : @tree Key T)
  (cx : list (@frame Key T)) (w : @world Key T).

Local Arguments bind : simpl never.

(** X21: [map()], in any store, makes an empty map on a fresh sentinel:
    [size] 0, [empty()] true, [begin() == end()], every [find] at [end()]
    and every [count] 0; the older nodes and maps are as they were. *)
Theorem constructor_makes_empty this w0 :
  ∃ w s,
    map_ctor this w0 = Val tt w
    ∧ map_wf w this s E
    ∧ nodes w0 !! s = None
    ∧ map_size (Some this) w = Val 0 w
    ∧ map_empty (Some this) w = Val true w
    ∧ map_begin (Some this) w = map_end (Some this) w
    ∧ (∀ k, map_find Compare (Some this) k w = map_end (Some this) w
            ∧ map_count Compare (Some this) k w = Val 0 w)
    ∧ (∀ a, a ≠ s → nodes w !! a = nodes w0 !! a)
    ∧ (∀ o, o ≠ this → objs w !! o = objs w0 !! o).
Proof.
  destruct (map_ctor_spec this w0) as (w & Hctor & Hwf).
  exists w, (fresh (dom (nodes w0))). split; [done|]. split; [done|].
  assert (w = mkWorld (<[fresh (dom (nodes w0)) := RBTNode_default]> (nodes w0))
                (<[this := mkMap (Some (fresh (dom (nodes w0)))) 0]> (objs w0)))
    as Hw.
  { revert Hctor. unfold map_ctor, bind, lift, new_node. simpl. by intros [= <-]. }
  split_and!.
  - apply not_elem_of_dom, is_fresh.
  - destruct Hwf as (Hobj & _). unfold map_size.
    by rewrite (bind_val _ _ _ _ _ (load_map_val _ _ _ Hobj)).
  - exact (map_empty_spec _ _ _ _ Hwf).
  - by rewrite (map_begin_spec _ _ _ _ Hwf), (map_end_spec _ _ _ _ Hwf).
  - intros k. unfold map_find, map_count.
    by rewrite !(find_root_spec Compare _ _ _ _ _ _ Hwf).
  - intros a Ha. rewrite Hw. simpl. by rewrite lookup_insert_ne.
  - intros o Ho. rewrite Hw. simpl. by rewrite lookup_insert_ne.
Qed.

(** X22: [rotateLeft] at a node with a right child lifts that child and
    keeps the nodes in the same symmetric order; [rotateRight] at the
    lifted node then restores the tree as it was. *)
Theorem rotate_left_then_right h s cx c a l x c' b m y r :
  Rep h s cx (N c a l x (N c' b m y r)) →
  ∃ h1 h2,
    rotateLeft (Some s) (Some a) h = Val tt h1
    ∧ Rep h1 s cx (N c' b (N c a l x m) y r)
    ∧ cells (plug cx (N c' b (N c a l x m) y r))
      = cells (plug cx (N c a l x (N c' b m y r)))
    ∧ rotateRight (Some s) (Some b) h1 = Val tt h2
    ∧ Rep h2 s cx (N c a l x (N c' b m y r)).
Proof.
  intros HR.
  destruct (rotateLeft_spec _ _ _ _ _ _ _ _ _ _ _ _ HR) as (h1 & E1 & R1).
  destruct (rotateRight_spec _ _ _ _ _ _ _ _ _ _ _ _ R1) as (h2 & E2 & R2).
  exists h1, h2. split_and!; try done.
  rewrite !cells_plug. simpl. rewrite <- !app_assoc. simpl. by rewrite <- !app_assoc.
Qed.

End ctor_rotations.


(** ** The further properties on the concrete maps *)

Lemma ex_wf_empty : map_wf ex_world 1 1 E.
Proof.
  split; [reflexivity|]. split; [|by vm_compute].
  simpl. repeat (apply NoDup_cons_2; [set_solver|]). apply NoDup_nil_2.
Qed.

Lemma ex_disjoint : ldisj (0 :: addrs ex_tree) [1].
Proof. intros x Hx. simpl in Hx. set_solver. Qed.

Lemma ex_disjoint' : ldisj [1] (0 :: addrs ex_tree).
Proof. intros x Hx. simpl. set_solver. Qed.

Lemma ex_erased_wf : map_wf ex_erased 0 0 (N BLACK 3 (N RED 2 E (3, 30) E) (8, 80) E).
Proof.
  split; [reflexivity|]. split; [|by vm_compute].
  simpl. repeat (apply NoDup_cons_2; [set_solver|]). apply NoDup_nil_2.
Qed.

Lemma ex_erased_rb : rb_tree Nat.ltb (N BLACK 3 (N RED 2 E (3, 30) E) (8, 80) E).
Proof.
  split; [|by vm_compute].
  unfold ordered. simpl. repeat constructor.
Qed.

Lemma ex_erased_dom :
  dom (nodes ex_erased) = list_to_set (0 :: addrs (N BLACK 3 (N RED 2 E (3, 30) E) (8, 80) E)).
Proof. simpl. rewrite !dom_insert_L, dom_empty_L. set_solver. Qed.

Lemma ex_cell_root : (2, (5, 50)) ∈ cells ex_tree.
Proof. simpl. set_solver. Qed.

Lemma ex_cell_max : (4, (8, 80)) ∈ cells ex_tree.
Proof. simpl. set_solver. Qed.

Lemma find_and_count_witness :
  (∀ a x, (a, x) ∈ cells ex_tree → equal_key Nat.ltb 5 (fst x) = true →
     map_find Nat.ltb (Some 0) 5 ex_world = Val (mkIter (Some 0) (Some a)) ex_world
     ∧ iterator_deref (mkIter (Some 0) (Some a)) ex_world = Val x ex_world
     ∧ map_count Nat.ltb (Some 0) 5 ex_world = Val 1 ex_world)
  ∧ (¬ present Nat.ltb 5 ex_tree →
     map_find Nat.ltb (Some 0) 5 ex_world = map_end (Some 0) ex_world
     ∧ map_count Nat.ltb (Some 0) 5 ex_world = Val 0 ex_world
     ∧ ∀ it, map_find Nat.ltb (Some 0) 5 ex_world = Val it ex_world →
             iterator_deref it ex_world = Throw invalid_iterator ex_world).
Proof.
  exact (find_and_count Nat.ltb nat_swo ex_world 0 0 ex_tree 5
           ex_wf (proj1 ex_rb)).
Defined.

Lemma insert_then_lookup_witness :
  ∃ a w',
    map_insert Nat.ltb (Some 0) (7, 70) ex_world
    = Val (mkIter (Some 0) (Some a), true) w'
    ∧ map_find Nat.ltb (Some 0) 7 w' = Val (mkIter (Some 0) (Some a)) w'
    ∧ iterator_deref (mkIter (Some 0) (Some a)) w' = Val (7, 70) w'
    ∧ map_at Nat.ltb (Some 0) 7 w' = Val (Some a) w'
    ∧ load_second (Some a) w' = Val 70 w'
    ∧ map_count Nat.ltb (Some 0) 7 w' = Val 1 w'
    ∧ map_count Nat.ltb (Some 0) 7 ex_world = Val 0 ex_world.
Proof.
  exact (insert_then_lookup Nat.ltb nat_swo ex_world 0 0 ex_tree 7 70
           ex_wf ex_rb ex_absent).
Defined.

Lemma index_existing_key_witness :
  map_index Nat.ltb 0 (Some 0) 8 ex_world = Val (Some 4) ex_world
  ∧ map_index_const Nat.ltb (Some 0) 8 ex_world = Val (Some 4) ex_world
  ∧ load_second (Some 4) ex_world = Val 80 ex_world.
Proof.
  exact (index_existing_key Nat.ltb 0 nat_swo ex_world 0 0 ex_tree 8 4 (8, 80)
           ex_wf (proj1 ex_rb) ex_cell_max eq_refl).
Defined.

Lemma erase_found_key_witness :
  (¬ present Nat.ltb 5 ex_tree →
     ∃ it, map_find Nat.ltb (Some 0) 5 ex_world = Val it ex_world
           ∧ map_erase (Some 0) it ex_world = Throw invalid_iterator ex_world)
  ∧ (∀ a x, (a, x) ∈ cells ex_tree → equal_key Nat.ltb 5 (fst x) = true →
       ∃ it w' T' L1 L2,
         map_find Nat.ltb (Some 0) 5 ex_world = Val it ex_world
         ∧ map_erase (Some 0) it ex_world = Val tt w'
         ∧ map_wf w' 0 0 T' ∧ rb_tree Nat.ltb T'
         ∧ elems ex_tree = L1 ++ x :: L2 ∧ elems T' = L1 ++ L2
         ∧ ¬ present Nat.ltb 5 T'
         ∧ map_count Nat.ltb (Some 0) 5 w' = Val 0 w').
Proof.
  exact (erase_found_key Nat.ltb nat_swo ex_world 0 0 ex_tree 5 ex_wf ex_rb).
Defined.

Lemma lookup_stable_under_insert_witness :
  ∃ res w' it,
    map_insert Nat.ltb (Some 0) (7, 70) ex_world = Val res w'
    ∧ map_find Nat.ltb (Some 0) 3 ex_world = Val it ex_world
    ∧ map_find Nat.ltb (Some 0) 3 w' = Val it w'
    ∧ (∀ x, iterator_deref it ex_world = Val x ex_world →
            iterator_deref it w' = Val x w').
Proof.
  exact (lookup_stable_under_insert Nat.ltb nat_swo ex_world 0 0 ex_tree 7 70 3
           ex_wf ex_rb eq_refl).
Defined.

Lemma lookup_stable_under_erase_witness :
  ∃ w' it,
    map_erase (Some 0) (mkIter (Some 0) (Some 2)) ex_world = Val tt w'
    ∧ map_find Nat.ltb (Some 0) 3 ex_world = Val it ex_world
    ∧ map_find Nat.ltb (Some 0) 3 w' = Val it w'
    ∧ (∀ y, iterator_deref it ex_world = Val y ex_world →
            iterator_deref it w' = Val y w').
Proof.
  exact (lookup_stable_under_erase Nat.ltb nat_swo ex_world 0 0 ex_tree
           2 (5, 50) 3 ex_wf ex_rb ex_cell_root eq_refl).
Defined.

Lemma erase_then_insert_restores_witness :
  ∃ w1 b w2 T2,
    map_erase (Some 0) (mkIter (Some 0) (Some 2)) ex_world = Val tt w1
    ∧ map_insert Nat.ltb (Some 0) (5, 50) w1
      = Val (mkIter (Some 0) (Some b), true) w2
    ∧ map_wf w2 0 0 T2 ∧ rb_tree Nat.ltb T2
    ∧ elems T2 = elems ex_tree
    ∧ map_size (Some 0) ex_world = Val (tsize ex_tree) ex_world
    ∧ map_size (Some 0) w2 = Val (tsize ex_tree) w2.
Proof.
  exact (erase_then_insert_restores Nat.ltb nat_swo ex_world 0 0 ex_tree
           2 (5, 50) ex_wf ex_rb ex_cell_root).
Defined.

Lemma begin_is_first_witness :
  (ex_tree = E →
     map_begin (Some 0) ex_world = map_end (Some 0) ex_world
     ∧ map_empty (Some 0) ex_world = Val true ex_world)
  ∧ (∀ a x L, cells ex_tree = (a, x) :: L →
       map_begin (Some 0) ex_world = Val (mkIter (Some 0) (Some a)) ex_world
       ∧ iterator_deref (mkIter (Some 0) (Some a)) ex_world = Val x ex_world
       ∧ map_begin (Some 0) ex_world ≠ map_end (Some 0) ex_world
       ∧ map_empty (Some 0) ex_world = Val false ex_world
       ∧ (ordered Nat.ltb ex_tree → Forall (key_lt Nat.ltb x) L.*2)).
Proof. exact (begin_is_first Nat.ltb ex_world 0 0 ex_tree ex_wf). Defined.

Lemma decrement_end_is_last_witness :
  (ex_tree = E →
     iterator_decr (mkIter (Some 0) (Some 0)) ex_world
     = Throw invalid_iterator ex_world)
  ∧ (∀ L a x, cells ex_tree = L ++ [(a, x)] →
       iterator_decr (mkIter (Some 0) (Some 0)) ex_world
       = Val (mkIter (Some 0) (Some a)) ex_world
       ∧ iterator_deref (mkIter (Some 0) (Some a)) ex_world = Val x ex_world
       ∧ iterator_incr (mkIter (Some 0) (Some a)) ex_world
         = Val (mkIter (Some 0) (Some 0)) ex_world
       ∧ (ordered Nat.ltb ex_tree → Forall (λ y, key_lt Nat.ltb y x) L.*2)).
Proof. exact (decrement_end_is_last Nat.ltb ex_world 0 0 ex_tree ex_wf). Defined.

Lemma increment_visits_next_key_witness :
  iterator_incr (mkIter (Some 0) (Some 3)) ex_world
  = Val (mkIter (Some 0) (Some 2)) ex_world
  ∧ iterator_decr (mkIter (Some 0) (Some 2)) ex_world
    = Val (mkIter (Some 0) (Some 3)) ex_world
  ∧ iterator_deref (mkIter (Some 0) (Some 2)) ex_world = Val (5, 50) ex_world
  ∧ (ordered Nat.ltb ex_tree → key_lt Nat.ltb (3, 30) (5, 50)).
Proof.
  exact (increment_visits_next_key Nat.ltb ex_world 0 0 ex_tree
           [] 3 (3, 30) 2 (5, 50) [(4, (8, 80))] ex_wf eq_refl).
Defined.

Lemma post_increment_spec_witness :
  (∀ a, a ∈ addrs ex_tree →
     ∃ q, iterator_incr (mkIter (Some 0) (Some a)) ex_world
          = Val (mkIter (Some 0) (Some q)) ex_world
          ∧ iterator_post_incr (mkIter (Some 0) (Some a)) ex_world
            = Val (mkIter (Some 0) (Some a), mkIter (Some 0) (Some q)) ex_world
          ∧ const_iterator_post_incr (mkIter (Some 0) (Some a)) ex_world
            = Val (mkIter (Some 0) (Some a), mkIter (Some 0) (Some q)) ex_world)
  ∧ iterator_post_incr (mkIter (Some 0) (Some 0)) ex_world
    = Throw invalid_iterator ex_world
  ∧ const_iterator_post_incr (mkIter (Some 0) (Some 0)) ex_world
    = Throw invalid_iterator ex_world.
Proof. exact (post_increment_spec ex_world 0 0 ex_tree ex_wf). Defined.

Lemma post_decrement_spec_witness :
  (∀ p, p ∈ order 0 ex_tree → p ≠ leftmost_or 0 ex_tree →
     ∃ q, iterator_decr (mkIter (Some 0) (Some p)) ex_world
          = Val (mkIter (Some 0) (Some q)) ex_world
          ∧ iterator_post_decr (mkIter (Some 0) (Some p)) ex_world
            = Val (mkIter (Some 0) (Some p), mkIter (Some 0) (Some q)) ex_world)
  ∧ ∃ b, map_begin (Some 0) ex_world = Val b ex_world
         ∧ iterator_decr b ex_world = Throw invalid_iterator ex_world
         ∧ iterator_post_decr b ex_world = Throw invalid_iterator ex_world.
Proof. exact (post_decrement_spec ex_world 0 0 ex_tree ex_wf). Defined.

Lemma clear_empties_map_witness :
  ∃ w', map_clear (Some 0) ex_world = Val tt w'
    ∧ map_wf w' 0 0 E
    ∧ map_size (Some 0) w' = Val 0 w'
    ∧ map_empty (Some 0) w' = Val true w'
    ∧ map_begin (Some 0) w' = map_end (Some 0) w'
    ∧ (∀ k, map_find Nat.ltb (Some 0) k w' = map_end (Some 0) w'
            ∧ map_count Nat.ltb (Some 0) k w' = Val 0 w')
    ∧ (∀ a, a ∈ addrs ex_tree → nodes w' !! a = None)
    ∧ (∀ a, a ∉ 0 :: addrs ex_tree → nodes w' !! a = nodes ex_world !! a)
    ∧ (∀ o, o ≠ 0 → objs w' !! o = objs ex_world !! o).
Proof. exact (clear_empties_map Nat.ltb ex_world 0 0 ex_tree ex_wf). Defined.

Lemma destructor_frees_all_witness :
  ∃ w', map_dtor (Some 0) ex_world = Val tt w'
    ∧ (∀ a, a ∈ 0 :: addrs ex_tree → nodes w' !! a = None)
    ∧ (∀ a, a ∉ 0 :: addrs ex_tree → nodes w' !! a = nodes ex_world !! a)
    ∧ objs w' !! 0 = Some (mkMap None (tsize ex_tree))
    ∧ (∀ o, o ≠ 0 → objs w' !! o = objs ex_world !! o).
Proof. exact (destructor_frees_all ex_world 0 0 ex_tree ex_wf). Defined.

Lemma copy_constructor_clones_witness :
  ∃ w' s' t',
    map_copy_ctor 2 (Some 0) ex_world = Val tt w'
    ∧ map_wf w' 2 s' t'
    ∧ clone_of ex_tree t'
    ∧ elems t' = elems ex_tree
    ∧ (rb_tree Nat.ltb ex_tree → rb_tree Nat.ltb t')
    ∧ map_size (Some 2) w' = Val (tsize ex_tree) w'
    ∧ map_wf w' 0 0 ex_tree
    ∧ (∀ a, a ∈ s' :: addrs t' → nodes ex_world !! a = None)
    ∧ (∀ a, is_Some (nodes ex_world !! a) →
            nodes w' !! a = nodes ex_world !! a).
Proof.
  apply (copy_constructor_clones Nat.ltb ex_world 2 0 0 ex_tree ex_wf). lia.
Defined.

Lemma assignment_clones_witness :
  ∃ w' to',
    map_assign (Some 1) (Some 0) ex_world = Val tt w'
    ∧ map_wf w' 1 1 to'
    ∧ clone_of ex_tree to'
    ∧ elems to' = elems ex_tree
    ∧ (rb_tree Nat.ltb ex_tree → rb_tree Nat.ltb to')
    ∧ map_size (Some 1) w' = Val (tsize ex_tree) w'
    ∧ map_wf w' 0 0 ex_tree
    ∧ ldisj (1 :: addrs to') (0 :: addrs ex_tree)
    ∧ (∀ a, a ∈ addrs to' → a ∈ addrs (@E nat nat) ∨ nodes ex_world !! a = None)
    ∧ (∀ a, a ∈ addrs (@E nat nat) → a ∉ addrs to' → nodes w' !! a = None).
Proof.
  apply (assignment_clones Nat.ltb ex_world 1 0 1 E 0 ex_tree
           ex_wf_empty ex_wf).
  - lia.
  - exact ex_disjoint'.
  - reflexivity.
Defined.

Lemma assignment_from_empty_undefined_witness :
  map_assign (Some 0) (Some 1) ex_world = Undef.
Proof.
  apply (assignment_from_empty_undefined ex_world 0 1 0
           BLACK 2 (N RED 3 E (3, 30) E) (5, 50) (N RED 4 E (8, 80) E) 1
           ex_wf ex_wf_empty).
  - lia.
  - exact ex_disjoint.
Defined.

Lemma insert_allocates_one_node_witness :
  ∃ it ok w',
    map_insert Nat.ltb (Some 0) (7, 70) ex_world = Val (it, ok) w'
    ∧ (ok = false → w' = ex_world)
    ∧ (ok = true →
         ∃ a, ptr it = Some a ∧ a ∉ dom (nodes ex_world)
              ∧ dom (nodes w') = {[a]} ∪ dom (nodes ex_world)).
Proof.
  exact (insert_allocates_one_node Nat.ltb nat_swo ex_world 0 0 ex_tree 7 70
           ex_wf ex_rb).
Defined.

Lemma erase_frees_one_node_witness :
  ∃ w',
    map_erase (Some 0) (mkIter (Some 0) (Some 2)) ex_world = Val tt w'
    ∧ 2 ∈ dom (nodes ex_world)
    ∧ dom (nodes w') = dom (nodes ex_world) ∖ {[2]}
    ∧ iterator_deref (mkIter (Some 0) (Some 2)) w' = Undef.
Proof.
  exact (erase_frees_one_node Nat.ltb nat_swo ex_world 0 0 ex_tree 2 (5, 50)
           ex_wf ex_rb ex_cell_root).
Defined.

Lemma insert_erase_leak_no_node_witness :
  (∀ k v, ∃ res w' T',
     map_insert Nat.ltb (Some 0) (k, v) ex_erased = Val res w'
     ∧ map_wf w' 0 0 T'
     ∧ dom (nodes w') = list_to_set (0 :: addrs T'))
  ∧ (∀ a x, (a, x) ∈ cells (N BLACK 3 (N RED 2 E (3, 30) E) (8, 80) E) → ∃ w' T',
       map_erase (Some 0) (mkIter (Some 0) (Some a)) ex_erased = Val tt w'
       ∧ map_wf w' 0 0 T'
       ∧ dom (nodes w') = list_to_set (0 :: addrs T')).
Proof.
  exact (insert_erase_leak_no_node Nat.ltb nat_swo ex_erased 0 0 (N BLACK 3 (N RED 2 E (3, 30) E) (8, 80) E)
           ex_erased_wf ex_erased_rb ex_erased_dom).
Defined.

Lemma rotate_left_then_right_witness :
  ∃ h1 h2,
    rotateLeft (Some 0) (Some 2) ex_nodes = Val tt h1
    ∧ Rep h1 0 [] (N RED 4 (N BLACK 2 (N RED 3 E (3, 30) E) (5, 50) E) (8, 80) E)
    ∧ cells (plug [] (N RED 4 (N BLACK 2 (N RED 3 E (3, 30) E) (5, 50) E)
                        (8, 80) E))
      = cells (plug [] ex_tree)
    ∧ rotateRight (Some 0) (Some 4) h1 = Val tt h2
    ∧ Rep h2 0 [] ex_tree.
Proof.
  exact (rotate_left_then_right ex_nodes 0 [] BLACK 2 (N RED 3 E (3, 30) E)
           (5, 50) RED 4 E (8, 80) E (proj2 ex_wf)).
Defined.
